(** * AutoDelete: the due-time queue, its dispatch loop and worker pool (queue.go)

    A shallow embedding of [queue.go] together with the properties of its
    specification.  The file is organised as the source is:

    - [pqItem] / [priorityQueue] and the [heap.Interface] methods;
    - the algorithms of Go's [container/heap] that the queue calls
      ([heap.Push], [heap.Pop], [heap.Fix], [heap.Init]);
    - [reapQueue] with [Update] and [WaitForNext];
    - [Bot.QueueReap], [Bot.CancelReap], [Bot.QueueLoadBacklog];
    - [reapScheduler], [sendWorkItem], [loadWorker], [reapWorker] as the
      transitions of one interleaving state machine.

    The properties of the specification come first; the parts from
    [index_facts] on say more about the same code: the bookkeeping
    of the heap, what [Update], [WaitForNext] and [QueueLoadBacklog] leave
    untouched, how the backoff grows, the accounting of work items and
    of worker tokens over the runs of the service, and what the timer of
    [sendWorkItem] does to its scheduler.

    Conventions.  A function that can panic in Go (index out of range, a nil
    dereference) returns [option]; [None] also stands for a loop that ran out
    of the fuel its caller supplied, and the lemmas show that neither
    happens.  [time.Time] is an instant counted in nanoseconds, a
    [time.Duration] is an [int64] count of nanoseconds. *)

From stdpp Require Import base option list gmap sorting strings.
From Stdlib Require Import ZArith Lia ZifyNat.

Ltac Zify.zify_post_hook ::= Z.div_mod_to_equations.

Local Open Scope Z_scope.

(** ** [int64] arithmetic *)

Definition int64_min : Z := - 2 ^ 63.
Definition int64_max : Z := 2 ^ 63 - 1.

(** Two's complement wrap-around of a mathematical integer into [int64]. *)
Definition wrap64 (z : Z) : Z := (z + 2 ^ 63) mod 2 ^ 64 - 2 ^ 63.

(** ** Time *)

Definition Time := Z.
Definition Duration := Z.

Bind Scope Z_scope with Time Duration.

Definition Millisecond : Duration := 1000000.
Definition Second : Duration := 1000000000.

Definition schedulerTimeout : Duration := 100 * Millisecond.
Definition workerTimeout : Duration := 5 * Second.

(** [t.Before(u)], [t.After(u)], [t.Add(d)]; [t.Sub(u)] saturates at the
    ends of [int64], as the [time] package documents. *)
Definition Before (t u : Time) : bool := t <? u.
Definition After (t u : Time) : bool := u <? t.
Definition Add (t : Time) (d : Duration) : Time := t + d.
Definition Sub (t u : Time) : Duration := Z.max int64_min (Z.min int64_max (t - u)).

(** The zero value of [time.Time]. *)
Definition zeroTime : Time := 0.

(** [mrand.Intn(n)] panics for [n <= 0] and otherwise returns a number of
    [[0, n)]; the state of the generator is the integer [seed], of which
    only the residue matters. *)
Definition Intn (n : Z) (seed : Z) : option Z :=
  if decide (n ≤ 0) then None else Some (seed mod n).

(** ** Queue items *)

(** [*ManagedChannel]: only the identity of the pointer matters to the queue. *)
Definition chanRef := nat.

Bind Scope nat_scope with chanRef.

Record pqItem := mkItem {
  ch : chanRef;
  nextReap : Time;
  index : Z
}.

Definition set_index (it : pqItem) (i : Z) : pqItem :=
  mkItem (ch it) (nextReap it) i.

Definition set_nextReap (it : pqItem) (t : Time) : pqItem :=
  mkItem (ch it) t (index it).

Abbreviation priorityQueue := (list pqItem).

Local Open Scope nat_scope.

(** ** [heap.Interface] methods of [priorityQueue]

    Slice positions are natural numbers; a position outside the slice makes
    the Go code panic, which is [None] here. *)

Definition Len (pq : priorityQueue) : nat := length pq.

Definition Less (pq : priorityQueue) (i j : nat) : option bool :=
  a ← pq !! i; b ← pq !! j; Some (Before (nextReap a) (nextReap b)).

Definition Swap (pq : priorityQueue) (i j : nat) : option priorityQueue :=
  a ← pq !! i; b ← pq !! j;
  Some (<[j := set_index a (Z.of_nat j)]> (<[i := set_index b (Z.of_nat i)]> pq)).

Definition Push (pq : priorityQueue) (item : pqItem) : priorityQueue :=
  pq ++ [set_index item (Z.of_nat (length pq))].

Definition Pop (pq : priorityQueue) : option (pqItem * priorityQueue) :=
  match length pq with
  | O => None
  | S n => item ← pq !! n; Some (set_index item (-1)%Z, take n pq)
  end.

Definition Peek (pq : priorityQueue) : option pqItem := pq !! 0.

(** ** [container/heap]

    The loops of [up] and [down] take their bound as fuel: [up] moves to the
    parent, [down] to a child below [n].  In [up], Go's [(j - 1) / 2] is 0
    for [j = 0] (the division truncates towards zero), as is the truncated
    subtraction here.  In [down], the test [j1 < 0] guards against the
    overflow of [int], which positions in a slice cannot reach. *)

Fixpoint up_loop (fuel : nat) (pq : priorityQueue) (j : nat) : option priorityQueue :=
  match fuel with
  | O => None
  | S fuel' =>
      let i := (j - 1) / 2 in
      if decide (i = j) then Some pq
      else
        less ← Less pq j i;
        if negb less then Some pq
        else pq' ← Swap pq i j; up_loop fuel' pq' i
  end.

Definition up (pq : priorityQueue) (j : nat) : option priorityQueue :=
  up_loop (S j) pq j.

Fixpoint down_loop (fuel : nat) (pq : priorityQueue) (i n : nat)
  : option (priorityQueue * nat) :=
  match fuel with
  | O => None
  | S fuel' =>
      let j1 := 2 * i + 1 in
      if decide (n ≤ j1) then Some (pq, i)
      else
        let j2 := j1 + 1 in
        r ← (if decide (j2 < n) then Less pq j2 j1 else Some false);
        let j := if (r : bool) then j2 else j1 in
        less ← Less pq j i;
        if negb less then Some (pq, i)
        else pq' ← Swap pq i j; down_loop fuel' pq' j n
  end.

(** [down] reports whether the element moved. *)
Definition down (pq : priorityQueue) (i0 n : nat) : option (priorityQueue * bool) :=
  r ← down_loop (S n) pq i0 n; Some (r.1, bool_decide (i0 < r.2)).

Definition heap_Push (pq : priorityQueue) (x : pqItem) : option priorityQueue :=
  let pq1 := Push pq x in up pq1 (Len pq1 - 1).

Definition heap_Pop (pq : priorityQueue) : option (pqItem * priorityQueue) :=
  match Len pq with
  | O => None
  | S n =>
      pq1 ← Swap pq 0 n;
      r ← down pq1 0 n;
      Pop r.1
  end.

Definition heap_Fix (pq : priorityQueue) (i : nat) : option priorityQueue :=
  r ← down pq i (Len pq);
  if negb r.2 then up r.1 i else Some r.1.

(** [for i := n/2 - 1; i >= 0; i-- { down(h, i, n) }] *)
Fixpoint heap_Init_loop (k : nat) (pq : priorityQueue) (n : nat) : option priorityQueue :=
  match k with
  | O => Some pq
  | S i => r ← down pq i n; heap_Init_loop i r.1 n
  end.

Definition heap_Init (pq : priorityQueue) : option priorityQueue :=
  heap_Init_loop (Len pq / 2) pq (Len pq).

(** ** [reapQueue.Update] *)

(** The scan [for i, v := range *q.items] for the first item of [c]; [None]
    is the source's [idx == -1]. *)
Fixpoint find_ch (pq : priorityQueue) (c : chanRef) : option nat :=
  match pq with
  | [] => None
  | v :: rest => if decide (ch v = c) then Some 0 else S <$> find_ch rest c
  end.

Definition Update_items (pq : priorityQueue) (c : chanRef) (t : Time)
  : option priorityQueue :=
  match find_ch pq c with
  | None => heap_Push pq (mkItem c t 0)
  | Some idx =>
      it ← pq !! idx;
      heap_Fix (<[idx := set_nextReap it t]> pq) idx
  end.

(** ** [reapQueue]

    [items] is the heap; [controlCh] counts the tokens buffered in the
    channel of that name and [controlCap] is its capacity; [curWork] is the
    set of channels in flight.  [workCh] is unbuffered and has no state of
    its own: a send and a receive on it are one joint transition (see
    [Handoff] below).  [cond] and [timer] only decide when a blocked
    [WaitForNext] looks at the queue again. *)

Record reapQueue := mkQueue {
  items : priorityQueue;
  controlCh : nat;
  controlCap : nat;
  curWork : gset chanRef
}.

Definition with_items (q : reapQueue) (pq : priorityQueue) : reapQueue :=
  mkQueue pq (controlCh q) (controlCap q) (curWork q).
Definition with_controlCh (q : reapQueue) (n : nat) : reapQueue :=
  mkQueue (items q) n (controlCap q) (curWork q).
Definition with_curWork (q : reapQueue) (w : gset chanRef) : reapQueue :=
  mkQueue (items q) (controlCh q) (controlCap q) w.

(** [make(chan workerToken, maxWorkerCount)] panics for a negative size. *)
Definition newReapQueue (maxWorkerCount : Z) : option reapQueue :=
  if decide (maxWorkerCount < 0)%Z then None
  else pq ← heap_Init []; Some (mkQueue pq 0 (Z.to_nat maxWorkerCount) ∅).

(** [Update], under [q.cond.L]. *)
Definition Update (q : reapQueue) (c : chanRef) (t : Time) : option reapQueue :=
  pq ← Update_items (items q) c t; Some (with_items q pq).

(** One pass of [WaitForNext] from the label [start], under [q.cond.L]:
    either the waiter suspends in [q.cond.Wait()] (after resetting the timer
    in the second case) and will [goto start] when woken, or it pops. *)
Inductive waitResult :=
  | WaitInsertion
  | Sleep (d : Duration)
  | Return (x : pqItem).

Definition WaitForNext_pass (q : reapQueue) (now : Time)
  : option (waitResult * reapQueue) :=
  match Peek (items q) with
  | None => Some (WaitInsertion, q)
  | Some it =>
      if After (nextReap it) now then
        let waitTime := Sub (nextReap it) now in
        Some (Sleep (wrap64 (waitTime + 2 * Millisecond)), q)
      else
        r ← heap_Pop (items q); Some (Return r.1, with_items q r.2)
  end.

(** [WaitForNext] as a whole.  While the waiter is suspended other
    goroutines call [Update]; [wakes] lists, for each time the waiter is
    woken, the updates that happened meanwhile and the reading of the clock
    in the pass that follows.  The result is [(Some ch, q')] when the call
    returns [ch], and [(None, q')] when it is still suspended after the
    last wake-up. *)
Fixpoint Update_all (q : reapQueue) (us : list (chanRef * Time)) : option reapQueue :=
  match us with
  | [] => Some q
  | (c, t) :: us' => q' ← Update q c t; Update_all q' us'
  end.

Fixpoint WaitForNext (q : reapQueue) (now : Time)
    (wakes : list (list (chanRef * Time) * Time))
  : option (option chanRef * reapQueue) :=
  r ← WaitForNext_pass q now;
  match r.1 with
  | Return x => Some (Some (ch x), r.2)
  | _ =>
      match wakes with
      | [] => Some (None, r.2)
      | (us, now') :: wakes' => q' ← Update_all r.2 us; WaitForNext q' now' wakes'
      end
  end.

(** ** [Bot]

    [loadFailures] holds the field of that name of every [ManagedChannel],
    by pointer; a channel that was never written has the zero value. *)

Record Bot := mkBot {
  reaper : reapQueue;
  loadRetries : reapQueue;
  loadFailures : gmap chanRef Duration
}.

Definition loadFailuresOf (b : Bot) (c : chanRef) : Duration :=
  default 0%Z (loadFailures b !! c).

Definition with_reaper (b : Bot) (q : reapQueue) : Bot :=
  mkBot q (loadRetries b) (loadFailures b).
Definition with_loadRetries (b : Bot) (q : reapQueue) : Bot :=
  mkBot (reaper b) q (loadFailures b).
Definition with_loadFailures (b : Bot) (c : chanRef) (d : Duration) : Bot :=
  mkBot (reaper b) (loadRetries b) (<[c := d]> (loadFailures b)).

(** [reapTime] is what [c.GetNextDeletionTime()] returned. *)
Definition QueueReap (b : Bot) (c : chanRef) (reapTime : Time) : option Bot :=
  q ← Update (reaper b) c reapTime; Some (with_reaper b q).

Definition CancelReap (b : Bot) (c : chanRef) : option Bot :=
  q ← Update (reaper b) c zeroTime; Some (with_reaper b q).

(** [QueueLoadBacklog] between [c.mu.Lock()] and [c.mu.Unlock()]: the new
    state and the value of [loadDelay]. *)
Definition QueueLoadBacklog_delay (b : Bot) (c : chanRef) (didFail : bool) (seed : Z)
  : option (Bot * Duration) :=
  let loadDelay := loadFailuresOf b c in
  if didFail then
    r ← Intn (5 * Second) seed;
    let d := wrap64 (wrap64 (loadDelay * 2) + r) in
    Some (with_loadFailures b c d, d)
  else Some (b, loadDelay).

(** The call [b.loadRetries.Update(c, time.Now().Add(loadDelay))]. *)
Definition QueueLoadBacklog_update (b : Bot) (c : chanRef) (loadDelay : Duration)
    (now : Time) : option Bot :=
  q ← Update (loadRetries b) c (Add now loadDelay); Some (with_loadRetries b q).

Definition QueueLoadBacklog (b : Bot) (c : chanRef) (didFail : bool)
    (seed : Z) (now : Time) : option Bot :=
  r ← QueueLoadBacklog_delay b c didFail seed;
  QueueLoadBacklog_update r.1 c r.2 now.

(** ** Errors *)

(** [strings.Contains(s, substr)]. *)
Fixpoint Contains (s substr : string) : bool :=
  if String.prefix substr s then true
  else match s with
       | EmptyString => false
       | String _ s' => Contains s' substr
       end.

(** An [error] is [nil] or carries the text of [err.Error()]. *)
Definition error := option string.

Definition isRetryableLoadError (err : error) : bool :=
  match err with
  | None => false
  | Some msg => if Contains msg "rate limit unmarshal error" then true else false
  end.

(** ** The goroutines

    Every goroutine is a program counter; a transition is what the
    goroutine does between two points at which it touches shared state
    (a lock, [workCh], [controlCh]) and so may interleave with the others.
    What the resource and the service answer ([IsDisabled], [LoadBacklog],
    [collectMessagesToDelete], [Reap], [handleCriticalPermissionsErrors],
    [GetNextDeletionTime]), the clock and the random source are inputs of
    the transition. *)

(** The two queues of a [Bot]; a worker gets its [q] from its scheduler. *)
Inductive qref := Reaper | LoadRetries.

Definition queue_of (b : Bot) (qr : qref) : reapQueue :=
  match qr with Reaper => reaper b | LoadRetries => loadRetries b end.

Definition with_queue (b : Bot) (qr : qref) (q : reapQueue) : Bot :=
  match qr with Reaper => with_reaper b q | LoadRetries => with_loadRetries b q end.

(** The two values of [workerFunc]. *)
Inductive workerFunc := loadWorker | reapWorker.

Inductive workerPc :=
  | AtReceive                          (* blocked in [select] / [range q.workCh] *)
  | Working (c : chanRef)              (* received a work item for [c] *)
  | AtQueueReap (c : chanRef) (shouldQueueBacklog : bool)
                                       (* [reapWorker], before [b.QueueReap(ch)] *)
  | AtQueueLoadBacklog (c : chanRef)   (* before [b.QueueLoadBacklog(ch, true)] *)
  | AtLoadRetriesUpdate (c : chanRef) (loadDelay : Duration)
                                       (* in [QueueLoadBacklog], after [c.mu.Unlock()] *)
  | Returned                           (* left the loop; the deferred call is due *)
  | Exited.

Record worker := mkWorker { mayTimeout : bool; pc : workerPc }.

(** [loadWorker], the case [work := <-q.workCh], up to [q.curMu.Unlock()]. *)
Definition loadWorker_work (q : reapQueue) (c : chanRef)
    (isDisabled : bool) (err : error) : reapQueue * workerPc :=
  if isDisabled then (q, AtReceive)
  else
    let q' := with_curWork q (curWork q ∖ {[c]}) in
    if isRetryableLoadError err then (q', AtQueueLoadBacklog c) else (q', AtReceive).

(** [loadWorker], the case [<-timer.C]: [return], and with [mayTimeout] the
    deferred function is still to run.  The timer is made by
    [time.NewTimer(0)] and only a worker with [mayTimeout] resets it. *)
Definition loadWorker_timer (w : worker) : workerPc :=
  if mayTimeout w then Returned else Exited.

(** The deferred function of a [loadWorker] with [mayTimeout]:
    [<-q.controlCh] blocks on an empty channel.  What follows the receive
    is a [Printf]; the worker counts as gone once it gave up its token. *)
Definition loadWorker_deferred (q : reapQueue) : option reapQueue :=
  match controlCh q with
  | O => None
  | S n => Some (with_controlCh q n)
  end.

(** [reapWorker], the body of the loop up to [q.curMu.Unlock()].
    [collect] is the result of [ch.collectMessagesToDelete()] (the number of
    messages, [shouldQueueBacklog], [isDisabled]), [reaped] that of
    [ch.Reap(msgs)], [critical] that of [handleCriticalPermissionsErrors]. *)
Definition reapWorker_work (q : reapQueue) (c : chanRef)
    (collect : nat * bool * bool) (reaped : Z * error) (critical : bool)
  : reapQueue * workerPc :=
  let '(msgs, shouldQueueBacklog, isDisabled) := collect in
  if isDisabled then (q, AtReceive)
  else
    let '(count, err) := reaped in
    if critical then (q, AtReceive)
    else
      let shouldQueueBacklog :=
        match err with Some _ => true | None => shouldQueueBacklog end in
      (with_curWork q (curWork q ∖ {[c]}), AtQueueReap c shouldQueueBacklog).

(** One turn of the loop of [loadWorker] for a received item when nothing
    interleaves with it: [loadWorker_work], then [b.QueueLoadBacklog(ch, true)]
    on a retryable error. *)
Definition loadWorker_iteration (b : Bot) (qr : qref) (c : chanRef)
    (isDisabled : bool) (err : error) (seed : Z) (now : Time) : option Bot :=
  let r := loadWorker_work (queue_of b qr) c isDisabled err in
  let b1 := with_queue b qr r.1 in
  match r.2 with
  | AtQueueLoadBacklog c => QueueLoadBacklog b1 c true seed now
  | _ => Some b1
  end.

(** One turn of the loop of [reapWorker] when nothing interleaves with it:
    [reapWorker_work], then [b.QueueReap(ch)] and, with [shouldQueueBacklog],
    [b.QueueLoadBacklog(ch, true)]. *)
Definition reapWorker_iteration (b : Bot) (qr : qref) (c : chanRef)
    (collect : nat * bool * bool) (reaped : Z * error) (critical : bool)
    (reapTime : Time) (seed : Z) (now : Time) : option Bot :=
  let r := reapWorker_work (queue_of b qr) c collect reaped critical in
  let b1 := with_queue b qr r.1 in
  match r.2 with
  | AtQueueReap c shouldQueueBacklog =>
      b2 ← QueueReap b1 c reapTime;
      if shouldQueueBacklog then QueueLoadBacklog b2 c true seed now else Some b2
  | _ => Some b1
  end.

(** [reapScheduler] and [sendWorkItem]. *)
Inductive schedPc :=
  | SchedStart                    (* before [q.controlCh <- workerToken{}] *)
  | SchedGoFloor                  (* before [go workerFunc(q, false)] *)
  | SchedWait                     (* in [q.WaitForNext()] *)
  | SchedPopped (c : chanRef)     (* [WaitForNext] returned, before [q.curMu.Lock()] *)
  | SchedSend (c : chanRef)       (* in [sendWorkItem], at one of its [select]s *)
  | SchedGoTransient (c : chanRef) (* before [go workerFunc(q, true)] *).

(** The critical section of [reapScheduler] under [q.curMu] and the branch
    that follows it. *)
Definition reapScheduler_check (q : reapQueue) (c : chanRef) : reapQueue * schedPc :=
  let channelAlreadyBeingProcessed := bool_decide (c ∈ curWork q) in
  let q' := if negb channelAlreadyBeingProcessed
            then with_curWork q ({[c]} ∪ curWork q) else q in
  if channelAlreadyBeingProcessed then (q', SchedWait) else (q', SchedSend c).

(** [q.controlCh <- workerToken{}] goes through when the buffer has room. *)
Definition send_token (q : reapQueue) : option reapQueue :=
  if decide (controlCh q < controlCap q) then Some (with_controlCh q (S (controlCh q)))
  else None.

(** One running [reapScheduler] with the workers it started. *)
Record instance := mkInstance {
  wfunc : workerFunc;
  sched : schedPc;
  workers : list worker
}.

Record system := mkSystem {
  bot : Bot;
  reapInst : instance;
  loadInst : instance
}.

Definition inst_of (s : system) (qr : qref) : instance :=
  match qr with Reaper => reapInst s | LoadRetries => loadInst s end.

Definition with_inst (s : system) (qr : qref) (i : instance) : system :=
  match qr with
  | Reaper => mkSystem (bot s) i (loadInst s)
  | LoadRetries => mkSystem (bot s) (reapInst s) i
  end.

Definition with_bot (s : system) (b : Bot) : system :=
  mkSystem b (reapInst s) (loadInst s).

Definition with_sched (i : instance) (p : schedPc) : instance :=
  mkInstance (wfunc i) p (workers i).

Definition with_worker (i : instance) (w : nat) (p : workerPc) : instance :=
  mkInstance (wfunc i) (sched i)
    (alter (λ x, mkWorker (mayTimeout x) p) w (workers i)).

Definition spawn (i : instance) (mayTimeout : bool) : instance :=
  mkInstance (wfunc i) (sched i) (workers i ++ [mkWorker mayTimeout AtReceive]).

(** What a transition shows to an observer of the queue [qr]. *)
Inductive action :=
  | Dispatch (qr : qref) (c : chanRef)   (* [sendWorkItem] is called for [c] *)
  | Discard (qr : qref) (c : chanRef)    (* [continue]: [c] was in [curWork] *)
  | Deliver (qr : qref) (c : chanRef) (w : nat)  (* worker [w] received the item *)
  | Remove (qr : qref) (c : chanRef)     (* a worker ran [delete(q.curWork, ch)] *)
  | Skip (qr : qref) (c : chanRef)       (* a worker hit [continue] for [c] *)
  | Start (qr : qref) (mayTimeout : bool) (* [go workerFunc(q, mayTimeout)] *)
  | Exit (qr : qref) (w : nat).           (* worker [w] ended *)

(** What the goroutines of one queue can do: its [reapScheduler] and the
    workers it started (worker [w] is the [w]-th one started). *)
Inductive qevent :=
  (* [reapScheduler] and [sendWorkItem] *)
  | SendFloorToken
  | Go
  | Pass (now : Time)
  | CheckCurWork
  | SendTransientToken
  (* the rendezvous on [workCh] between the scheduler and worker [w] *)
  | Handoff (w : nat)
  (* worker [w] *)
  | LoadDone (w : nat) (isDisabled : bool) (err : error)
  | ReapDone (w : nat) (collect : nat * bool * bool) (reaped : Z * error)
             (critical : bool)
  | DoQueueReap (w : nat) (reapTime : Time)
  | DoBackoff (w : nat) (seed : Z)
  | DoLoadRetriesUpdate (w : nat) (now : Time)
  | TimerFires (w : nat)
  | Deferred (w : nat).

Inductive event :=
  | OfQueue (qr : qref) (e : qevent)
  (* the rest of the service: calls of [QueueReap], of [CancelReap], and
     the two critical sections of a call of [QueueLoadBacklog] *)
  | ExtQueueReap (c : chanRef) (reapTime : Time)
  | ExtCancelReap (c : chanRef)
  | ExtLoadDelay (c : chanRef) (didFail : bool) (seed : Z)
  | ExtLoadRetriesUpdate (c : chanRef) (loadDelay : Duration) (now : Time).

Definition worker_pc (i : instance) (w : nat) : option workerPc :=
  pc <$> workers i !! w.

(** One transition of the goroutines of the queue [qr], whose scheduler and
    workers are [i].  The result is [None] when the event cannot happen (the
    goroutine is elsewhere, or blocked) or when the code panics.

    The timer of [sendWorkItem] only delays [SendTransientToken], and the
    timer of [loadWorker] only delays [TimerFires]: how long is not part of
    the state, so every order of events the code allows is allowed here.
    More is allowed here than the code allows: this scheduler goes on after
    the case [<-timer.C] of [sendWorkItem], where the code comes back to
    [<-timer.C] with the timer drained.  What holds of every run here holds
    of every run of the code; [tstep] below keeps the state of that timer
    and allows only what the code allows. *)
Definition gstep (b : Bot) (qr : qref) (i : instance) (e : qevent)
  : option (Bot * instance * list action) :=
  let q := queue_of b qr in
  match e with
  | SendFloorToken =>
      match sched i with
      | SchedStart =>
          q' ← send_token q;
          Some (with_queue b qr q', with_sched i SchedGoFloor, [])
      | _ => None
      end
  | Go =>
      match sched i with
      | SchedGoFloor =>
          Some (b, with_sched (spawn i false) SchedWait, [Start qr false])
      | SchedGoTransient c =>
          Some (b, with_sched (spawn i true) (SchedSend c), [Start qr true])
      | _ => None
      end
  | Pass now =>
      match sched i with
      | SchedWait =>
          r ← WaitForNext_pass q now;
          Some (with_queue b qr r.2,
                match r.1 with
                | Return x => with_sched i (SchedPopped (ch x))
                | _ => i
                end, [])
      | _ => None
      end
  | CheckCurWork =>
      match sched i with
      | SchedPopped c =>
          let r := reapScheduler_check q c in
          Some (with_queue b qr r.1, with_sched i r.2,
                [match r.2 with SchedSend _ => Dispatch qr c | _ => Discard qr c end])
      | _ => None
      end
  | SendTransientToken =>
      match sched i with
      | SchedSend c =>
          q' ← send_token q;
          Some (with_queue b qr q', with_sched i (SchedGoTransient c), [])
      | _ => None
      end
  | Handoff w =>
      match sched i, worker_pc i w with
      | SchedSend c, Some AtReceive =>
          Some (b, with_sched (with_worker i w (Working c)) SchedWait,
                [Deliver qr c w])
      | _, _ => None
      end
  | LoadDone w isDisabled err =>
      match wfunc i, worker_pc i w with
      | loadWorker, Some (Working c) =>
          let r := loadWorker_work q c isDisabled err in
          Some (with_queue b qr r.1, with_worker i w r.2,
                [if isDisabled then Skip qr c else Remove qr c])
      | _, _ => None
      end
  | ReapDone w collect reaped critical =>
      match wfunc i, worker_pc i w with
      | reapWorker, Some (Working c) =>
          let r := reapWorker_work q c collect reaped critical in
          Some (with_queue b qr r.1, with_worker i w r.2,
                [match r.2 with AtQueueReap _ _ => Remove qr c | _ => Skip qr c end])
      | _, _ => None
      end
  | DoQueueReap w reapTime =>
      match worker_pc i w with
      | Some (AtQueueReap c shouldQueueBacklog) =>
          b' ← QueueReap b c reapTime;
          Some (b', with_worker i w
                      (if shouldQueueBacklog then AtQueueLoadBacklog c else AtReceive),
                [])
      | _ => None
      end
  | DoBackoff w seed =>
      match worker_pc i w with
      | Some (AtQueueLoadBacklog c) =>
          r ← QueueLoadBacklog_delay b c true seed;
          Some (r.1, with_worker i w (AtLoadRetriesUpdate c r.2), [])
      | _ => None
      end
  | DoLoadRetriesUpdate w now =>
      match worker_pc i w with
      | Some (AtLoadRetriesUpdate c loadDelay) =>
          b' ← QueueLoadBacklog_update b c loadDelay now;
          Some (b', with_worker i w AtReceive, [])
      | _ => None
      end
  | TimerFires w =>
      match wfunc i, workers i !! w with
      | loadWorker, Some wk =>
          match pc wk with
          | AtReceive =>
              let p := loadWorker_timer wk in
              Some (b, with_worker i w p,
                    match p with Exited => [Exit qr w] | _ => [] end)
          | _ => None
          end
      | _, _ => None
      end
  | Deferred w =>
      match worker_pc i w with
      | Some Returned =>
          q' ← loadWorker_deferred q;
          Some (with_queue b qr q', with_worker i w Exited, [Exit qr w])
      | _ => None
      end
  end.

Definition step (s : system) (e : event) : option (system * list action) :=
  match e with
  | OfQueue qr e =>
      r ← gstep (bot s) qr (inst_of s qr) e;
      Some (with_inst (with_bot s r.1.1) qr r.1.2, r.2)
  | ExtQueueReap c reapTime =>
      b ← QueueReap (bot s) c reapTime; Some (with_bot s b, [])
  | ExtCancelReap c =>
      b ← CancelReap (bot s) c; Some (with_bot s b, [])
  | ExtLoadDelay c didFail seed =>
      r ← QueueLoadBacklog_delay (bot s) c didFail seed; Some (with_bot s r.1, [])
  | ExtLoadRetriesUpdate c loadDelay now =>
      b ← QueueLoadBacklog_update (bot s) c loadDelay now; Some (with_bot s b, [])
  end.

(** A run: the events in the order they happen, with the actions seen. *)
Fixpoint run (s : system) (es : list event) : option (system * list action) :=
  match es with
  | [] => Some (s, [])
  | e :: es' =>
      r ← step s e;
      r' ← run r.1 es';
      Some (r'.1, r.2 ++ r'.2)
  end.

(** The service after [newReapQueue] built both queues and before either
    [reapScheduler] goroutine has run. *)
Definition initial (maxReap maxLoad : Z) (fr fl : workerFunc) : option system :=
  qr ← newReapQueue maxReap;
  ql ← newReapQueue maxLoad;
  Some (mkSystem (mkBot qr ql ∅)
          (mkInstance fr SchedStart []) (mkInstance fl SchedStart [])).

(** ** [sendWorkItem] with its timer

    [step] does not say where [sendWorkItem] is between its two [select]s,
    nor what state the timer is in that [reapScheduler] makes and hands to
    every call of [sendWorkItem].  Here both are part of the state. *)

(** A [time.Timer], as far as [Stop] and a receive from [C] can tell. *)
Inductive timerState :=
  | TimerRunning     (* set and not expired: [Stop] returns true *)
  | TimerExpired     (* expired, its value not received yet *)
  | TimerDrained.    (* expired and its value received: [Stop] returns
                        false and nothing is sent on [C] until [Reset] *)

(** Where [sendWorkItem] is while the scheduler is at [SchedSend]. *)
Inductive sendPc :=
  | AtStop           (* at the head of the loop, before [timer.Stop()] *)
  | AtSelect         (* at the first [select] *)
  | AtInnerSelect.   (* at the second [select], or past its first case *)

Record sendState := mkSend { send_pc : sendPc; send_timer : timerState }.

(** [if !timer.Stop() { <-timer.C }; timer.Reset(schedulerTimeout)].  A
    running timer is stopped.  An expired timer whose value is still to be
    received either makes [Stop] return false, and the receive takes the
    value, or (from Go 1.23 on) makes [Stop] return true.  When the value
    has been received [Stop] returns false and the receive blocks: nothing
    sets the timer again. *)
Definition stop_reset (t : timerState) : option timerState :=
  match t with
  | TimerDrained => None
  | _ => Some TimerRunning
  end.

(** What an event of the scheduler needs of [sendWorkItem], and where it
    leaves it: [case q.workCh <- work] is a case of both [select]s and
    returns; [case q.controlCh <- workerToken{}] is a case of the second;
    after [go workerFunc(q, true)] comes [continue]. *)
Definition send_after (st : sendState) (e : qevent) : option sendState :=
  match e with
  | Handoff _ =>
      match send_pc st with
      | AtStop => None
      | _ => Some (mkSend AtStop (send_timer st))
      end
  | SendTransientToken =>
      match send_pc st with
      | AtInnerSelect => Some st
      | _ => None
      end
  | Go => Some (mkSend AtStop (send_timer st))
  | _ => Some st
  end.

(** The service with the timers of its two schedulers. *)
Record timed := mkTimed {
  sys : system;
  reapSend : sendState;
  loadSend : sendState
}.

Definition send_of (ts : timed) (qr : qref) : sendState :=
  match qr with Reaper => reapSend ts | LoadRetries => loadSend ts end.

Definition with_send (ts : timed) (qr : qref) (st : sendState) : timed :=
  match qr with
  | Reaper => mkTimed (sys ts) st (loadSend ts)
  | LoadRetries => mkTimed (sys ts) (reapSend ts) st
  end.

Definition with_sys (ts : timed) (s : system) : timed :=
  mkTimed s (reapSend ts) (loadSend ts).

Inductive tevent :=
  | Plain (e : event)        (* an event of [step] *)
  | StopReset (qr : qref)    (* the head of the loop of [sendWorkItem] *)
  | Expires (qr : qref)      (* the runtime: the time set has passed *)
  | RecvTimer (qr : qref).   (* [case <-timer.C] of the first [select] *)

Definition tstep (ts : timed) (e : tevent) : option (timed * list action) :=
  match e with
  | Plain (OfQueue qr e') =>
      st ← send_after (send_of ts qr) e';
      r ← step (sys ts) (OfQueue qr e');
      Some (with_send (with_sys ts r.1) qr st, r.2)
  | Plain e' =>
      r ← step (sys ts) e'; Some (with_sys ts r.1, r.2)
  | StopReset qr =>
      match sched (inst_of (sys ts) qr), send_pc (send_of ts qr) with
      | SchedSend _, AtStop =>
          t ← stop_reset (send_timer (send_of ts qr));
          Some (with_send ts qr (mkSend AtSelect t), [])
      | _, _ => None
      end
  | Expires qr =>
      match send_timer (send_of ts qr) with
      | TimerRunning =>
          Some (with_send ts qr (mkSend (send_pc (send_of ts qr)) TimerExpired), [])
      | _ => None
      end
  | RecvTimer qr =>
      match sched (inst_of (sys ts) qr), send_of ts qr with
      | SchedSend _, mkSend AtSelect TimerExpired =>
          Some (with_send ts qr (mkSend AtInnerSelect TimerDrained), [])
      | _, _ => None
      end
  end.

Fixpoint trun (ts : timed) (es : list tevent) : option (timed * list action) :=
  match es with
  | [] => Some (ts, [])
  | e :: es' =>
      r ← tstep ts e;
      r' ← trun r.1 es';
      Some (r'.1, r.2 ++ r'.2)
  end.

(** [timer := time.NewTimer(0)]: the timer of a scheduler is set from the
    start and expires at once. *)
Definition tinitial (maxReap maxLoad : Z) (fr fl : workerFunc) : option timed :=
  s ← initial maxReap maxLoad fr fl;
  Some (mkTimed s (mkSend AtStop TimerRunning) (mkSend AtStop TimerRunning)).

(** * Vocabulary of the specification *)

(** What an entry is for the specification: the channel and its due time.
    The [index] field is bookkeeping of the heap. *)
Definition key (it : pqItem) : chanRef * Time := (ch it, nextReap it).
Definition keys (pq : priorityQueue) : list (chanRef * Time) := key <$> pq.

(** The due time stored at a position (0 outside the slice, never used there). *)
Definition dueAt (pq : priorityQueue) (k : nat) : Time :=
  from_option nextReap 0%Z (pq !! k).

Definition parent (k : nat) : nat := (k - 1) / 2.

(** The heap order on the first [n] positions: no entry is due before its parent. *)
Definition heap_upto (pq : priorityQueue) (n : nat) : Prop :=
  ∀ k, 0 < k < n → (dueAt pq (parent k) ≤ dueAt pq k)%Z.

Definition heapOrdered (pq : priorityQueue) : Prop := heap_upto pq (length pq).

(** The state of [down] at position [i] on its way from [i0]: the order
    holds on every edge that does not leave [i], the parent of [i] is not
    due after the children of [i], and once the element has moved the
    edge into [i0] is in order. *)
Record down_inv (pq : priorityQueue) (i0 i n : nat) : Prop := {
  di_rest : ∀ k, 0 < k < n → parent k ≠ i → k ≠ i0 →
            (dueAt pq (parent k) ≤ dueAt pq k)%Z;
  di_grand : ∀ k, 0 < k < n → parent k = i → 0 < i →
             (dueAt pq (parent i) ≤ dueAt pq k)%Z;
  di_start : i0 < i → 0 < i0 → (dueAt pq (parent i0) ≤ dueAt pq i0)%Z
}.

(** The state of [up] at position [j]: the order holds on every edge that
    does not enter [j], and the parent of [j] is not due after the
    children of [j]. *)
Record up_inv (pq : priorityQueue) (j : nat) : Prop := {
  ui_rest : ∀ k, 0 < k < length pq → k ≠ j →
            (dueAt pq (parent k) ≤ dueAt pq k)%Z;
  ui_grand : ∀ k, 0 < k < length pq → parent k = j → 0 < j →
             (dueAt pq (parent j) ≤ dueAt pq k)%Z
}.

(** The entries of the channel [c] in the heap. *)
Definition entries (pq : priorityQueue) (c : chanRef) : list (chanRef * Time) :=
  filter (λ e, e.1 = c) (keys pq).

(** No channel has two entries. *)
Definition uniq (pq : priorityQueue) : Prop := ∀ c, length (entries pq c) ≤ 1.

(** What every queue the code builds satisfies. *)
Definition queue_ok (q : reapQueue) : Prop :=
  heapOrdered (items q) ∧ uniq (items q).

(** Both queues of the service are well formed. *)
Definition bot_ok (b : Bot) : Prop :=
  queue_ok (reaper b) ∧ queue_ok (loadRetries b).

(** The two methods that touch [items]. *)
Inductive qop :=
  | OpUpdate (c : chanRef) (t : Time)
  | OpPass (now : Time).

Definition qstep (q : reapQueue) (o : qop) : option reapQueue :=
  match o with
  | OpUpdate c t => Update q c t
  | OpPass now => r ← WaitForNext_pass q now; Some r.2
  end.

Fixpoint qrun (q : reapQueue) (os : list qop) : option reapQueue :=
  match os with
  | [] => Some q
  | o :: os' => q' ← qstep q o; qrun q' os'
  end.

(** A queue used in the examples: three channels were scheduled, channel 1
    twice, and nothing was due yet at time 20. *)
Definition sample_ops : list qop :=
  [OpUpdate 1 50%Z; OpUpdate 2 30%Z; OpUpdate 3 40%Z; OpUpdate 1 35%Z; OpPass 20%Z].

Definition sample_queue : reapQueue :=
  mkQueue [mkItem 2 30 0; mkItem 1 35 1; mkItem 3 40 2] 0 2 ∅.

(** A service in which channel 1 has accumulated three seconds of delay. *)
Definition sample_bot : Bot :=
  mkBot (mkQueue [] 0 2 ∅) sample_queue {[1 := (3 * Second)%Z]}.

(** A channel whose accumulated delay is [2^62] nanoseconds. *)
Definition overflow_bot : Bot :=
  mkBot (mkQueue [] 0 2 ∅) (mkQueue [] 0 2 ∅) {[1 := (2 ^ 62)%Z]}.

(** [n] failures in a row of the channel [c], each drawing [seed]. *)
Fixpoint fail_times (n : nat) (b : Bot) (c : chanRef) (seed : Z) : option Bot :=
  match n with
  | O => Some b
  | S n' => r ← QueueLoadBacklog_delay b c true seed; fail_times n' r.1 c seed
  end.

(** The part of a queue the worker pool is counted in. *)
Definition counters (q : reapQueue) : nat * nat * gset chanRef :=
  (controlCh q, controlCap q, curWork q).

Definition alive (p : workerPc) : nat :=
  match p with Exited => 0 | _ => 1 end.

(** The workers of an instance that have not exited. *)
Definition live (i : instance) : nat :=
  sum_list_with (λ w, alive (pc w)) (workers i).

(** 1 while the scheduler has sent a token and not yet started the worker. *)
Definition starting_pc (p : schedPc) : nat :=
  match p with
  | SchedGoFloor | SchedGoTransient _ => 1
  | _ => 0
  end.

Definition starting (i : instance) : nat := starting_pc (sched i).

(** The effect of one transition on the pool of a queue: on the tokens in
    [controlCh], its capacity, the live workers, and [starting]. *)
Inductive pool_change (ch cap lv st ch' cap' lv' st' : nat) : Prop :=
  | pool_same :
      ch' = ch → cap' = cap → lv' = lv → st' = st →
      pool_change ch cap lv st ch' cap' lv' st'
  | pool_token :
      ch < cap → ch' = S ch → cap' = cap → lv' = lv → st = 0 → st' = 1 →
      pool_change ch cap lv st ch' cap' lv' st'
  | pool_start :
      ch' = ch → cap' = cap → lv' = S lv → st = 1 → st' = 0 →
      pool_change ch cap lv st ch' cap' lv' st'
  | pool_return :
      ch' = ch → cap' = cap → S lv' = lv → st' = st →
      pool_change ch cap lv st ch' cap' lv' st'
  | pool_release :
      S ch' = ch → cap' = cap → S lv' = lv → st' = st →
      pool_change ch cap lv st ch' cap' lv' st'.

Global Instance qref_eq_dec : EqDecision qref.
Proof. solve_decision. Defined.

(** The pool of [qr] is within its bound: every live worker, and the one
    about to be started, has its token in [controlCh]. *)
Definition pool_inv (s : system) (qr : qref) : Prop :=
  live (inst_of s qr) + starting (inst_of s qr) ≤ controlCh (queue_of (bot s) qr)
  ∧ controlCh (queue_of (bot s) qr) ≤ controlCap (queue_of (bot s) qr).

(** The configured bound of a queue. *)
Definition maxWorkerCount_of (mr ml : Z) (qr : qref) : Z :=
  match qr with Reaper => mr | LoadRetries => ml end.

(** The channels in flight in the queue [qr]. *)
Definition in_flight (s : system) (qr : qref) : gset chanRef :=
  curWork (queue_of (bot s) qr).

(** 1 when a worker at [p] holds the work item of [c]. *)
Definition holding (c : chanRef) (p : workerPc) : nat :=
  match p with
  | Working c' => if decide (c' = c) then 1 else 0
  | _ => 0
  end.

(** 1 when the scheduler at [p] holds the work item of [c]. *)
Definition offering (c : chanRef) (p : schedPc) : nat :=
  match p with
  | SchedSend c' | SchedGoTransient c' => if decide (c' = c) then 1 else 0
  | _ => 0
  end.

(** The goroutines of an instance that hold the work item of [c]. *)
Definition holders (i : instance) (c : chanRef) : nat :=
  sum_list_with (λ w, holding c (pc w)) (workers i) + offering c (sched i).

(** At most one goroutine holds the work item of a channel, and then the
    channel is in [curWork]. *)
Definition exclusive (b : Bot) (qr : qref) (i : instance) : Prop :=
  ∀ c, holders i c ≤ 1 ∧ (0 < holders i c → c ∈ curWork (queue_of b qr)).

(** A service with room for two workers per queue, before either scheduler
    has run. *)
Definition sample_system : system :=
  mkSystem (mkBot (mkQueue [] 0 2 ∅) (mkQueue [] 0 2 ∅) ∅)
    (mkInstance reapWorker SchedStart []) (mkInstance loadWorker SchedStart []).

(** Channel 7 is reaped, scheduled again by the worker, and dispatched a
    second time. *)
Definition reap_twice : list event :=
  [OfQueue Reaper SendFloorToken; OfQueue Reaper Go;
   ExtQueueReap 7 10;
   OfQueue Reaper (Pass 20); OfQueue Reaper CheckCurWork; OfQueue Reaper (Handoff 0);
   OfQueue Reaper (ReapDone 0 (3, false, false) (3%Z, None) false);
   OfQueue Reaper (DoQueueReap 0 30);
   OfQueue Reaper (Pass 40); OfQueue Reaper CheckCurWork].

(** No worker takes channel 7 within the hand-off timeout and the scheduler
    starts a second worker. *)
Definition grow_pool : list event :=
  [OfQueue Reaper SendFloorToken; OfQueue Reaper Go;
   ExtQueueReap 7 10;
   OfQueue Reaper (Pass 20); OfQueue Reaper CheckCurWork;
   OfQueue Reaper SendTransientToken; OfQueue Reaper Go].

(** No worker of the instance has left its loop. *)
Definition all_in_loop (i : instance) : Prop :=
  Forall (λ w, pc w ≠ Returned ∧ pc w ≠ Exited) (workers i).

(** Channel 7 comes up in the retry queue while it is disabled; the worker
    drops it; the channel is scheduled again and comes up a second time. *)
Definition load_disabled : list event :=
  [OfQueue LoadRetries SendFloorToken; OfQueue LoadRetries Go;
   ExtLoadDelay 7 false 0; ExtLoadRetriesUpdate 7 0 10;
   OfQueue LoadRetries (Pass 20); OfQueue LoadRetries CheckCurWork;
   OfQueue LoadRetries (Handoff 0);
   OfQueue LoadRetries (LoadDone 0 true None);
   ExtLoadDelay 7 false 0; ExtLoadRetriesUpdate 7 0 30;
   OfQueue LoadRetries (Pass 40); OfQueue LoadRetries CheckCurWork].

(** Every item records its own position in the slice. *)
Definition indexed (pq : priorityQueue) : Prop :=
  ∀ k it, pq !! k = Some it → index it = Z.of_nat k.

(** Failures in a row of the channel [c], drawing the given seeds. *)
Fixpoint fail_with (seeds : list Z) (b : Bot) (c : chanRef) : option Bot :=
  match seeds with
  | [] => Some b
  | seed :: rest => r ← QueueLoadBacklog_delay b c true seed; fail_with rest r.1 c
  end.

(** The delay that failures in a row build up from [d] when no step leaves
    [int64]: each doubles the delay and adds its jitter. *)
Definition backoff_after (d : Duration) (seeds : list Z) : Duration :=
  foldl (λ d seed, 2 * d + seed mod (5 * Second))%Z d seeds.

(** 1 for the action of the queue [qr] that dispatches [c]. *)
Definition dispatched (qr : qref) (c : chanRef) (a : action) : nat :=
  match a with
  | Dispatch qr' c' => if decide (qr' = qr ∧ c' = c) then 1 else 0
  | _ => 0
  end.

(** 1 for an action of the queue [qr] in which a worker receives [c]. *)
Definition delivered (qr : qref) (c : chanRef) (a : action) : nat :=
  match a with
  | Deliver qr' c' _ => if decide (qr' = qr ∧ c' = c) then 1 else 0
  | _ => 0
  end.

(** 1 for an action of the queue [qr] in which a worker is done with [c]:
    it ran [delete(q.curWork, ch)] or hit [continue]. *)
Definition finished (qr : qref) (c : chanRef) (a : action) : nat :=
  match a with
  | Remove qr' c' | Skip qr' c' => if decide (qr' = qr ∧ c' = c) then 1 else 0
  | _ => 0
  end.

(** 1 for the action of the queue [qr] in which a worker ran
    [delete(q.curWork, ch)] for [c]. *)
Definition removed (qr : qref) (c : chanRef) (a : action) : nat :=
  match a with
  | Remove qr' c' => if decide (qr' = qr ∧ c' = c) then 1 else 0
  | _ => 0
  end.

(** 1 when [c] is in [curWork]. *)
Definition marked (q : reapQueue) (c : chanRef) : nat :=
  if decide (c ∈ curWork q) then 1 else 0.

(** 1 for a worker that ended without taking its token out of [controlCh]. *)
Definition kept (w : worker) : nat :=
  match pc w with
  | Exited => if mayTimeout w then 0 else 1
  | _ => 0
  end.

(** The tokens of [controlCh] are those of the live workers, of the worker
    about to be started, and of the workers that ended and kept theirs; a
    worker that left its loop with the deferred call due has [mayTimeout]. *)
Definition tokens_inv (b : Bot) (qr : qref) (i : instance) : Prop :=
  controlCh (queue_of b qr) = live i + starting i + sum_list_with kept (workers i)
  ∧ Forall (λ w, pc w = Returned → mayTimeout w = true) (workers i).

(** The first worker of a scheduler is the one started without
    [mayTimeout], and the only one. *)
Definition floor_first (i : instance) : Prop :=
  match sched i with
  | SchedStart | SchedGoFloor => workers i = []
  | _ => ∃ w0 rest, workers i = w0 :: rest ∧ mayTimeout w0 = false
           ∧ Forall (λ w, mayTimeout w = true) rest
  end.

(** The floor [loadWorker] of the retry queue takes the case [<-timer.C] of
    its [select]. *)
Definition floor_exit : list event :=
  [OfQueue LoadRetries SendFloorToken; OfQueue LoadRetries Go;
   OfQueue LoadRetries (TimerFires 0)].

(** The retry queue grows to two workers while channel 7 waits for a
    receiver. *)
Definition grow_load_pool : list event :=
  [OfQueue LoadRetries SendFloorToken; OfQueue LoadRetries Go;
   ExtLoadRetriesUpdate 7 0 10;
   OfQueue LoadRetries (Pass 20); OfQueue LoadRetries CheckCurWork;
   OfQueue LoadRetries SendTransientToken; OfQueue LoadRetries Go].

(** Channel 7 comes up in the retry queue and is handed to worker 0. *)
Definition load_skip : list event :=
  [OfQueue LoadRetries SendFloorToken; OfQueue LoadRetries Go;
   ExtLoadRetriesUpdate 7 0 10;
   OfQueue LoadRetries (Pass 20); OfQueue LoadRetries CheckCurWork;
   OfQueue LoadRetries (Handoff 0)].

(** Channel 7 is scheduled in the retry queue again and comes up. *)
Definition load_again : list event :=
  [ExtLoadRetriesUpdate 7 0 30; OfQueue LoadRetries (Pass 40);
   OfQueue LoadRetries CheckCurWork].

(** [n] passes of [WaitForNext] in a row at one reading of the clock, for as
    long as they pop: the items popped, in order, and the queue left. *)
Fixpoint drain (n : nat) (q : reapQueue) (now : Time)
  : option (list pqItem * reapQueue) :=
  match n with
  | O => Some ([], q)
  | S n' =>
      r ← WaitForNext_pass q now;
      match r.1 with
      | Return x => r' ← drain n' r.2 now; Some (x :: r'.1, r'.2)
      | _ => Some ([], r.2)
      end
  end.

(** 1 for an action in which the scheduler of [qr] gets somewhere with a
    work item: a worker receives it, or a worker is started. *)
Definition handed (qr : qref) (a : action) : nat :=
  match a with
  | Deliver qr' _ _ | Start qr' _ => if decide (qr' = qr) then 1 else 0
  | _ => 0
  end.

(** [sendWorkItem] is at its second [select], the value of the timer
    received. *)
Definition send_inner (ts : timed) (qr : qref) (c : chanRef) : Prop :=
  send_timer (send_of ts qr) = TimerDrained
  ∧ send_pc (send_of ts qr) = AtInnerSelect
  ∧ (sched (inst_of (sys ts) qr) = SchedSend c
     ∨ sched (inst_of (sys ts) qr) = SchedGoTransient c).

(** The value of the timer was received and [sendWorkItem] has left its
    second [select]: it returned, or it is back at the head of its loop. *)
Definition send_blocked (ts : timed) (qr : qref) : Prop :=
  send_timer (send_of ts qr) = TimerDrained
  ∧ send_pc (send_of ts qr) = AtStop
  ∧ match sched (inst_of (sys ts) qr) with
    | SchedWait | SchedPopped _ | SchedSend _ => True
    | _ => False
    end.

(** Worker 0 of the reap queue receives channel 7; channel 8 comes up
    while it is busy, and the timer of [sendWorkItem] expires. *)
Definition timeout_grow : list tevent :=
  [Plain (OfQueue Reaper SendFloorToken); Plain (OfQueue Reaper Go);
   Plain (ExtQueueReap 7 10); Plain (ExtQueueReap 8 15);
   Plain (OfQueue Reaper (Pass 20)); Plain (OfQueue Reaper CheckCurWork);
   StopReset Reaper; Plain (OfQueue Reaper (Handoff 0));
   Plain (OfQueue Reaper (Pass 21)); Plain (OfQueue Reaper CheckCurWork);
   StopReset Reaper; Expires Reaper].

(** A worker is started for the channel at hand, and worker 0 finishes its
    item. *)
Definition timeout_after : list tevent :=
  [Plain (OfQueue Reaper SendTransientToken); Plain (OfQueue Reaper Go);
   Plain (OfQueue Reaper (ReapDone 0 (0, false, false) (0%Z, None) false));
   Plain (OfQueue Reaper (DoQueueReap 0 100))].

(** * Properties of the heap *)

Section heap_facts.
Implicit Types (pq : priorityQueue) (it : pqItem).

Lemma key_set_index it z : key (set_index it z) = key it.
Proof. done. Qed.

Lemma dueAt_lookup pq k it : pq !! k = Some it → dueAt pq k = nextReap it.
Proof. unfold dueAt. by intros ->. Qed.

Lemma Less_Some pq i j :
  i < length pq → j < length pq →
  Less pq i j = Some (dueAt pq i <? dueAt pq j)%Z.
Proof.
  intros Hi Hj. unfold Less, dueAt.
  destruct (lookup_lt_is_Some_2 pq i Hi) as [a ->].
  by destruct (lookup_lt_is_Some_2 pq j Hj) as [b ->].
Qed.

(** [Swap] exchanges two entries and touches nothing else. *)
Lemma Swap_Some pq i j :
  i < length pq → j < length pq →
  ∃ pq', Swap pq i j = Some pq'
    ∧ length pq' = length pq
    ∧ keys pq' ≡ₚ keys pq
    ∧ (∀ k, dueAt pq' k =
            if decide (k = j) then dueAt pq i
            else if decide (k = i) then dueAt pq j else dueAt pq k)
    ∧ (∀ k, k ≠ i → k ≠ j → pq' !! k = pq !! k)
    ∧ (∀ a, pq !! i = Some a → pq' !! j = Some (set_index a (Z.of_nat j))).
Proof.
  intros Hi Hj. unfold Swap.
  destruct (lookup_lt_is_Some_2 pq i Hi) as [a Ha].
  destruct (lookup_lt_is_Some_2 pq j Hj) as [b Hb].
  rewrite Ha, Hb. simpl. eexists. split; [done|].
  split; [by rewrite !length_insert|].
  split.
  { unfold keys. rewrite !list_fmap_insert, !key_set_index.
    apply Permutation_insert_swap; by rewrite list_lookup_fmap, ?Ha, ?Hb. }
  split; [|split].
  - intros k. unfold dueAt at 1.
    destruct (decide (k = j)) as [->|Hkj].
    + rewrite list_lookup_insert_eq by (by rewrite length_insert).
      simpl. by rewrite (dueAt_lookup _ _ _ Ha).
    + rewrite list_lookup_insert_ne by done.
      destruct (decide (k = i)) as [->|Hki].
      * rewrite list_lookup_insert_eq by done.
        simpl. by rewrite (dueAt_lookup _ _ _ Hb).
      * by rewrite list_lookup_insert_ne by done.
  - intros k Hki Hkj. by rewrite !list_lookup_insert_ne by done.
  - intros a' Ha'. rewrite list_lookup_insert_eq by (by rewrite length_insert).
    congruence.
Qed.

Lemma up_loop_S fuel pq j :
  up_loop (S fuel) pq j =
    if decide (parent j = j) then Some pq
    else less ← Less pq j (parent j);
         if negb less then Some pq
         else pq' ← Swap pq (parent j) j; up_loop fuel pq' (parent j).
Proof. done. Qed.

Lemma down_loop_S fuel pq i n :
  down_loop (S fuel) pq i n =
    if decide (n ≤ 2 * i + 1) then Some (pq, i)
    else r ← (if decide (2 * i + 1 + 1 < n)
              then Less pq (2 * i + 1 + 1) (2 * i + 1) else Some false);
         less ← Less pq (if (r : bool) then 2 * i + 1 + 1 else 2 * i + 1) i;
         if negb less then Some (pq, i)
         else pq' ← Swap pq i (if (r : bool) then 2 * i + 1 + 1 else 2 * i + 1);
              down_loop fuel pq' (if (r : bool) then 2 * i + 1 + 1 else 2 * i + 1) n.
Proof. done. Qed.

Lemma down_loop_spec fuel : ∀ pq i0 i n,
  n ≤ length pq → i0 ≤ i → n - i < fuel → down_inv pq i0 i n →
  ∃ pq' i', down_loop fuel pq i n = Some (pq', i')
    ∧ i ≤ i'
    ∧ length pq' = length pq
    ∧ keys pq' ≡ₚ keys pq
    ∧ (∀ k, n ≤ k → pq' !! k = pq !! k)
    ∧ (i' = i → pq' = pq)
    ∧ (∀ k, 0 < k < n → k ≠ i0 → (dueAt pq' (parent k) ≤ dueAt pq' k)%Z)
    ∧ (i0 < i' → 0 < i0 → (dueAt pq' (parent i0) ≤ dueAt pq' i0)%Z).
Proof.
  induction fuel as [|fuel IH]; intros pq i0 i n Hn Hi0 Hfuel [Hrest Hgrand Hstart];
    [lia|].
  rewrite down_loop_S. case_decide as Hj1.
  { exists pq, i. repeat split; try done.
    intros k Hk Hk0. apply Hrest; [done| |done]. unfold parent. lia. }
  set (j1 := 2 * i + 1) in *.
  assert (∃ j, (if decide (j1 + 1 < n) then Less pq (j1 + 1) j1 else Some false)
               = Some (bool_decide (j = j1 + 1))
             ∧ (j = j1 ∨ j = j1 + 1) ∧ j < n
             ∧ (∀ k, 0 < k < n → parent k = i → (dueAt pq j ≤ dueAt pq k)%Z))
    as (j & -> & Hj & Hjn & Hjmin).
  { case_decide as Hj2.
    - rewrite Less_Some by lia.
      destruct (dueAt pq (j1 + 1) <? dueAt pq j1)%Z eqn:Hlt.
      + exists (j1 + 1). rewrite bool_decide_eq_true_2 by done.
        repeat split; [lia|lia|]. intros k Hk Hp.
        assert (k = j1 ∨ k = j1 + 1) as [->| ->] by (unfold parent in Hp; lia); lia.
      + exists j1. rewrite bool_decide_eq_false_2 by lia.
        repeat split; [lia|lia|]. intros k Hk Hp.
        assert (k = j1 ∨ k = j1 + 1) as [->| ->] by (unfold parent in Hp; lia); lia.
    - exists j1. rewrite bool_decide_eq_false_2 by lia.
      repeat split; [lia|lia|]. intros k Hk Hp.
      assert (k = j1) as -> by (unfold parent in Hp; lia). lia. }
  simpl.
  replace (if bool_decide (j = j1 + 1) then j1 + 1 else j1) with j
    by (case_bool_decide; lia).
  rewrite Less_Some by lia. simpl.
  destruct (dueAt pq j <? dueAt pq i)%Z eqn:Hlt; simpl.
  2:{ exists pq, i. repeat split; try done.
      intros k Hk Hk0. destruct (decide (parent k = i)) as [Hp|Hp].
      - rewrite Hp. specialize (Hjmin k Hk Hp). lia.
      - by apply Hrest. }
  destruct (Swap_Some pq i j) as (pq1 & -> & Hlen1 & Hperm1 & Hdue1 & Hsame1 & _); [lia..|].
  simpl.
  assert (parent j = i) as Hpj by (unfold parent; lia).
  destruct (IH pq1 i0 j n) as (pq' & i' & -> & Hle & Hlen & Hperm & Hout & Hid & Hord & Hst);
    [lia|lia|lia| |].
  { assert (0 < i → (dueAt pq (parent i) ≤ dueAt pq j)%Z) as Hg
      by (intros; apply Hgrand; [lia|done..]).
    apply Z.ltb_lt in Hlt.
    split.
    - intros k Hk Hp Hk0. rewrite !Hdue1.
      assert (parent k < k) by (unfold parent; lia).
      destruct (decide (parent k = i)) as [Hpi|Hpi].
      + specialize (Hjmin k Hk Hpi).
        repeat case_decide; subst; lia.
      + specialize (Hrest k Hk Hpi Hk0).
        repeat case_decide; subst; lia.
    - intros k Hk Hp _. rewrite Hpj, !Hdue1.
      assert (i < j ∧ j < k) by (unfold parent in *; lia).
      specialize (Hrest k Hk ltac:(lia) ltac:(lia)). rewrite Hp in Hrest.
      repeat case_decide; subst; lia.
    - intros Hlt0 Hpos. rewrite !Hdue1.
      assert (parent i0 < i0) by (unfold parent; lia).
      assert (i0 < i → (dueAt pq (parent i0) ≤ dueAt pq i0)%Z) as Hs
        by (intros; by apply Hstart).
      repeat case_decide; subst; lia. }
  exists pq', i'. repeat split; try done; try lia.
  - by rewrite Hperm.
  - intros k Hk. rewrite Hout by done. apply Hsame1; lia.
Qed.

Lemma up_loop_spec fuel : ∀ pq j,
  j < length pq → j < fuel → up_inv pq j →
  ∃ pq', up_loop fuel pq j = Some pq'
    ∧ length pq' = length pq
    ∧ keys pq' ≡ₚ keys pq
    ∧ heapOrdered pq'.
Proof.
  induction fuel as [|fuel IH]; intros pq j Hj Hfuel [Hrest Hgrand]; [lia|].
  rewrite up_loop_S. case_decide as Hroot.
  { exists pq. repeat split; try done. intros k Hk.
    apply Hrest; [done|]. unfold parent in Hroot. lia. }
  assert (parent j < j) as Hpj by (unfold parent in *; lia).
  rewrite Less_Some by lia. simpl.
  destruct (dueAt pq j <? dueAt pq (parent j))%Z eqn:Hlt; simpl.
  2:{ exists pq. repeat split; try done. intros k Hk.
      destruct (decide (k = j)) as [->|Hkj]; [lia|by apply Hrest]. }
  destruct (Swap_Some pq (parent j) j)
    as (pq1 & -> & Hlen1 & Hperm1 & Hdue1 & _); [lia..|].
  simpl. apply Z.ltb_lt in Hlt.
  destruct (IH pq1 (parent j)) as (pq' & -> & Hlen & Hperm & Hord); [lia|lia| |].
  { assert ((dueAt pq (parent (parent j)) ≤ dueAt pq (parent j))%Z ∨ parent j = 0)
      as Hup by (destruct (decide (parent j = 0)); [by right|left; apply Hrest; lia]).
    split.
    - rewrite Hlen1. intros k Hk Hkp. rewrite !Hdue1.
      assert (parent k < k) by (unfold parent; lia).
      destruct (decide (k = j)) as [->|Hkj].
      + repeat case_decide; subst; lia.
      + specialize (Hrest k Hk Hkj).
        destruct (decide (parent k = j)) as [Hpk|Hpk].
        * specialize (Hgrand k Hk Hpk ltac:(lia)).
          repeat case_decide; subst; lia.
        * destruct (decide (parent k = parent j)) as [Heq|Hne];
            [rewrite Heq in Hrest|]; repeat case_decide; subst; lia.
    - rewrite Hlen1. intros k Hk Hkp Hpos. rewrite !Hdue1.
      assert (parent (parent j) < parent j) by (unfold parent in *; lia).
      destruct (decide (k = j)) as [->|Hkj].
      + repeat case_decide; subst; lia.
      + specialize (Hrest k Hk Hkj). rewrite Hkp in Hrest.
        repeat case_decide; subst; lia. }
  exists pq'. repeat split; [lia|by rewrite Hperm|done].
Qed.

Lemma up_spec pq j :
  j < length pq → up_inv pq j →
  ∃ pq', up pq j = Some pq' ∧ length pq' = length pq
    ∧ keys pq' ≡ₚ keys pq ∧ heapOrdered pq'.
Proof. intros. apply up_loop_spec; [done|lia|done]. Qed.

Lemma down_spec pq i0 n :
  n ≤ length pq → down_inv pq i0 i0 n →
  ∃ pq' moved, down pq i0 n = Some (pq', moved)
    ∧ length pq' = length pq
    ∧ keys pq' ≡ₚ keys pq
    ∧ (∀ k, n ≤ k → pq' !! k = pq !! k)
    ∧ (moved = false → pq' = pq)
    ∧ (∀ k, 0 < k < n → k ≠ i0 → (dueAt pq' (parent k) ≤ dueAt pq' k)%Z)
    ∧ (moved = true → 0 < i0 → (dueAt pq' (parent i0) ≤ dueAt pq' i0)%Z).
Proof.
  intros Hn Hinv. unfold down.
  destruct (down_loop_spec (S n) pq i0 i0 n)
    as (pq' & i' & -> & Hle & Hlen & Hperm & Hout & Hid & Hord & Hst);
    [done|done|lia|done|].
  simpl. exists pq', (bool_decide (i0 < i')). repeat split; try done.
  - intros Hm. apply Hid. apply bool_decide_eq_false in Hm. lia.
  - intros Hm. apply Hst. by apply bool_decide_eq_true in Hm.
Qed.

Lemma dueAt_insert pq k i it :
  i < length pq →
  dueAt (<[i:=it]> pq) k = if decide (k = i) then nextReap it else dueAt pq k.
Proof.
  intros Hi. unfold dueAt. case_decide as Hk.
  - subst. by rewrite list_lookup_insert_eq.
  - by rewrite list_lookup_insert_ne.
Qed.

Lemma heapOrdered_nil : heapOrdered [].
Proof. intros k. simpl. lia. Qed.

(** [heap.Push] keeps the order and adds exactly the pushed entry. *)
Lemma heap_Push_spec pq x :
  heapOrdered pq →
  ∃ pq', heap_Push pq x = Some pq'
    ∧ keys pq' ≡ₚ key x :: keys pq
    ∧ heapOrdered pq'.
Proof.
  intros Hord. unfold heap_Push, Len, Push.
  set (pq1 := pq ++ _).
  assert (length pq1 = S (length pq)) as Hlen1
    by (unfold pq1; rewrite length_app; simpl; lia).
  destruct (up_spec pq1 (length pq1 - 1)) as (pq' & -> & Hlen & Hperm & Hord');
    [lia| |].
  { split.
    - intros k Hk Hne. unfold dueAt, pq1.
      assert (parent k < k) by (unfold parent; lia).
      rewrite !lookup_app_l by lia. apply Hord. lia.
    - intros k Hk Hp _. unfold parent in Hp. lia. }
  exists pq'. repeat split; [|done].
  rewrite Hperm. unfold pq1, keys. rewrite fmap_app. simpl.
  by rewrite key_set_index, Permutation_app_comm.
Qed.

(** [heap.Fix] restores the order after the due time at [idx] changed. *)
Lemma heap_Fix_spec pq idx it t :
  heapOrdered pq → pq !! idx = Some it →
  ∃ pq', heap_Fix (<[idx := set_nextReap it t]> pq) idx = Some pq'
    ∧ keys pq' ≡ₚ <[idx := (ch it, t)]> (keys pq)
    ∧ heapOrdered pq'.
Proof.
  intros Hord Hit. pose proof (lookup_lt_Some _ _ _ Hit) as Hidx.
  set (pq0 := <[idx := _]> pq).
  assert (length pq0 = length pq) as Hlen0 by apply length_insert.
  assert (keys pq0 = <[idx := (ch it, t)]> (keys pq)) as Hkeys0
    by (unfold keys, pq0; by rewrite list_fmap_insert).
  assert (∀ k, 0 < k < length pq → parent k = idx → 0 < idx →
               (dueAt pq0 (parent idx) ≤ dueAt pq0 k)%Z) as Hgrand.
  { intros k Hk Hp Hpos. unfold pq0. rewrite !dueAt_insert by done.
    assert (parent idx < idx ∧ idx < k) by (unfold parent in *; lia).
    pose proof (Hord k Hk) as H1. rewrite Hp in H1.
    pose proof (Hord idx ltac:(lia)) as H2.
    repeat case_decide; subst; lia. }
  unfold heap_Fix, Len.
  destruct (down_spec pq0 idx (length pq0))
    as (pq1 & moved & -> & Hlen1 & Hperm1 & _ & Hid & Hord1 & Hst); [done| |].
  { rewrite Hlen0. split; [|done|lia].
    intros k Hk Hp Hne. unfold pq0. rewrite !dueAt_insert by done.
    pose proof (Hord k Hk). repeat case_decide; subst; lia. }
  simpl. destruct moved; simpl.
  - exists pq1. repeat split; [by rewrite Hperm1, Hkeys0|].
    intros k Hk. destruct (decide (k = idx)) as [->|Hne].
    + apply Hst; [done|lia].
    + apply Hord1; [lia|done].
  - rewrite (Hid eq_refl) in *.
    destruct (up_spec pq0 idx) as (pq' & -> & Hlen & Hperm & Hord'); [lia| |].
    { split; [|by rewrite Hlen0]. intros k Hk Hne. apply Hord1; [lia|done]. }
    exists pq'. repeat split; [by rewrite Hperm, Hkeys0|done].
Qed.

(** [heap.Pop] returns the entry at the root, removes exactly that entry
    and keeps the order. *)
Lemma heap_Pop_spec pq root :
  heapOrdered pq → pq !! 0 = Some root →
  ∃ x pq', heap_Pop pq = Some (x, pq')
    ∧ x = set_index root (-1)
    ∧ keys pq ≡ₚ key x :: keys pq'
    ∧ heapOrdered pq'.
Proof.
  intros Hord Hroot. unfold heap_Pop, Len.
  destruct (length pq) as [|n] eqn:Hlen;
    [apply lookup_lt_Some in Hroot; lia|].
  destruct (Swap_Some pq 0 n) as (pq1 & -> & Hlen1 & Hperm1 & Hdue1 & _ & Hlast);
    [lia..|].
  simpl.
  destruct (down_spec pq1 0 n)
    as (pq2 & moved & -> & Hlen2 & Hperm2 & Hout & _ & Hord2 & _); [lia| |].
  { split; [|lia..]. intros k Hk Hp _. rewrite !Hdue1.
    assert (0 < parent k ∧ parent k < k) by (unfold parent in *; lia).
    pose proof (Hord k ltac:(lia)).
    repeat case_decide; subst; lia. }
  simpl. unfold Pop. rewrite Hlen2, Hlen1, Hlen.
  rewrite Hout, (Hlast _ Hroot) by done. simpl.
  eexists _, _. repeat split.
  - rewrite <- Hperm1, <- Hperm2.
    rewrite <- (take_drop n pq2) at 1.
    rewrite (drop_S pq2 (set_index root (Z.of_nat n)) n)
      by (by rewrite Hout, (Hlast _ Hroot)).
    rewrite drop_ge by lia.
    unfold keys. rewrite fmap_app. simpl.
    by rewrite Permutation_app_comm.
  - intros k Hk. rewrite length_take in Hk.
    assert (parent k < k) by (unfold parent; lia).
    unfold dueAt. rewrite !lookup_take_lt by lia.
    apply Hord2; lia.
Qed.

(** In an ordered heap the root is due first. *)
Lemma heapOrdered_root_min pq k :
  heapOrdered pq → k < length pq → (dueAt pq 0 ≤ dueAt pq k)%Z.
Proof.
  intros Hord. induction (lt_wf k) as [k _ IH]. intros Hk.
  destruct (decide (k = 0)) as [->|Hne]; [lia|].
  assert (parent k < k) by (unfold parent; lia).
  specialize (IH (parent k) ltac:(done) ltac:(lia)).
  specialize (Hord k ltac:(lia)). lia.
Qed.
End heap_facts.

(** * Properties of the queue *)

Section queue_facts.
Implicit Types (pq : priorityQueue) (q : reapQueue) (c : chanRef) (t : Time).

Lemma insert_Permutation_cons {A} (l : list A) i y :
  i < length l → <[i:=y]> l ≡ₚ y :: delete i l.
Proof.
  revert i. induction l as [|x l IH]; intros [|i] Hi; simpl in *; try lia.
  - done.
  - rewrite IH by lia. apply Permutation_swap.
Qed.

Lemma find_ch_Some pq c idx :
  find_ch pq c = Some idx → ∃ it, pq !! idx = Some it ∧ ch it = c.
Proof.
  revert idx. induction pq as [|v pq IH]; intros idx; simpl; [done|].
  case_decide as Hv.
  - intros [= <-]. by exists v.
  - destruct (find_ch pq c) as [k|] eqn:Hk; simpl; [|done].
    intros [= <-]. by apply IH.
Qed.

Lemma find_ch_None pq c : find_ch pq c = None → c ∉ (keys pq).*1.
Proof.
  induction pq as [|v pq IH]; simpl.
  - intros _. apply not_elem_of_nil.
  - case_decide as Hv; [done|].
    destruct (find_ch pq c); simpl; [done|]. intros _.
    rewrite not_elem_of_cons. split; [done|by apply IH].
Qed.

(** [Update] cannot fail, keeps the heap order, and either replaces the
    entry it found for [c] or adds one when [c] had none. *)
Lemma Update_items_spec pq c t :
  heapOrdered pq →
  ∃ pq' rest, Update_items pq c t = Some pq'
    ∧ heapOrdered pq'
    ∧ keys pq' ≡ₚ (c, t) :: rest
    ∧ ((keys pq ≡ₚ rest ∧ c ∉ rest.*1) ∨ (∃ t0, keys pq ≡ₚ (c, t0) :: rest)).
Proof.
  intros Hord. unfold Update_items.
  destruct (find_ch pq c) as [idx|] eqn:Hfind.
  - destruct (find_ch_Some _ _ _ Hfind) as (it & Hit & Hc).
    rewrite Hit. simpl.
    destruct (heap_Fix_spec pq idx it t Hord Hit) as (pq' & -> & Hperm & Hord').
    assert (keys pq !! idx = Some (key it)) as Hk
      by (unfold keys; by rewrite list_lookup_fmap, Hit).
    exists pq', (delete idx (keys pq)). repeat split; [done| |].
    + rewrite Hperm, Hc. apply insert_Permutation_cons.
      by apply lookup_lt_Some in Hk.
    + right. exists (nextReap it). rewrite <- Hc.
      by apply delete_Permutation.
  - destruct (heap_Push_spec pq (mkItem c t 0) Hord) as (pq' & -> & Hperm & Hord').
    exists pq', (keys pq). repeat split; [done|done|].
    left. split; [done|by apply find_ch_None].
Qed.

Lemma entries_Permutation pq l c :
  keys pq ≡ₚ l → entries pq c ≡ₚ filter (λ e, e.1 = c) l.
Proof. intros H. unfold entries. by rewrite H. Qed.

Lemma filter_fst_absent (l : list (chanRef * Time)) c :
  c ∉ l.*1 → filter (λ e, e.1 = c) l = [].
Proof.
  induction l as [|e l IH]; [done|]. rewrite fmap_cons, not_elem_of_cons.
  intros [Hne Hl]. rewrite filter_cons_False by done. by apply IH.
Qed.

Lemma length_le_1_cons {A} (x : A) l : length (x :: l) ≤ 1 → l = [].
Proof. destruct l; simpl; [done|lia]. Qed.

(** After [Update q c t] the only entry of [c] is due at [t]; the entries
    of the other channels are what they were. *)
Lemma Update_items_entries pq c t :
  heapOrdered pq → uniq pq →
  ∃ pq', Update_items pq c t = Some pq'
    ∧ heapOrdered pq' ∧ uniq pq'
    ∧ entries pq' c = [(c, t)]
    ∧ ∀ c', c' ≠ c → entries pq' c' = entries pq c'.
Proof.
  intros Hord Huniq.
  destruct (Update_items_spec pq c t Hord) as (pq' & rest & -> & Hord' & Hperm & Hold).
  assert (filter (λ e, e.1 = c) rest = []) as Hrest.
  { destruct Hold as [[_ Hnot]|[t0 Hp]]; [by apply filter_fst_absent|].
    pose proof (Huniq c) as Hlen.
    rewrite (entries_Permutation _ _ _ Hp), filter_cons_True in Hlen by done.
    by apply length_le_1_cons in Hlen. }
  assert (entries pq' c = [(c, t)]) as Hsame.
  { apply Permutation_singleton_r.
    by rewrite (entries_Permutation _ _ _ Hperm), filter_cons_True, Hrest. }
  assert (∀ c', c' ≠ c → entries pq' c' ≡ₚ entries pq c') as Hother.
  { intros c' Hne.
    rewrite (entries_Permutation _ _ _ Hperm), filter_cons_False by (simpl; congruence).
    destruct Hold as [[Hp _]|[t0 Hp]].
    - by rewrite (entries_Permutation _ _ _ Hp).
    - by rewrite (entries_Permutation _ _ _ Hp), filter_cons_False
        by (simpl; congruence). }
  assert (uniq pq') as Huniq'.
  { intros c'. destruct (decide (c' = c)) as [->|Hne].
    - by rewrite Hsame.
    - rewrite (Hother c' Hne). apply Huniq. }
  exists pq'. repeat split; try done.
  intros c' Hne. pose proof (Hother c' Hne) as Hp.
  pose proof (Huniq c') as Hlen.
  destruct (entries pq c') as [|e [|e' l]]; simpl in Hlen; [| |lia].
  - by apply Permutation_nil_r.
  - by apply Permutation_singleton_r.
Qed.

Lemma Update_ok q c t :
  queue_ok q →
  ∃ q', Update q c t = Some q'
    ∧ queue_ok q'
    ∧ controlCh q' = controlCh q ∧ controlCap q' = controlCap q
    ∧ curWork q' = curWork q
    ∧ entries (items q') c = [(c, t)]
    ∧ ∀ c', c' ≠ c → entries (items q') c' = entries (items q) c'.
Proof.
  intros [Hord Huniq]. unfold Update.
  destruct (Update_items_entries _ c t Hord Huniq)
    as (pq' & -> & Hord' & Huniq' & Hsame & Hother).
  simpl. eexists. by repeat split.
Qed.

Lemma newReapQueue_spec n q0 :
  newReapQueue n = Some q0 →
  (0 ≤ n)%Z ∧ q0 = mkQueue [] 0 (Z.to_nat n) ∅.
Proof.
  unfold newReapQueue. case_decide; [done|]. intros [= <-]. split; [lia|done].
Qed.

Lemma newReapQueue_ok n q0 : newReapQueue n = Some q0 → queue_ok q0.
Proof.
  intros [_ ->]%newReapQueue_spec. split; [apply heapOrdered_nil|].
  intros c. simpl. lia.
Qed.

(** A pass of [WaitForNext] cannot fail; when it pops, it pops the root,
    whose due time is not after [now], and removes exactly that entry. *)
Lemma WaitForNext_pass_ok q now :
  queue_ok q →
  ∃ r q', WaitForNext_pass q now = Some (r, q')
    ∧ queue_ok q'
    ∧ controlCh q' = controlCh q ∧ controlCap q' = controlCap q
    ∧ curWork q' = curWork q
    ∧ match r with
      | Return x =>
          ∃ root, Peek (items q) = Some root
            ∧ After (nextReap root) now = false
            ∧ x = set_index root (-1)
            ∧ keys (items q) ≡ₚ key x :: keys (items q')
      | _ => q' = q
      end.
Proof.
  intros [Hord Huniq]. unfold WaitForNext_pass.
  destruct (Peek (items q)) as [root|] eqn:Hpeek.
  2:{ eexists _, _. by repeat split. }
  destruct (After (nextReap root) now) eqn:Hafter.
  { eexists _, _. by repeat split. }
  destruct (heap_Pop_spec _ _ Hord Hpeek) as (x & pq' & -> & Hx & Hperm & Hord').
  simpl. eexists _, _. repeat split; try done.
  - intros c. simpl. pose proof (Huniq c) as Hlen.
    rewrite (entries_Permutation _ _ _ Hperm), filter_cons in Hlen.
    unfold entries. case_decide; simpl in Hlen; lia.
  - by exists root.
Qed.

Lemma qstep_ok q o : queue_ok q → ∃ q', qstep q o = Some q' ∧ queue_ok q'.
Proof.
  intros Hok. destruct o as [c t|now]; simpl.
  - destruct (Update_ok q c t Hok) as (q' & -> & Hok' & _). by exists q'.
  - destruct (WaitForNext_pass_ok q now Hok) as (r & q' & -> & Hok' & _).
    by exists q'.
Qed.

(** Every sequence of calls runs to its end, and leaves a well-formed queue. *)
Lemma qrun_ok os : ∀ q, queue_ok q → ∃ q', qrun q os = Some q' ∧ queue_ok q'.
Proof.
  induction os as [|o os IH]; intros q Hok; simpl; [by exists q|].
  destruct (qstep_ok q o Hok) as (q1 & -> & Hok1). simpl. by apply IH.
Qed.

Lemma reachable_ok n q0 os q :
  newReapQueue n = Some q0 → qrun q0 os = Some q → queue_ok q.
Proof.
  intros Hnew Hrun.
  destruct (qrun_ok os q0 (newReapQueue_ok _ _ Hnew)) as (q' & Hq' & Hok).
  congruence.
Qed.

Lemma Update_all_ok us : ∀ q,
  queue_ok q → ∃ q', Update_all q us = Some q' ∧ queue_ok q'.
Proof.
  induction us as [|[c t] us IH]; intros q Hok; simpl; [by exists q|].
  destruct (Update_ok q c t Hok) as (q1 & -> & Hok1 & _). simpl. by apply IH.
Qed.

(** A run of [Update]s on one channel leaves the last due time. *)
Lemma Update_all_same c ts : ∀ q t,
  queue_ok q →
  ∃ q', Update_all q (pair c <$> ts ++ [t]) = Some q'
    ∧ queue_ok q' ∧ entries (items q') c = [(c, t)].
Proof.
  induction ts as [|t1 ts IH]; intros q t Hok; simpl.
  - destruct (Update_ok q c t Hok) as (q' & -> & Hok' & _ & _ & _ & Hsame & _).
    simpl. by exists q'.
  - destruct (Update_ok q c t1 Hok) as (q1 & -> & Hok1 & _). simpl. by apply IH.
Qed.

Lemma WaitForNext_unfold q now wakes :
  WaitForNext q now wakes =
    r ← WaitForNext_pass q now;
    match r.1 with
    | Return x => Some (Some (ch x), r.2)
    | _ =>
        match wakes with
        | [] => Some (None, r.2)
        | (us, now') :: wakes' =>
            q' ← Update_all r.2 us; WaitForNext q' now' wakes'
        end
    end.
Proof. by destruct wakes. Qed.

(** [WaitForNext] does not panic, whatever happens while it waits. *)
Lemma WaitForNext_total wakes : ∀ q now,
  queue_ok q → ∃ r q', WaitForNext q now wakes = Some (r, q') ∧ queue_ok q'.
Proof.
  induction wakes as [|[us now'] wakes IH]; intros q now Hok;
    rewrite WaitForNext_unfold;
    destruct (WaitForNext_pass_ok q now Hok) as (r & q1 & -> & Hok1 & _);
    simpl; destruct r; try (by eexists _, _);
    destruct (Update_all_ok us q1 Hok1) as (q2 & -> & Hok2); simpl; by apply IH.
Qed.

(** The entry at the root is the only entry of its channel. *)
Lemma Peek_entries q root :
  queue_ok q → Peek (items q) = Some root →
  entries (items q) (ch root) = [(ch root, nextReap root)].
Proof.
  intros [_ Huniq] Hpeek.
  assert (key root ∈ entries (items q) (ch root)) as Hin.
  { apply list_elem_of_filter. split; [done|].
    apply list_elem_of_fmap. exists root. split; [done|].
    unfold Peek in Hpeek. by eapply list_elem_of_lookup_2. }
  specialize (Huniq (ch root)).
  destruct (entries (items q) (ch root)) as [|e [|e' l]]; simpl in Huniq; try lia.
  - by apply elem_of_nil in Hin.
  - by apply list_elem_of_singleton in Hin as <-.
Qed.

(** When [WaitForNext] returns a channel, the pass that popped it is the
    first pass of the call, or the pass after a wake-up before which the
    call was still suspended. *)
Lemma WaitForNext_Some_at wakes : ∀ q now c q',
  queue_ok q →
  WaitForNext q now wakes = Some (Some c, q') →
  ∃ qp nowp root,
    ((qp = q ∧ nowp = now)
     ∨ ∃ pre us post qs,
         wakes = pre ++ (us, nowp) :: post
         ∧ WaitForNext q now pre = Some (None, qs)
         ∧ Update_all qs us = Some qp)
    ∧ queue_ok qp
    ∧ Peek (items qp) = Some root
    ∧ ch root = c
    ∧ After (nextReap root) nowp = false
    ∧ WaitForNext_pass qp nowp = Some (Return (set_index root (-1)), q')
    ∧ keys (items qp) ≡ₚ (c, nextReap root) :: keys (items q').
Proof.
  induction wakes as [|[us now'] wakes IH]; intros q now c q' Hok;
    rewrite WaitForNext_unfold;
    destruct (WaitForNext_pass_ok q now Hok)
      as (r & q1 & Hpass & Hok1 & _ & _ & _ & Hr);
    rewrite Hpass; simpl.
  - destruct r as [| |x]; try done. intros [= <- <-].
    destruct Hr as (root & Hpeek & Hafter & -> & Hperm).
    exists q, now, root. split_and!; try done; try exact Hperm. by left.
  - assert (WaitForNext_pass q now = Some (r, q) →
            (∀ x, r ≠ Return x) → WaitForNext q now [] = Some (None, q))
      as Hsusp.
    { intros Hp Hne. rewrite WaitForNext_unfold, Hp. simpl.
      destruct r as [| |x]; try done. by destruct (Hne x). }
    destruct r as [| |x].
    1,2: subst q1; specialize (Hsusp Hpass ltac:(done));
      destruct (Update_all_ok us q Hok) as (q2 & Hq2 & Hok2); rewrite Hq2; simpl;
      intros Hw;
      destruct (IH _ _ _ _ Hok2 Hw) as (qp & nowp & root & Hat & Hrest);
      exists qp, nowp, root; (split; [right|done]);
      destruct Hat as [[-> ->]|(pre & us' & post & qs & -> & Hpre & Hqp)];
      [ by exists [], us, wakes, q
      | exists ((us, now') :: pre), us', post, qs; split_and!; try done;
        rewrite WaitForNext_unfold, Hpass; simpl; by rewrite Hq2 ].
    intros [= <- <-]. destruct Hr as (root & Hpeek & Hafter & -> & Hperm).
    exists q, now, root. split_and!; try done; try exact Hperm. by left.
Qed.
(** The root of a well-formed queue is due no later than any entry. *)
Lemma queue_ok_root_min q root it :
  queue_ok q → Peek (items q) = Some root → it ∈ items q →
  (nextReap root ≤ nextReap it)%Z.
Proof.
  intros [Hord _] Hpeek [k Hk]%list_elem_of_lookup.
  pose proof (heapOrdered_root_min _ k Hord (lookup_lt_Some _ _ _ Hk)) as Hle.
  by rewrite (dueAt_lookup _ _ _ Hpeek), (dueAt_lookup _ _ _ Hk) in Hle.
Qed.
End queue_facts.

Section queue_claims.
Implicit Types (q : reapQueue) (c : chanRef) (t : Time).

(** When [c] has an entry, [Update] changes it where it is: the queue
    keeps its length. *)
Lemma Update_in_place q c t0 t :
  queue_ok q → entries (items q) c = [(c, t0)] →
  ∃ q', Update q c t = Some q'
    ∧ length (items q') = length (items q)
    ∧ entries (items q') c = [(c, t)].
Proof.
  intros [Hord Huniq] Hent. unfold Update.
  destruct (Update_items_spec (items q) c t Hord)
    as (pq' & rest & Hupd & Hord' & Hperm & Hold).
  destruct (Update_items_entries (items q) c t Hord Huniq)
    as (pq2 & Hupd2 & _ & _ & Hsame & _).
  rewrite Hupd in *. simplify_eq. simpl. eexists. split_and!; try done.
  destruct Hold as [[Hp Hnot]|[t1 Hp]].
  - apply (filter_fst_absent _ c) in Hnot.
    pose proof (entries_Permutation _ _ c Hp) as He.
    rewrite Hent, Hnot in He. by apply Permutation_nil_r in He.
  - apply Permutation_length in Hperm, Hp. unfold keys in *.
    rewrite !length_fmap in *. simpl in *. lia.
Qed.
End queue_claims.

Lemma sample_queue_reached :
  newReapQueue 2 = Some (mkQueue [] 0 2 ∅)
  ∧ qrun (mkQueue [] 0 2 ∅) sample_ops = Some sample_queue.
Proof. split; reflexivity. Qed.

(** C1.  In every state a queue reaches from [newReapQueue] through calls of
    [Update] and passes of [WaitForNext], no channel has more than one entry;
    and any sequence of [Update]s on one channel [c], applied there, runs to
    its end and leaves exactly one entry for [c], due at the time of the
    last call.  An [Update] on a channel that has an entry rewrites it in
    place: the queue does not grow. *)
Theorem Update_single_entry n q0 os q :
  newReapQueue n = Some q0 → qrun q0 os = Some q →
  (∀ c, length (entries (items q) c) ≤ 1)
  ∧ (∀ c ts t, ∃ q', Update_all q (pair c <$> ts ++ [t]) = Some q'
        ∧ entries (items q') c = [(c, t)])
  ∧ (∀ c t0 t, entries (items q) c = [(c, t0)] →
        ∃ q', Update q c t = Some q'
          ∧ length (items q') = length (items q)
          ∧ entries (items q') c = [(c, t)]).
Proof.
  intros Hnew Hrun. pose proof (reachable_ok _ _ _ _ Hnew Hrun) as Hok.
  split_and!.
  - apply Hok.
  - intros c ts t.
    destruct (Update_all_same c ts q t Hok) as (q' & Hq' & _ & Hent). by exists q'.
  - intros c t0 t. by apply Update_in_place.
Qed.

Lemma Update_single_entry_witness :
  newReapQueue 2 = Some (mkQueue [] 0 2 ∅)
  ∧ qrun (mkQueue [] 0 2 ∅) sample_ops = Some sample_queue
  ∧ length (entries (items sample_queue) 1) ≤ 1
  ∧ ∃ q', Update_all sample_queue (pair 1 <$> [10%Z; 70%Z] ++ [60%Z]) = Some q'
      ∧ entries (items q') 1 = [(1, 60%Z)].
Proof.
  destruct sample_queue_reached as [Hnew Hrun].
  destruct (Update_single_entry 2 _ sample_ops sample_queue Hnew Hrun)
    as (Hone & Hseq & _).
  split_and!; [reflexivity|reflexivity|apply Hone|apply (Hseq 1 [10%Z; 70%Z] 60%Z)].
Defined.

(** C2.  When [WaitForNext], called on a reachable queue, returns a channel,
    the pass that popped it is the first pass of the call ([qp] is the
    queue of the call and [nowp] its first reading of the clock), or the
    pass after a wake-up before which the call was still suspended ([qp] is
    the queue the call was suspended on after the [Update]s that came
    meanwhile, [nowp] the reading of the clock after that wake-up).  That
    pass found the channel at the root of the heap of [qp], where it is the
    only entry of the channel, and found [it.nextReap.After(now)] false:
    the due time of the entry popped is not after that reading of the
    clock.  The pass took that entry out of [qp]. *)
Theorem WaitForNext_returns_due n q0 os q now wakes c q' :
  newReapQueue n = Some q0 → qrun q0 os = Some q →
  WaitForNext q now wakes = Some (Some c, q') →
  ∃ qp nowp root,
    ((qp = q ∧ nowp = now)
     ∨ ∃ pre us post qs,
         wakes = pre ++ (us, nowp) :: post
         ∧ WaitForNext q now pre = Some (None, qs)
         ∧ Update_all qs us = Some qp)
    ∧ Peek (items qp) = Some root
    ∧ ch root = c
    ∧ entries (items qp) c = [(c, nextReap root)]
    ∧ After (nextReap root) nowp = false
    ∧ (nextReap root ≤ nowp)%Z
    ∧ WaitForNext_pass qp nowp = Some (Return (set_index root (-1)), q')
    ∧ keys (items qp) ≡ₚ (c, nextReap root) :: keys (items q').
Proof.
  intros Hnew Hrun Hw. pose proof (reachable_ok _ _ _ _ Hnew Hrun) as Hok.
  destruct (WaitForNext_Some_at _ _ _ _ _ Hok Hw)
    as (qp & nowp & root & Hat & Hokp & Hpeek & <- & Hafter & Hpass & Hperm).
  exists qp, nowp, root. split_and!; try done.
  - by apply Peek_entries.
  - unfold After in Hafter. by apply Z.ltb_ge in Hafter.
Qed.

Lemma WaitForNext_returns_due_witness :
  WaitForNext sample_queue 20 [([(3, 25%Z)], 24%Z); ([], 27%Z)]
    = Some (Some 3, mkQueue [mkItem 2 30 0; mkItem 1 35 1] 0 2 ∅)
  ∧ ∃ qp nowp root,
      ((qp = sample_queue ∧ nowp = 20%Z)
       ∨ ∃ pre us post qs,
           [([(3, 25%Z)], 24%Z); ([], 27%Z)] = pre ++ (us, nowp) :: post
           ∧ WaitForNext sample_queue 20 pre = Some (None, qs)
           ∧ Update_all qs us = Some qp)
      ∧ Peek (items qp) = Some root
      ∧ ch root = 3
      ∧ entries (items qp) 3 = [(3, nextReap root)]
      ∧ After (nextReap root) nowp = false
      ∧ (nextReap root ≤ nowp)%Z
      ∧ WaitForNext_pass qp nowp
        = Some (Return (set_index root (-1)),
                mkQueue [mkItem 2 30 0; mkItem 1 35 1] 0 2 ∅)
      ∧ keys (items qp)
        ≡ₚ (3, nextReap root)
           :: keys (items (mkQueue [mkItem 2 30 0; mkItem 1 35 1] 0 2 ∅)).
Proof.
  destruct sample_queue_reached as [Hnew Hrun].
  split; [reflexivity|].
  apply (WaitForNext_returns_due 2 _ sample_ops sample_queue 20
           [([(3, 25%Z)], 24%Z); ([], 27%Z)] 3 _ Hnew Hrun).
  reflexivity.
Defined.

(** C8.  In every reachable state of a queue the entry at the root of the
    heap is due no later than any pending entry, and two pops in a row
    return entries in non-decreasing order of due time. *)
Theorem heap_root_earliest n q0 os q :
  newReapQueue n = Some q0 → qrun q0 os = Some q →
  (∀ root it, Peek (items q) = Some root → it ∈ items q →
     (nextReap root ≤ nextReap it)%Z)
  ∧ (∀ now1 now2 x y q1 q2,
       WaitForNext_pass q now1 = Some (Return x, q1) →
       WaitForNext_pass q1 now2 = Some (Return y, q2) →
       (nextReap x ≤ nextReap y)%Z).
Proof.
  intros Hnew Hrun. pose proof (reachable_ok _ _ _ _ Hnew Hrun) as Hok.
  split.
  - intros root it. by apply queue_ok_root_min.
  - intros now1 now2 x y q1 q2 H1 H2.
    destruct (WaitForNext_pass_ok q now1 Hok)
      as (r1 & q1' & H1' & Hok1 & _ & _ & _ & Hr1).
    rewrite H1 in H1'. simplify_eq.
    destruct Hr1 as (rx & Hpx & _ & -> & Hperm1).
    destruct (WaitForNext_pass_ok q1' now2 Hok1)
      as (r2 & q2' & H2' & _ & _ & _ & _ & Hr2).
    rewrite H2 in H2'. simplify_eq.
    destruct Hr2 as (ry & Hpy & _ & -> & _).
    assert (key ry ∈ keys (items q)) as Hin.
    { rewrite Hperm1. apply list_elem_of_further.
      apply list_elem_of_fmap. exists ry. split; [done|].
      apply list_elem_of_lookup. by exists 0. }
    apply list_elem_of_fmap in Hin as (it & Hkey & Hit).
    pose proof (queue_ok_root_min q rx it Hok Hpx Hit) as Hle.
    injection Hkey as _ Hdue. simpl. lia.
Qed.

Lemma heap_root_earliest_witness :
  Peek (items sample_queue) = Some (mkItem 2 30 0)
  ∧ (∀ it, it ∈ items sample_queue → (30 ≤ nextReap it)%Z)
  ∧ WaitForNext_pass sample_queue 45
    = Some (Return (mkItem 2 30 (-1)), mkQueue [mkItem 1 35 0; mkItem 3 40 1] 0 2 ∅)
  ∧ WaitForNext_pass (mkQueue [mkItem 1 35 0; mkItem 3 40 1] 0 2 ∅) 45
    = Some (Return (mkItem 1 35 (-1)), mkQueue [mkItem 3 40 0] 0 2 ∅)
  ∧ (nextReap (mkItem 2 30 (-1)) ≤ nextReap (mkItem 1 35 (-1)))%Z.
Proof.
  destruct sample_queue_reached as [Hnew Hrun].
  destruct (heap_root_earliest 2 _ sample_ops sample_queue Hnew Hrun) as [Hmin Hpops].
  split_and!; [reflexivity| |reflexivity|reflexivity|].
  - intros it. by apply (Hmin (mkItem 2 30 0) it).
  - apply (Hpops 45%Z 45%Z (mkItem 2 30 (-1)) (mkItem 1 35 (-1))
             (mkQueue [mkItem 1 35 0; mkItem 3 40 1] 0 2 ∅)
             (mkQueue [mkItem 3 40 0] 0 2 ∅)); reflexivity.
Defined.

(** * Properties of the backoff *)

Section backoff_facts.
Implicit Types (b : Bot) (c : chanRef).

Lemma wrap64_id z : (int64_min ≤ z ≤ int64_max)%Z → wrap64 z = z.
Proof. unfold wrap64, int64_min, int64_max. intros. lia. Qed.

Lemma Intn_range n seed :
  (0 < n)%Z → ∃ r, Intn n seed = Some r ∧ r = (seed mod n)%Z ∧ (0 ≤ r < n)%Z.
Proof.
  intros Hn. unfold Intn. case_decide; [lia|].
  eexists. split_and!; [done|done|lia|lia].
Qed.

Lemma loadFailuresOf_insert b c d c' :
  loadFailuresOf (with_loadFailures b c d) c'
  = if decide (c = c') then d else loadFailuresOf b c'.
Proof.
  unfold loadFailuresOf, with_loadFailures. simpl.
  case_decide; simplify_map_eq; done.
Qed.

(** The section of [QueueLoadBacklog] under [c.mu], on a failure. *)
Lemma QueueLoadBacklog_delay_fail b c seed :
  QueueLoadBacklog_delay b c true seed
  = let d := wrap64 (wrap64 (loadFailuresOf b c * 2) + seed mod (5 * Second)) in
    Some (with_loadFailures b c d, d).
Proof. done. Qed.

Lemma QueueLoadBacklog_update_ok b c d now :
  queue_ok (loadRetries b) →
  ∃ b', QueueLoadBacklog_update b c d now = Some b'
    ∧ loadFailures b' = loadFailures b
    ∧ reaper b' = reaper b
    ∧ queue_ok (loadRetries b')
    ∧ controlCh (loadRetries b') = controlCh (loadRetries b)
    ∧ controlCap (loadRetries b') = controlCap (loadRetries b)
    ∧ curWork (loadRetries b') = curWork (loadRetries b)
    ∧ entries (items (loadRetries b')) c = [(c, Add now d)].
Proof.
  intros Hok. unfold QueueLoadBacklog_update.
  destruct (Update_ok _ c (Add now d) Hok)
    as (q' & -> & Hok' & Hch & Hcap & Hcur & Hent & _).
  simpl. eexists. by split_and!.
Qed.
End backoff_facts.

(** C10.  [QueueLoadBacklog(c, false)] leaves the accumulated delay of every
    channel as it was, and schedules [c] in the retry queue at the clock
    reading plus the accumulated delay of [c]: after [now] when that delay
    is positive. *)
Theorem QueueLoadBacklog_no_failure b c seed now :
  queue_ok (loadRetries b) →
  ∃ b', QueueLoadBacklog b c false seed now = Some b'
    ∧ loadFailures b' = loadFailures b
    ∧ entries (items (loadRetries b')) c = [(c, Add now (loadFailuresOf b c))]
    ∧ ((0 < loadFailuresOf b c)%Z → (now < Add now (loadFailuresOf b c))%Z).
Proof.
  intros Hok. unfold QueueLoadBacklog. simpl.
  destruct (QueueLoadBacklog_update_ok b c (loadFailuresOf b c) now Hok)
    as (b' & -> & Hlf & _ & _ & _ & _ & _ & Hent).
  exists b'. split_and!; try done. unfold Add. lia.
Qed.

Lemma sample_queue_ok : queue_ok sample_queue.
Proof.
  destruct sample_queue_reached as [Hnew Hrun]. by eapply reachable_ok.
Qed.

Lemma QueueLoadBacklog_no_failure_witness :
  ∃ b', QueueLoadBacklog sample_bot 1 false 0 100 = Some b'
    ∧ loadFailures b' = loadFailures sample_bot
    ∧ entries (items (loadRetries b')) 1 = [(1, 3000000100%Z)]
    ∧ ((0 < loadFailuresOf sample_bot 1)%Z
       → (100 < Add 100 (loadFailuresOf sample_bot 1))%Z).
Proof.
  apply (QueueLoadBacklog_no_failure sample_bot 1 0 100 sample_queue_ok).
Defined.

(** C5, as the code has it.  On a failure the new delay is twice the old one
    plus a jitter [r] of [[0, 5s)], provided that sum fits [int64]: then it
    lies in [[2 * old, 2 * old + 5s)], is not below the old delay, and the
    channel is scheduled in the retry queue at the clock reading plus the
    new delay. *)
Theorem QueueLoadBacklog_failure_backoff b c seed now :
  queue_ok (loadRetries b) →
  (0 ≤ loadFailuresOf b c)%Z →
  (2 * loadFailuresOf b c + seed mod (5 * Second) ≤ int64_max)%Z →
  ∃ b' r, QueueLoadBacklog b c true seed now = Some b'
    ∧ Intn (5 * Second) seed = Some r
    ∧ (0 ≤ r < 5 * Second)%Z
    ∧ (loadFailuresOf b' c = 2 * loadFailuresOf b c + r)%Z
    ∧ (2 * loadFailuresOf b c ≤ loadFailuresOf b' c
       < 2 * loadFailuresOf b c + 5 * Second)%Z
    ∧ (loadFailuresOf b c ≤ loadFailuresOf b' c)%Z
    ∧ entries (items (loadRetries b')) c = [(c, Add now (loadFailuresOf b' c))].
Proof.
  intros Hok Hpos Hfit.
  destruct (Intn_range (5 * Second) seed) as (r & Hr & Hrmod & Hrange); [done|].
  unfold QueueLoadBacklog. rewrite QueueLoadBacklog_delay_fail. simpl.
  set (d := wrap64 _).
  assert (d = (2 * loadFailuresOf b c + r)%Z) as Hd.
  { unfold d. rewrite <- Hrmod in *.
    rewrite (wrap64_id (loadFailuresOf b c * 2))
      by (unfold int64_min, int64_max, Second in *; lia).
    rewrite wrap64_id by (unfold int64_min, int64_max, Second in *; lia).
    lia. }
  destruct (QueueLoadBacklog_update_ok (with_loadFailures b c d) c d now Hok)
    as (b' & -> & Hlf & _ & _ & _ & _ & _ & Hent).
  assert (loadFailuresOf b' c = d) as Hnew.
  { unfold loadFailuresOf at 1. rewrite Hlf.
    change (loadFailuresOf (with_loadFailures b c d) c = d).
    rewrite loadFailuresOf_insert. by case_decide. }
  exists b', r. rewrite Hnew. split_and!; try done; lia.
Qed.

Lemma QueueLoadBacklog_failure_backoff_witness :
  ∃ b' r, QueueLoadBacklog sample_bot 1 true 7000000123 100 = Some b'
    ∧ Intn (5 * Second) 7000000123 = Some r
    ∧ (0 ≤ r < 5 * Second)%Z
    ∧ (loadFailuresOf b' 1 = 2 * loadFailuresOf sample_bot 1 + r)%Z
    ∧ (2 * loadFailuresOf sample_bot 1 ≤ loadFailuresOf b' 1
       < 2 * loadFailuresOf sample_bot 1 + 5 * Second)%Z
    ∧ (loadFailuresOf sample_bot 1 ≤ loadFailuresOf b' 1)%Z
    ∧ entries (items (loadRetries b')) 1 = [(1, Add 100 (loadFailuresOf b' 1))].
Proof.
  apply (QueueLoadBacklog_failure_backoff sample_bot 1 7000000123 100 sample_queue_ok).
  - vm_compute. discriminate.
  - vm_compute. discriminate.
Defined.

(** C5 as stated fails where the doubling leaves [int64]: the delay is not
    negative, yet the new delay is below twice the old one, and below the
    old one. *)
Lemma backoff_overflow_counterexample :
  (0 ≤ loadFailuresOf overflow_bot 1)%Z
  ∧ ∃ b', QueueLoadBacklog overflow_bot 1 true 0 100 = Some b'
      ∧ loadFailuresOf b' 1 = (- 2 ^ 63)%Z
      ∧ ¬ (2 * loadFailuresOf overflow_bot 1 ≤ loadFailuresOf b' 1)%Z
      ∧ ¬ (loadFailuresOf overflow_bot 1 ≤ loadFailuresOf b' 1)%Z
      ∧ entries (items (loadRetries b')) 1 = [(1, (100 - 2 ^ 63)%Z)].
Proof.
  split; [vm_compute; discriminate|].
  eexists. split; [vm_compute; reflexivity|].
  split_and!; vm_compute; congruence.
Qed.

(** The overflow is reached from a fresh channel: 30 failures in a row with
    the largest jitter leave a positive delay, and one more makes it negative. *)
Lemma backoff_overflow_reached :
  ∃ b30 b31,
    fail_times 30 (mkBot (mkQueue [] 0 2 ∅) (mkQueue [] 0 2 ∅) ∅) 1 4999999999
      = Some b30
    ∧ fail_times 1 b30 1 4999999999 = Some b31
    ∧ (0 < loadFailuresOf b30 1)%Z
    ∧ (loadFailuresOf b31 1 < 0)%Z.
Proof.
  eexists _, _. split; [vm_compute; reflexivity|].
  split; [vm_compute; reflexivity|]. split; vm_compute; reflexivity.
Qed.

(** * Properties of the scheduler and the workers *)

Section system_facts.
Implicit Types (s : system) (b : Bot) (q : reapQueue) (i : instance) (qr : qref).

Lemma Update_counters q c t q' : Update q c t = Some q' → counters q' = counters q.
Proof. unfold Update. intros H. by simplify_option_eq. Qed.

Lemma WaitForNext_pass_counters q now r q' :
  WaitForNext_pass q now = Some (r, q') → counters q' = counters q.
Proof.
  unfold WaitForNext_pass. intros H.
  repeat case_match; by simplify_option_eq.
Qed.

Lemma QueueReap_counters b c t b' qr :
  QueueReap b c t = Some b' → counters (queue_of b' qr) = counters (queue_of b qr).
Proof.
  unfold QueueReap. intros H. simplify_option_eq.
  destruct qr; simpl; [by eapply Update_counters|done].
Qed.

Lemma CancelReap_counters b c b' qr :
  CancelReap b c = Some b' → counters (queue_of b' qr) = counters (queue_of b qr).
Proof. apply QueueReap_counters. Qed.

Lemma QueueLoadBacklog_delay_queues b c didFail seed b' d qr :
  QueueLoadBacklog_delay b c didFail seed = Some (b', d) →
  queue_of b' qr = queue_of b qr.
Proof.
  unfold QueueLoadBacklog_delay. intros H.
  destruct didFail; simplify_option_eq; by destruct qr.
Qed.

Lemma QueueLoadBacklog_update_counters b c d now b' qr :
  QueueLoadBacklog_update b c d now = Some b' →
  counters (queue_of b' qr) = counters (queue_of b qr).
Proof.
  unfold QueueLoadBacklog_update. intros H. simplify_option_eq.
  destruct qr; simpl; [done|by eapply Update_counters].
Qed.

Lemma QueueLoadBacklog_counters b c didFail seed now b' qr :
  QueueLoadBacklog b c didFail seed now = Some b' →
  counters (queue_of b' qr) = counters (queue_of b qr).
Proof.
  unfold QueueLoadBacklog. intros H.
  destruct (QueueLoadBacklog_delay b c didFail seed) as [[b1 d]|] eqn:Hd;
    simpl in H; [|done].
  rewrite (QueueLoadBacklog_update_counters _ _ _ _ _ qr H).
  by rewrite (QueueLoadBacklog_delay_queues _ _ _ _ _ _ qr Hd).
Qed.

Lemma live_spawn i m : live (spawn i m) = S (live i).
Proof.
  unfold live, spawn. simpl. rewrite sum_list_with_app. simpl. lia.
Qed.

Lemma live_with_sched i p : live (with_sched i p) = live i.
Proof. done. Qed.

Lemma live_with_worker i w wk p :
  workers i !! w = Some wk →
  live (with_worker i w p) + alive (pc wk) = live i + alive p.
Proof.
  unfold live, with_worker. simpl. generalize (workers i). clear i.
  intros l. revert w. induction l as [|x l IH]; intros [|w] Hw; simpl in *;
    simplify_eq; [lia|].
  specialize (IH w Hw). unfold alter in IH. lia.
Qed.

Lemma queue_of_with_queue b qr q qr' :
  queue_of (with_queue b qr q) qr' = if decide (qr = qr') then q else queue_of b qr'.
Proof. by destruct qr, qr'. Qed.

Lemma inst_of_with_inst s qr i qr' :
  inst_of (with_inst s qr i) qr' = if decide (qr = qr') then i else inst_of s qr'.
Proof. by destruct qr, qr'. Qed.

Lemma bot_with_inst s qr i : bot (with_inst s qr i) = bot s.
Proof. by destruct qr. Qed.

Lemma worker_pc_Some i w p :
  worker_pc i w = Some p → ∃ wk, workers i !! w = Some wk ∧ pc wk = p.
Proof.
  unfold worker_pc. destruct (workers i !! w) as [wk|]; simpl; [|done].
  intros [= <-]. by exists wk.
Qed.

Lemma send_token_Some q q' :
  send_token q = Some q' →
  controlCh q < controlCap q ∧ q' = with_controlCh q (S (controlCh q)).
Proof. unfold send_token. case_decide; [|done]. by intros [= <-]. Qed.

Lemma loadWorker_deferred_Some q q' :
  loadWorker_deferred q = Some q' →
  controlCh q = S (controlCh q') ∧ controlCap q' = controlCap q
  ∧ curWork q' = curWork q.
Proof.
  unfold loadWorker_deferred. destruct (controlCh q) eqn:H; [done|].
  by intros [= <-].
Qed.

Lemma reapScheduler_check_pool q c :
  controlCh (reapScheduler_check q c).1 = controlCh q
  ∧ controlCap (reapScheduler_check q c).1 = controlCap q
  ∧ starting_pc (reapScheduler_check q c).2 = 0.
Proof. unfold reapScheduler_check. by case_bool_decide. Qed.

Lemma loadWorker_work_pool q c d err :
  controlCh (loadWorker_work q c d err).1 = controlCh q
  ∧ controlCap (loadWorker_work q c d err).1 = controlCap q
  ∧ alive (loadWorker_work q c d err).2 = 1.
Proof. unfold loadWorker_work. by repeat case_match. Qed.

Lemma reapWorker_work_pool q c col rp crit :
  controlCh (reapWorker_work q c col rp crit).1 = controlCh q
  ∧ controlCap (reapWorker_work q c col rp crit).1 = controlCap q
  ∧ alive (reapWorker_work q c col rp crit).2 = 1.
Proof. unfold reapWorker_work. by repeat case_match. Qed.

Lemma counters_eq q q' :
  counters q' = counters q →
  controlCh q' = controlCh q ∧ controlCap q' = controlCap q ∧ curWork q' = curWork q.
Proof. unfold counters. by intros [= -> -> ->]. Qed.

Lemma queue_of_with_queue_eq b qr q : queue_of (with_queue b qr q) qr = q.
Proof. rewrite queue_of_with_queue. by case_decide. Qed.

Lemma queue_of_with_queue_ne b qr q qr' :
  qr' ≠ qr → queue_of (with_queue b qr q) qr' = queue_of b qr'.
Proof. intros. rewrite queue_of_with_queue. by case_decide. Qed.

End system_facts.

(** Case analysis on a transition [H : gstep _ _ _ e = Some _] once [e] has
    been destructed. *)
Ltac gstep_inv H :=
  unfold gstep in H;
  repeat (case_match; simplify_eq/=; try done);
  simplify_option_eq.

Lemma queue_of_with_loadFailures (b : Bot) c d qr :
  queue_of (with_loadFailures b c d) qr = queue_of b qr.
Proof. by destruct qr. Qed.

(** Replaces the calls left by [gstep_inv] with what they do to the counters
    of the queue [qr] and to the number of live workers. *)
Ltac use_facts qr :=
  repeat match goal with
  | p : _ * _ |- _ => destruct p
  | H : send_token _ = Some _ |- _ => apply send_token_Some in H as [? ->]
  | H : loadWorker_deferred _ = Some _ |- _ =>
      apply loadWorker_deferred_Some in H as (? & ? & ?)
  | H : worker_pc _ _ = Some _ |- _ => apply worker_pc_Some in H as (? & ? & ?)
  | H : WaitForNext_pass _ _ = Some _ |- _ =>
      apply WaitForNext_pass_counters, counters_eq in H as (? & ? & ?)
  | H : QueueReap _ _ _ = Some _ |- _ =>
      apply (QueueReap_counters _ _ _ _ qr), counters_eq in H as (? & ? & ?)
  | H : QueueLoadBacklog_update _ _ _ _ = Some _ |- _ =>
      apply (QueueLoadBacklog_update_counters _ _ _ _ _ qr), counters_eq
        in H as (? & ? & ?)
  | H : QueueLoadBacklog_delay _ _ _ _ = Some _ |- _ =>
      apply (QueueLoadBacklog_delay_queues _ _ _ _ _ _ qr) in H
  | H : workers ?i !! ?w = Some ?wk |- context [with_worker ?i ?w ?p] =>
      pose proof (live_with_worker i w wk p H); clear H
  | |- context [reapScheduler_check ?q ?c] =>
      pose proof (reapScheduler_check_pool q c) as (? & ? & ?);
      destruct (reapScheduler_check q c)
  | |- context [loadWorker_work ?q ?c ?d ?e] =>
      pose proof (loadWorker_work_pool q c d e) as (? & ? & ?);
      destruct (loadWorker_work q c d e)
  | |- context [reapWorker_work ?q ?c ?d ?e ?f] =>
      pose proof (reapWorker_work_pool q c d e f) as (? & ? & ?);
      destruct (reapWorker_work q c d e f)
  | |- context [loadWorker_timer ?w] =>
      unfold loadWorker_timer in *; destruct (mayTimeout w)
  | w : waitResult |- _ => destruct w
  | H : pc _ = _ |- _ => rewrite H in *; clear H
  end.

(** Picks the case of [pool_change] that holds. *)
Ltac pool_finish :=
  simpl in *; rewrite ?live_with_sched, ?live_spawn, ?queue_of_with_loadFailures in *;
  repeat match goal with H : sched _ = _ |- _ => rewrite H in *; clear H end;
  first [ apply pool_same; simpl; lia
        | apply pool_token; simpl; lia
        | apply pool_start; simpl; lia
        | apply pool_return; simpl; lia
        | apply pool_release; simpl; lia ].

Section pool_facts.
Implicit Types (s : system) (b : Bot) (q : reapQueue) (i : instance) (qr : qref).

Lemma gstep_pool b qr i e b' i' tr :
  gstep b qr i e = Some (b', i', tr) →
  pool_change
    (controlCh (queue_of b qr)) (controlCap (queue_of b qr)) (live i) (starting i)
    (controlCh (queue_of b' qr)) (controlCap (queue_of b' qr)) (live i') (starting i')
  ∧ ∀ qr', qr' ≠ qr → counters (queue_of b' qr') = counters (queue_of b qr').
Proof.
  intros H. split.
  - destruct e; gstep_inv H; rewrite ?queue_of_with_queue_eq.
    all: unfold starting; simpl.
    all: use_facts qr.
    all: pool_finish.
  - intros qr' Hne. move H at bottom.
    destruct e; gstep_inv H; rewrite ?queue_of_with_queue_ne by done; try done.
    all: use_facts qr'; try done.
    all: unfold counters; rewrite ?queue_of_with_loadFailures; congruence.
Qed.

Lemma step_pool s e s' tr qr :
  step s e = Some (s', tr) →
  pool_change
    (controlCh (queue_of (bot s) qr)) (controlCap (queue_of (bot s) qr))
    (live (inst_of s qr)) (starting (inst_of s qr))
    (controlCh (queue_of (bot s') qr)) (controlCap (queue_of (bot s') qr))
    (live (inst_of s' qr)) (starting (inst_of s' qr)).
Proof.
  intros H. destruct e as [qr0 e|c t|c|c d seed|c d now]; simpl in H.
  - destruct (gstep (bot s) qr0 (inst_of s qr0) e) as [[[b' i'] tr']|] eqn:Hg;
      simpl in H; [|done]. simplify_eq.
    destruct (gstep_pool _ _ _ _ _ _ _ Hg) as [Hown Hother].
    rewrite bot_with_inst, inst_of_with_inst. simpl.
    case_decide as Hq; [by subst|].
    destruct (counters_eq _ _ (Hother qr ltac:(done))) as (-> & -> & _).
    by apply pool_same.
  - destruct (QueueReap (bot s) c t) as [b'|] eqn:Hb; simpl in H; [|done].
    simplify_eq. simpl.
    destruct (counters_eq _ _ (QueueReap_counters _ _ _ _ qr Hb)) as (-> & -> & _).
    apply pool_same; by destruct qr.
  - destruct (CancelReap (bot s) c) as [b'|] eqn:Hb; simpl in H; [|done].
    simplify_eq. simpl.
    destruct (counters_eq _ _ (CancelReap_counters _ _ _ qr Hb)) as (-> & -> & _).
    apply pool_same; by destruct qr.
  - destruct (QueueLoadBacklog_delay (bot s) c d seed) as [[b' d']|] eqn:Hb;
      simpl in H; [|done].
    simplify_eq. simpl.
    rewrite (QueueLoadBacklog_delay_queues _ _ _ _ _ _ qr Hb).
    apply pool_same; by destruct qr.
  - destruct (QueueLoadBacklog_update (bot s) c d now) as [b'|] eqn:Hb;
      simpl in H; [|done].
    simplify_eq. simpl.
    destruct (counters_eq _ _ (QueueLoadBacklog_update_counters _ _ _ _ _ qr Hb))
      as (-> & -> & _).
    apply pool_same; by destruct qr.
Qed.

Lemma step_pool_inv s e s' tr qr :
  step s e = Some (s', tr) → pool_inv s qr →
  pool_inv s' qr
  ∧ controlCap (queue_of (bot s') qr) = controlCap (queue_of (bot s) qr).
Proof.
  intros H [Hlive Hcap]. unfold pool_inv.
  destruct (step_pool _ _ _ _ qr H); lia.
Qed.

Lemma run_pool_inv es : ∀ s s' tr qr,
  run s es = Some (s', tr) → pool_inv s qr →
  pool_inv s' qr
  ∧ controlCap (queue_of (bot s') qr) = controlCap (queue_of (bot s) qr).
Proof.
  induction es as [|e es IH]; intros s s' tr qr Hrun Hinv; simpl in Hrun.
  - by simplify_eq.
  - destruct (step s e) as [[s1 tr1]|] eqn:Hstep; simpl in Hrun; [|done].
    destruct (run s1 es) as [[s2 tr2]|] eqn:Hrest; simpl in Hrun; [|done].
    simplify_eq.
    destruct (step_pool_inv _ _ _ _ qr Hstep Hinv) as [Hinv1 Hcap1].
    destruct (IH _ _ _ qr Hrest Hinv1) as [Hinv2 Hcap2].
    split; [done|congruence].
Qed.

Lemma initial_spec mr ml fr fl s0 :
  initial mr ml fr fl = Some s0 →
  (0 ≤ mr)%Z ∧ (0 ≤ ml)%Z
  ∧ s0 = mkSystem (mkBot (mkQueue [] 0 (Z.to_nat mr) ∅) (mkQueue [] 0 (Z.to_nat ml) ∅) ∅)
           (mkInstance fr SchedStart []) (mkInstance fl SchedStart []).
Proof.
  unfold initial. intros H.
  destruct (newReapQueue mr) as [qr|] eqn:Hr; simpl in H; [|done].
  destruct (newReapQueue ml) as [ql|] eqn:Hl; simpl in H; [|done].
  apply newReapQueue_spec in Hr as [? ->], Hl as [? ->]. by simplify_eq.
Qed.
End pool_facts.

(** As [use_facts], keeping [reapScheduler_check] and the workers' functions
    for the reasoning on [curWork]. *)
Ltac use_curWork qr :=
  repeat match goal with
  | p : _ * _ |- _ => destruct p
  | H : send_token _ = Some _ |- _ => apply send_token_Some in H as [? ->]
  | H : loadWorker_deferred _ = Some _ |- _ =>
      apply loadWorker_deferred_Some in H as (? & ? & ?)
  | H : WaitForNext_pass _ _ = Some _ |- _ =>
      apply WaitForNext_pass_counters, counters_eq in H as (? & ? & ?)
  | H : QueueReap _ _ _ = Some _ |- _ =>
      apply (QueueReap_counters _ _ _ _ qr), counters_eq in H as (? & ? & ?)
  | H : QueueLoadBacklog_update _ _ _ _ = Some _ |- _ =>
      apply (QueueLoadBacklog_update_counters _ _ _ _ _ qr), counters_eq
        in H as (? & ? & ?)
  | |- context [loadWorker_timer ?w] =>
      unfold loadWorker_timer in *; destruct (mayTimeout w)
  end.

Section dispatch_facts.
Implicit Types (s : system) (b : Bot) (q : reapQueue) (i : instance) (qr : qref).

Lemma gstep_curWork b qr i e b' i' tr :
  gstep b qr i e = Some (b', i', tr) →
  (tr = [] ∨ ∃ x, tr = [x])
  ∧ (∀ qr' c, (Dispatch qr' c) ∈ tr →
       qr' = qr ∧ (c ∉ curWork (queue_of b qr)) ∧ c ∈ curWork (queue_of b' qr))
  ∧ (∀ c, c ∈ curWork (queue_of b qr) →
       c ∈ curWork (queue_of b' qr) ∨ (Remove qr c) ∈ tr).
Proof.
  intros H.
  destruct e; gstep_inv H;
    rewrite ?queue_of_with_queue_eq, ?queue_of_with_loadFailures.
  all: use_curWork qr.
  all: unfold reapScheduler_check, loadWorker_work, reapWorker_work in *.
  all: repeat case_match; simplify_eq/=.
  all: repeat match goal with
       | H : bool_decide _ = false |- _ => apply bool_decide_eq_false in H
       | H : bool_decide _ = true |- _ => apply bool_decide_eq_true in H
       end.
  all: split_and!; [eauto| |].
  all: match goal with
       | |- ∀ qr' c, _ ∈ _ → _ =>
           intros qr' c' Hd;
           rewrite ?list_elem_of_singleton, ?elem_of_nil in Hd;
           try done; try discriminate Hd;
           injection Hd as -> ->; set_solver
       | |- ∀ c, _ ∈ _ → _ ∨ _ =>
           intros c' Hc; rewrite ?list_elem_of_singleton; try (left; congruence)
       end.
  all: match goal with
       | |- _ ∈ _ ∖ {[?c]} ∨ _ =>
           destruct (decide (c' = c)) as [->|Hne]; [by right|left; set_solver]
       | |- _ => left; set_solver
       end.
Qed.
End dispatch_facts.

Section trace_facts.
Implicit Types (s : system) (qr : qref) (c : chanRef).

Lemma run_cons s e es :
  run s (e :: es) =
    r ← step s e; r' ← run r.1 es; Some (r'.1, r.2 ++ r'.2).
Proof. done. Qed.

Lemma step_curWork s e s' tr qr :
  step s e = Some (s', tr) →
  (tr = [] ∨ ∃ x, tr = [x])
  ∧ (∀ c, (Dispatch qr c) ∈ tr → (c ∉ in_flight s qr) ∧ c ∈ in_flight s' qr)
  ∧ (∀ c, c ∈ in_flight s qr → c ∈ in_flight s' qr ∨ (Remove qr c) ∈ tr).
Proof.
  intros H. unfold in_flight.
  destruct e as [qr0 e|c0 t|c0|c0 d seed|c0 d now]; simpl in H.
  - destruct (gstep (bot s) qr0 (inst_of s qr0) e) as [[[b' i'] tr']|] eqn:Hg;
      simpl in H; [|done]. simplify_eq.
    destruct (gstep_curWork _ _ _ _ _ _ _ Hg) as (Hone & Hdisp & Hkeep).
    destruct (gstep_pool _ _ _ _ _ _ _ Hg) as [_ Hother].
    rewrite bot_with_inst. simpl.
    destruct (decide (qr = qr0)) as [->|Hne].
    + split_and!; [done| |done]. intros c Hc. by destruct (Hdisp _ _ Hc) as (_ & ? & ?).
    + destruct (counters_eq _ _ (Hother qr Hne)) as (_ & _ & ->).
      split_and!; [done| |by left].
      intros c Hc. by destruct (Hdisp _ _ Hc) as (? & _).
  - destruct (QueueReap (bot s) c0 t) as [b'|] eqn:Hb; simpl in H; [|done].
    simplify_eq. simpl.
    destruct (counters_eq _ _ (QueueReap_counters _ _ _ _ qr Hb)) as (_ & _ & ->).
    split_and!; [by left|intros c Hc; by apply elem_of_nil in Hc|by left].
  - destruct (CancelReap (bot s) c0) as [b'|] eqn:Hb; simpl in H; [|done].
    simplify_eq. simpl.
    destruct (counters_eq _ _ (CancelReap_counters _ _ _ qr Hb)) as (_ & _ & ->).
    split_and!; [by left|intros c Hc; by apply elem_of_nil in Hc|by left].
  - destruct (QueueLoadBacklog_delay (bot s) c0 d seed) as [[b' d']|] eqn:Hb;
      simpl in H; [|done].
    simplify_eq. simpl.
    rewrite (QueueLoadBacklog_delay_queues _ _ _ _ _ _ qr Hb).
    split_and!; [by left|intros c Hc; by apply elem_of_nil in Hc|by left].
  - destruct (QueueLoadBacklog_update (bot s) c0 d now) as [b'|] eqn:Hb;
      simpl in H; [|done].
    simplify_eq. simpl.
    destruct (counters_eq _ _ (QueueLoadBacklog_update_counters _ _ _ _ _ qr Hb))
      as (_ & _ & ->).
    split_and!; [by left|intros c Hc; by apply elem_of_nil in Hc|by left].
Qed.

(** While [c] is in flight it is not dispatched: in a run that starts with
    [c] in [curWork], a [Dispatch] of [c] comes after a [Remove] of [c]. *)
Lemma run_in_flight es : ∀ s s' tr qr c tr1 tr2,
  run s es = Some (s', tr) → c ∈ in_flight s qr →
  tr = tr1 ++ Dispatch qr c :: tr2 →
  (Remove qr c) ∈ tr1.
Proof.
  induction es as [|e es IH]; intros s s' tr qr c tr1 tr2 Hrun Hin Htr.
  { simpl in Hrun. simplify_eq. by destruct tr1. }
  rewrite run_cons in Hrun.
  destruct (step s e) as [[s1 a]|] eqn:Hstep; simpl in Hrun; [|done].
  destruct (run s1 es) as [[s2 tr']|] eqn:Hrest; simpl in Hrun; [|done].
  simplify_eq.
  destruct (step_curWork _ _ _ _ qr Hstep) as (Hone & Hdisp & Hkeep).
  destruct Hone as [->|[x ->]]; simpl in *.
  - destruct (Hkeep c Hin) as [Hin1|Hrm]; [|by apply elem_of_nil in Hrm].
    by eapply IH.
  - destruct tr1 as [|y tr1]; simpl in *; simplify_eq.
    + destruct (Hdisp c) as [Hnot _]; [by apply list_elem_of_singleton|done].
    + destruct (Hkeep c Hin) as [Hin1|Hrm].
      * apply list_elem_of_further. by eapply IH.
      * apply list_elem_of_singleton in Hrm as <-. apply list_elem_of_here.
Qed.

Lemma run_dispatch_twice es : ∀ s s' tr qr c tr1 tr2 tr3,
  run s es = Some (s', tr) →
  tr = tr1 ++ Dispatch qr c :: tr2 ++ Dispatch qr c :: tr3 →
  (Remove qr c) ∈ tr2.
Proof.
  induction es as [|e es IH]; intros s s' tr qr c tr1 tr2 tr3 Hrun Htr.
  { simpl in Hrun. simplify_eq. by destruct tr1. }
  rewrite run_cons in Hrun.
  destruct (step s e) as [[s1 a]|] eqn:Hstep; simpl in Hrun; [|done].
  destruct (run s1 es) as [[s2 tr']|] eqn:Hrest; simpl in Hrun; [|done].
  simplify_eq.
  destruct (step_curWork _ _ _ _ qr Hstep) as (Hone & Hdisp & Hkeep).
  destruct Hone as [->|[x ->]]; simpl in *.
  - by eapply IH.
  - destruct tr1 as [|y tr1]; simpl in *; simplify_eq.
    + destruct (Hdisp c) as [_ Hin1]; [by apply list_elem_of_singleton|].
      by eapply run_in_flight.
    + by eapply IH.
Qed.
End trace_facts.

Section exclusion_facts.
Implicit Types (s : system) (b : Bot) (q : reapQueue) (i : instance) (qr : qref).

Lemma holding_alter (l : list worker) w wk p c :
  l !! w = Some wk →
  sum_list_with (λ x, holding c (pc x)) (alter (λ x, mkWorker (mayTimeout x) p) w l)
    + holding c (pc wk)
  = sum_list_with (λ x, holding c (pc x)) l + holding c p.
Proof.
  revert w. induction l as [|x l IH]; intros [|w] Hw; simpl in *;
    simplify_eq; [lia|].
  specialize (IH w Hw). unfold alter in IH. lia.
Qed.

Lemma holding_snoc (l : list worker) m c :
  sum_list_with (λ x, holding c (pc x)) (l ++ [mkWorker m AtReceive])
  = sum_list_with (λ x, holding c (pc x)) l.
Proof. rewrite sum_list_with_app. simpl. lia. Qed.

Lemma gstep_exclusive b qr i e b' i' tr :
  exclusive b qr i → gstep b qr i e = Some (b', i', tr) → exclusive b' qr i'.
Proof.
  intros Hex H c0. specialize (Hex c0). unfold holders in *.
  destruct e; gstep_inv H; rewrite ?queue_of_with_queue_eq.
  all: repeat match goal with
       | p : _ * _ |- _ => destruct p
       | H : send_token _ = Some _ |- _ => apply send_token_Some in H as [? ->]
       | H : loadWorker_deferred _ = Some _ |- _ =>
           apply loadWorker_deferred_Some in H as (? & ? & ?)
       | H : worker_pc _ _ = Some _ |- _ => apply worker_pc_Some in H as (? & ? & ?)
       | H : WaitForNext_pass _ _ = Some _ |- _ =>
           apply WaitForNext_pass_counters, counters_eq in H as (? & ? & ?)
       | H : QueueReap _ _ _ = Some _ |- _ =>
           apply (QueueReap_counters _ _ _ _ qr), counters_eq in H as (? & ? & ?)
       | H : QueueLoadBacklog_update _ _ _ _ = Some _ |- _ =>
           apply (QueueLoadBacklog_update_counters _ _ _ _ _ qr), counters_eq
             in H as (? & ? & ?)
       | |- context [loadWorker_timer ?w] =>
           unfold loadWorker_timer in *; destruct (mayTimeout w)
       | w : waitResult |- _ => destruct w
       end.
  all: unfold reapScheduler_check, loadWorker_work, reapWorker_work in *.
  all: repeat (case_match; simplify_eq/=).
  all: rewrite ?holding_snoc, ?queue_of_with_loadFailures in *.
  all: repeat match goal with
       | H : workers ?i !! ?w = Some ?wk
         |- context [alter (λ x, mkWorker (mayTimeout x) ?p) ?w (workers ?i)] =>
           pose proof (holding_alter (workers i) w wk p c0 H); clear H
       | H : pc _ = _ |- _ => rewrite H in *; clear H
       | H : sched _ = _ |- _ => rewrite H in *; clear H
       | H : bool_decide _ = false |- _ => apply bool_decide_eq_false in H
       | H : bool_decide _ = true |- _ => apply bool_decide_eq_true in H
       | H : curWork _ = curWork _ |- _ => rewrite H in *; clear H
       end.
  all: simpl in *.
  all: repeat case_decide; subst.
  all: destruct Hex as [Hle Himp].
  all: try (split; [lia|]; intros Hpos;
            first [ exfalso; lia
                  | apply Himp; lia
                  | apply elem_of_difference; split;
                    [apply Himp; lia|rewrite elem_of_singleton; congruence]
                  | apply elem_of_union; right; apply Himp; lia ]).
  assert (¬ 0 < sum_list_with (λ w, holding c0 (pc w)) (workers i) + 0) as Hz
    by (intros Hpos; by apply H, Himp).
  split; [lia|intros _]. apply elem_of_union. left. by apply elem_of_singleton.
Qed.

Lemma step_exclusive s e s' tr qr :
  exclusive (bot s) qr (inst_of s qr) → step s e = Some (s', tr) →
  exclusive (bot s') qr (inst_of s' qr).
Proof.
  intros Hex H.
  destruct e as [qr0 e|c0 t|c0|c0 d seed|c0 d now]; simpl in H.
  - destruct (gstep (bot s) qr0 (inst_of s qr0) e) as [[[b' i'] tr']|] eqn:Hg;
      simpl in H; [|done]. simplify_eq.
    rewrite bot_with_inst, inst_of_with_inst. simpl.
    case_decide as Hq.
    + subst qr0. by eapply gstep_exclusive.
    + destruct (gstep_pool _ _ _ _ _ _ _ Hg) as [_ Hother].
      destruct (counters_eq _ _ (Hother qr ltac:(done))) as (_ & _ & Hcur).
      intros c. unfold exclusive in Hex. rewrite Hcur. apply Hex.
  - destruct (QueueReap (bot s) c0 t) as [b'|] eqn:Hb; simpl in H; [|done].
    simplify_eq. simpl.
    destruct (counters_eq _ _ (QueueReap_counters _ _ _ _ qr Hb)) as (_ & _ & Hcur).
    intros c. rewrite Hcur. destruct qr; apply Hex.
  - destruct (CancelReap (bot s) c0) as [b'|] eqn:Hb; simpl in H; [|done].
    simplify_eq. simpl.
    destruct (counters_eq _ _ (CancelReap_counters _ _ _ qr Hb)) as (_ & _ & Hcur).
    intros c. rewrite Hcur. destruct qr; apply Hex.
  - destruct (QueueLoadBacklog_delay (bot s) c0 d seed) as [[b' d']|] eqn:Hb;
      simpl in H; [|done].
    simplify_eq. simpl.
    intros c. rewrite (QueueLoadBacklog_delay_queues _ _ _ _ _ _ qr Hb).
    destruct qr; apply Hex.
  - destruct (QueueLoadBacklog_update (bot s) c0 d now) as [b'|] eqn:Hb;
      simpl in H; [|done].
    simplify_eq. simpl.
    destruct (counters_eq _ _ (QueueLoadBacklog_update_counters _ _ _ _ _ qr Hb))
      as (_ & _ & Hcur).
    intros c. rewrite Hcur. destruct qr; apply Hex.
Qed.

Lemma run_exclusive es : ∀ s s' tr qr,
  exclusive (bot s) qr (inst_of s qr) → run s es = Some (s', tr) →
  exclusive (bot s') qr (inst_of s' qr).
Proof.
  induction es as [|e es IH]; intros s s' tr qr Hex Hrun.
  { simpl in Hrun. by simplify_eq. }
  rewrite run_cons in Hrun.
  destruct (step s e) as [[s1 a]|] eqn:Hstep; simpl in Hrun; [|done].
  destruct (run s1 es) as [[s2 tr']|] eqn:Hrest; simpl in Hrun; [|done].
  simplify_eq. eapply IH; [|done]. by eapply step_exclusive.
Qed.

(** In every state the service reaches, no two goroutines of a queue hold
    the work item of the same channel: not two workers, and not a worker
    and the scheduler. *)
Lemma reachable_exclusive mr ml fr fl s0 es s tr qr :
  initial mr ml fr fl = Some s0 → run s0 es = Some (s, tr) →
  exclusive (bot s) qr (inst_of s qr).
Proof.
  intros Hinit Hrun. eapply run_exclusive; [|done].
  destruct (initial_spec _ _ _ _ _ Hinit) as (_ & _ & ->).
  intros c. unfold holders. destruct qr; simpl; split; lia.
Qed.
End exclusion_facts.

(** C3.  In every run of the service, between two dispatches of a channel
    by the scheduler of a queue some worker of that queue removed the
    channel from [curWork]; in no reachable state does a transition
    dispatch a channel that is in [curWork]; when the scheduler has
    popped a channel that is in [curWork], its check discards it: the
    scheduler is back in [WaitForNext], no worker received anything, and
    [curWork] is as it was; and at no time do two goroutines of the queue
    hold the work item of one channel. *)
Theorem in_flight_not_dispatched mr ml fr fl s0 es s tr qr :
  initial mr ml fr fl = Some s0 → run s0 es = Some (s, tr) →
  (∀ c tr1 tr2 tr3,
     tr = tr1 ++ Dispatch qr c :: tr2 ++ Dispatch qr c :: tr3 →
     (Remove qr c) ∈ tr2)
  ∧ (∀ c e s1 a,
       c ∈ in_flight s qr → step s e = Some (s1, a) → (Dispatch qr c) ∉ a)
  ∧ (∀ c,
       sched (inst_of s qr) = SchedPopped c → c ∈ in_flight s qr →
       ∃ s1, step s (OfQueue qr CheckCurWork) = Some (s1, [Discard qr c])
         ∧ sched (inst_of s1 qr) = SchedWait
         ∧ workers (inst_of s1 qr) = workers (inst_of s qr)
         ∧ in_flight s1 qr = in_flight s qr)
  ∧ (∀ c, holders (inst_of s qr) c ≤ 1).
Proof.
  intros Hinit Hrun. split_and!; [| | |intros c; by eapply reachable_exclusive].
  - intros c tr1 tr2 tr3 Htr. by eapply run_dispatch_twice.
  - intros c e s1 a Hin Hstep Hd.
    destruct (step_curWork _ _ _ _ qr Hstep) as (_ & Hdisp & _).
    by destruct (Hdisp c Hd).
  - intros c Hpc Hin. unfold in_flight in *. simpl. rewrite Hpc. simpl.
    unfold reapScheduler_check. rewrite bool_decide_eq_true_2 by done. simpl.
    eexists. split; [done|].
    rewrite bot_with_inst, inst_of_with_inst. simpl.
    rewrite queue_of_with_queue. by repeat case_decide.
Qed.

Lemma in_flight_not_dispatched_witness :
  initial 2 2 reapWorker loadWorker = Some sample_system
  ∧ ∃ s,
      run sample_system reap_twice
      = Some (s, [Start Reaper false; Dispatch Reaper 7; Deliver Reaper 7 0;
                  Remove Reaper 7; Dispatch Reaper 7])
      ∧ (Remove Reaper 7) ∈ [Deliver Reaper 7 0; Remove Reaper 7].
Proof.
  split; [reflexivity|]. eexists. split; [vm_compute; reflexivity|].
  refine (proj1 (in_flight_not_dispatched 2 2 reapWorker loadWorker sample_system
                   reap_twice _ _ Reaper eq_refl _)
            7 [Start Reaper false] [Deliver Reaper 7 0; Remove Reaper 7] [] eq_refl).
  vm_compute. reflexivity.
Defined.

(** C4.  In every run of the service the workers of a queue that have not
    exited, together with the one the scheduler is about to start, are no
    more than the tokens in [controlCh], and these are no more than
    [maxWorkerCount]; a worker is started only in a state in which the
    scheduler has sent its token. *)
Theorem worker_pool_bounded mr ml fr fl s0 es s tr qr :
  initial mr ml fr fl = Some s0 → run s0 es = Some (s, tr) →
  (Z.of_nat (live (inst_of s qr)) ≤ maxWorkerCount_of mr ml qr)%Z
  ∧ live (inst_of s qr) + starting (inst_of s qr) ≤ controlCh (queue_of (bot s) qr)
  ∧ (Z.of_nat (controlCh (queue_of (bot s) qr)) ≤ maxWorkerCount_of mr ml qr)%Z
  ∧ ∀ s1 tr1, step s (OfQueue qr Go) = Some (s1, tr1) →
      starting (inst_of s qr) = 1
      ∧ live (inst_of s1 qr) = S (live (inst_of s qr))
      ∧ controlCh (queue_of (bot s1) qr) = controlCh (queue_of (bot s) qr).
Proof.
  intros Hinit Hrun.
  destruct (initial_spec _ _ _ _ _ Hinit) as (Hmr & Hml & ->).
  destruct (run_pool_inv es _ _ _ qr Hrun) as [[Hlive Hch] Hcap].
  { destruct qr; split; unfold live, starting; simpl; lia. }
  assert (Z.of_nat (controlCap (queue_of (bot s) qr)) = maxWorkerCount_of mr ml qr)
    as Hmax by (rewrite Hcap; destruct qr; simpl; lia).
  split_and!; try lia.
  intros s1 tr1 Hgo.
  pose proof (step_pool _ _ _ _ qr Hgo) as Hpool.
  simpl in Hgo. unfold starting in *.
  destruct (sched (inst_of s qr)) eqn:Hs; simplify_eq/=;
    rewrite ?bot_with_inst, ?inst_of_with_inst in *; simpl in *;
    case_decide; try done; rewrite ?live_with_sched, ?live_spawn in *; done.
Qed.

Lemma worker_pool_bounded_witness :
  initial 2 2 reapWorker loadWorker = Some sample_system
  ∧ ∃ s tr,
      run sample_system grow_pool = Some (s, tr)
      ∧ live (inst_of s Reaper) = 2
      ∧ (Z.of_nat (live (inst_of s Reaper)) ≤ 2)%Z
      ∧ live (inst_of s Reaper) + starting (inst_of s Reaper)
        ≤ controlCh (queue_of (bot s) Reaper)
      ∧ step s (OfQueue Reaper SendTransientToken) = None.
Proof.
  split; [reflexivity|]. eexists _, _. split; [vm_compute; reflexivity|].
  split; [reflexivity|].
  destruct (worker_pool_bounded 2 2 reapWorker loadWorker sample_system grow_pool
              _ _ Reaper eq_refl ltac:(vm_compute; reflexivity))
    as (Hmax & Hlive & _).
  split_and!; [exact Hmax|exact Hlive|reflexivity].
Defined.

Section system_queue_facts.
Implicit Types (s : system) (b : Bot) (q : reapQueue) (i : instance) (qr : qref).

Lemma Update_Some_ok q c t q' : queue_ok q → Update q c t = Some q' → queue_ok q'.
Proof.
  intros Hok H. destruct (Update_ok q c t Hok) as (q1 & H1 & Hok1 & _). congruence.
Qed.

Lemma WaitForNext_pass_Some_ok q now r q' :
  queue_ok q → WaitForNext_pass q now = Some (r, q') → queue_ok q'.
Proof.
  intros Hok H.
  destruct (WaitForNext_pass_ok q now Hok) as (r1 & q1 & H1 & Hok1 & _). congruence.
Qed.

Lemma bot_ok_queue_of b qr : bot_ok b → queue_ok (queue_of b qr).
Proof. intros [? ?]. by destruct qr. Qed.

Lemma bot_ok_with_queue b qr q : bot_ok b → queue_ok q → bot_ok (with_queue b qr q).
Proof. intros [? ?] ?. by destruct qr. Qed.

Lemma QueueReap_Some_ok b c t b' : bot_ok b → QueueReap b c t = Some b' → bot_ok b'.
Proof.
  intros [Hr Hl] H. unfold QueueReap in H.
  destruct (Update (reaper b) c t) as [q|] eqn:Hq; simpl in H; [|done].
  simplify_eq. split; simpl; [exact (Update_Some_ok _ _ _ _ Hr Hq)|done].
Qed.

Lemma QueueLoadBacklog_delay_Some_ok b c didFail seed b' d :
  bot_ok b → QueueLoadBacklog_delay b c didFail seed = Some (b', d) → bot_ok b'.
Proof.
  intros Hok H.
  pose proof (QueueLoadBacklog_delay_queues _ _ _ _ _ _ Reaper H) as Hr.
  pose proof (QueueLoadBacklog_delay_queues _ _ _ _ _ _ LoadRetries H) as Hl.
  simpl in Hr, Hl. unfold bot_ok. by rewrite Hr, Hl.
Qed.

Lemma QueueLoadBacklog_update_Some_ok b c d now b' :
  bot_ok b → QueueLoadBacklog_update b c d now = Some b' → bot_ok b'.
Proof.
  intros [Hr Hl] H. unfold QueueLoadBacklog_update in H.
  destruct (Update (loadRetries b) c (Add now d)) as [q|] eqn:Hq; simpl in H; [|done].
  simplify_eq. split; simpl; [done|exact (Update_Some_ok _ _ _ _ Hl Hq)].
Qed.

Lemma gstep_bot_ok b qr i e b' i' tr :
  bot_ok b → gstep b qr i e = Some (b', i', tr) → bot_ok b'.
Proof.
  intros Hok H. pose proof (bot_ok_queue_of b qr Hok) as Hq.
  destruct e; gstep_inv H; try done.
  all: try (apply bot_ok_with_queue; [done|]).
  all: try match goal with
       | H : send_token _ = Some _ |- _ => by apply send_token_Some in H as [_ ->]
       | H : WaitForNext_pass _ _ = Some ?p |- _ =>
           destruct p; by eapply WaitForNext_pass_Some_ok
       | H : QueueReap _ _ _ = Some _ |- _ => by eapply QueueReap_Some_ok
       | H : QueueLoadBacklog_update _ _ _ _ = Some _ |- _ =>
           by eapply QueueLoadBacklog_update_Some_ok
       | H : loadWorker_deferred _ = Some _ |- _ =>
           unfold loadWorker_deferred in H; by repeat (case_match; simplify_eq/=)
       end.
  all: try (unfold reapScheduler_check, loadWorker_work, reapWorker_work;
            by repeat case_match).
  all: by eapply (QueueLoadBacklog_delay_Some_ok b _ true).
Qed.

Lemma step_bot_ok s e s' tr : bot_ok (bot s) → step s e = Some (s', tr) → bot_ok (bot s').
Proof.
  intros Hok H. destruct e as [qr e|c t|c|c d seed|c d now]; simpl in H.
  - destruct (gstep (bot s) qr (inst_of s qr) e) as [[[b' i'] tr']|] eqn:Hg;
      simpl in H; [|done]. simplify_eq. rewrite bot_with_inst. simpl.
    by eapply gstep_bot_ok.
  - destruct (QueueReap (bot s) c t) as [b'|] eqn:Hb; simpl in H; [|done].
    simplify_eq. by eapply QueueReap_Some_ok.
  - destruct (CancelReap (bot s) c) as [b'|] eqn:Hb; simpl in H; [|done].
    simplify_eq. by eapply QueueReap_Some_ok.
  - destruct (QueueLoadBacklog_delay (bot s) c d seed) as [[b' d']|] eqn:Hb;
      simpl in H; [|done].
    simplify_eq. by eapply QueueLoadBacklog_delay_Some_ok.
  - destruct (QueueLoadBacklog_update (bot s) c d now) as [b'|] eqn:Hb;
      simpl in H; [|done].
    simplify_eq. by eapply QueueLoadBacklog_update_Some_ok.
Qed.

(** In every state the service reaches, both heaps are in order and hold at
    most one entry per channel. *)
Lemma run_bot_ok es : ∀ s s' tr,
  bot_ok (bot s) → run s es = Some (s', tr) → bot_ok (bot s').
Proof.
  induction es as [|e es IH]; intros s s' tr Hok Hrun.
  { simpl in Hrun. by simplify_eq. }
  rewrite run_cons in Hrun.
  destruct (step s e) as [[s1 a]|] eqn:Hstep; simpl in Hrun; [|done].
  destruct (run s1 es) as [[s2 tr']|] eqn:Hrest; simpl in Hrun; [|done].
  simplify_eq. eapply IH; [|done]. by eapply step_bot_ok.
Qed.

Lemma reachable_bot_ok mr ml fr fl s0 es s tr :
  initial mr ml fr fl = Some s0 → run s0 es = Some (s, tr) → bot_ok (bot s).
Proof.
  intros Hinit Hrun. eapply run_bot_ok; [|done].
  destruct (initial_spec _ _ _ _ _ Hinit) as (_ & _ & ->).
  split; (split; [apply heapOrdered_nil|intros c; simpl; lia]).
Qed.

(** The calls of [Update] and the passes of [WaitForNext] in a reachable
    state of the service do not panic. *)
Lemma reachable_no_panic mr ml fr fl s0 es s tr qr c t now :
  initial mr ml fr fl = Some s0 → run s0 es = Some (s, tr) →
  is_Some (Update (queue_of (bot s) qr) c t)
  ∧ is_Some (WaitForNext_pass (queue_of (bot s) qr) now).
Proof.
  intros Hinit Hrun.
  pose proof (bot_ok_queue_of _ qr (reachable_bot_ok _ _ _ _ _ _ _ _ Hinit Hrun)) as Hok.
  destruct (Update_ok _ c t Hok) as (q1 & -> & _).
  destruct (WaitForNext_pass_ok _ now Hok) as (r & q2 & -> & _).
  split; by eexists.
Qed.
End system_queue_facts.

(** * The worker loops *)

Section worker_facts.
Implicit Types (b : Bot) (q : reapQueue) (i : instance) (qr : qref) (c : chanRef).

Lemma queue_ok_with_curWork q w : queue_ok q → queue_ok (with_curWork q w).
Proof. done. Qed.

Lemma QueueReap_ok b c t :
  queue_ok (reaper b) →
  ∃ b', QueueReap b c t = Some b'
    ∧ loadRetries b' = loadRetries b
    ∧ loadFailures b' = loadFailures b
    ∧ queue_ok (reaper b')
    ∧ curWork (reaper b') = curWork (reaper b)
    ∧ entries (items (reaper b')) c = [(c, t)].
Proof.
  intros Hok. unfold QueueReap.
  destruct (Update_ok _ c t Hok) as (q' & -> & Hok' & _ & _ & Hcur & Hent & _).
  simpl. eexists. by split_and!.
Qed.

Lemma QueueLoadBacklog_fail_ok b c seed now :
  queue_ok (loadRetries b) →
  ∃ b', QueueLoadBacklog b c true seed now = Some b'
    ∧ reaper b' = reaper b
    ∧ curWork (loadRetries b') = curWork (loadRetries b)
    ∧ loadFailuresOf b' c
      = wrap64 (wrap64 (loadFailuresOf b c * 2) + seed mod (5 * Second))
    ∧ entries (items (loadRetries b')) c = [(c, Add now (loadFailuresOf b' c))].
Proof.
  intros Hok. unfold QueueLoadBacklog. rewrite QueueLoadBacklog_delay_fail. simpl.
  set (d := wrap64 _).
  destruct (QueueLoadBacklog_update_ok (with_loadFailures b c d) c d now Hok)
    as (b' & -> & Hlf & Hr & _ & _ & _ & Hcur & Hent).
  assert (loadFailuresOf b' c = d) as Hnew.
  { unfold loadFailuresOf at 1. rewrite Hlf.
    change (loadFailuresOf (with_loadFailures b c d) c = d).
    rewrite loadFailuresOf_insert. by case_decide. }
  exists b'. rewrite Hnew. by split_and!.
Qed.
End worker_facts.

Section iteration_facts.
Implicit Types (s : system) (b : Bot) (q : reapQueue) (i : instance) (qr : qref).

Lemma worker_pc_with_worker i w p p0 :
  worker_pc i w = Some p0 → worker_pc (with_worker i w p) w = Some p.
Proof.
  unfold worker_pc, with_worker. simpl. rewrite list_lookup_alter_eq.
  by destruct (workers i !! w).
Qed.

Lemma step_OfQueue s qr e b' i' tr :
  gstep (bot s) qr (inst_of s qr) e = Some (b', i', tr) →
  step s (OfQueue qr e) = Some (with_inst (with_bot s b') qr i', tr)
  ∧ bot (with_inst (with_bot s b') qr i') = b'
  ∧ inst_of (with_inst (with_bot s b') qr i') qr = i'.
Proof.
  intros H. simpl. rewrite H. simpl.
  rewrite bot_with_inst, inst_of_with_inst. by case_decide.
Qed.

Lemma run_step s e es s1 a s2 tr :
  step s e = Some (s1, a) → run s1 es = Some (s2, tr) →
  run s (e :: es) = Some (s2, a ++ tr).
Proof. intros H1 H2. rewrite run_cons, H1. simpl. by rewrite H2. Qed.

(** The four transitions of a [reapWorker] that finishes an item with the
    refresh flag set, when nothing comes between them, are one
    [reapWorker_iteration]. *)
Lemma reapWorker_iteration_run s qr w c collect reaped critical reapTime seed now b' :
  wfunc (inst_of s qr) = reapWorker →
  worker_pc (inst_of s qr) w = Some (Working c) →
  (reapWorker_work (queue_of (bot s) qr) c collect reaped critical).2
    = AtQueueReap c true →
  reapWorker_iteration (bot s) qr c collect reaped critical reapTime seed now
    = Some b' →
  ∃ s', run s [OfQueue qr (ReapDone w collect reaped critical);
               OfQueue qr (DoQueueReap w reapTime);
               OfQueue qr (DoBackoff w seed);
               OfQueue qr (DoLoadRetriesUpdate w now)]
        = Some (s', [Remove qr c])
    ∧ bot s' = b'
    ∧ worker_pc (inst_of s' qr) w = Some AtReceive.
Proof.
  intros Hf Hw Hpc Hit. unfold reapWorker_iteration in Hit.
  rewrite Hpc in Hit.
  set (r := reapWorker_work (queue_of (bot s) qr) c collect reaped critical) in *.
  destruct (QueueReap (with_queue (bot s) qr r.1) c reapTime) as [b2|] eqn:Hb2;
    simpl in Hit; [|done].
  unfold QueueLoadBacklog in Hit.
  destruct (QueueLoadBacklog_delay b2 c true seed) as [[b3 d]|] eqn:Hb3;
    simpl in Hit; [|done].
  (* first transition *)
  destruct (step_OfQueue s qr (ReapDone w collect reaped critical)
              (with_queue (bot s) qr r.1)
              (with_worker (inst_of s qr) w (AtQueueReap c true)) [Remove qr c])
    as (Hs1 & Hbot1 & Hinst1).
  { simpl. rewrite Hf, Hw. fold r. by rewrite Hpc. }
  set (s1 := with_inst _ _ _) in *.
  destruct (step_OfQueue s1 qr (DoQueueReap w reapTime) b2
              (with_worker (inst_of s1 qr) w (AtQueueLoadBacklog c)) [])
    as (Hs2 & Hbot2 & Hinst2).
  { simpl. rewrite Hinst1, (worker_pc_with_worker _ _ _ _ Hw), Hbot1, Hb2. done. }
  set (s2 := with_inst (with_bot s1 b2) _ _) in *.
  assert (worker_pc (inst_of s2 qr) w = Some (AtQueueLoadBacklog c)) as Hw2.
  { rewrite Hinst2, Hinst1.
    eapply worker_pc_with_worker, worker_pc_with_worker, Hw. }
  destruct (step_OfQueue s2 qr (DoBackoff w seed) b3
              (with_worker (inst_of s2 qr) w (AtLoadRetriesUpdate c d)) [])
    as (Hs3 & Hbot3 & Hinst3).
  { simpl. rewrite Hw2, Hbot2. simpl in Hb3. by simplify_eq. }
  set (s3 := with_inst (with_bot s2 b3) _ _) in *.
  assert (worker_pc (inst_of s3 qr) w = Some (AtLoadRetriesUpdate c d)) as Hw3.
  { rewrite Hinst3. eapply worker_pc_with_worker, Hw2. }
  destruct (step_OfQueue s3 qr (DoLoadRetriesUpdate w now) b'
              (with_worker (inst_of s3 qr) w AtReceive) [])
    as (Hs4 & Hbot4 & Hinst4).
  { simpl. rewrite Hw3, Hbot3, Hit. done. }
  eexists. split_and!; [|exact Hbot4|].
  - eapply (run_step _ _ _ _ _ _ _ Hs1), (run_step _ _ _ _ _ _ _ Hs2),
      (run_step _ _ _ _ _ _ _ Hs3), (run_step _ _ _ _ _ _ _ Hs4). done.
  - rewrite Hinst4. eapply worker_pc_with_worker, Hw3.
Qed.
End iteration_facts.

(** C7, as the code has it.  When [reapWorker] finishes an item that is
    neither disabled nor dropped for a critical error, and the refresh flag
    is set (by [collectMessagesToDelete] or by an error of [Reap]), the
    channel leaves [curWork], is scheduled in the reap queue at its next
    deletion time, and goes through [QueueLoadBacklog] with [didFail] true:
    its accumulated delay becomes twice what it was plus a jitter of
    [[0, 5s)] (within [int64]), and it is due in the retry queue at the
    clock reading plus that new delay.  So it is due at the clock reading
    exactly when the new delay is zero, and after it exactly when the new
    delay is positive; when the old delay is not negative and nothing
    leaves [int64], the new delay is zero exactly when the old delay and
    the jitter are. *)
Theorem reapWorker_refresh_backs_off b qr c msgs sqb count err reapTime seed now :
  queue_ok (reaper b) → queue_ok (loadRetries b) →
  sqb = true ∨ err ≠ None →
  ∃ b', reapWorker_iteration b qr c (msgs, sqb, false) (count, err) false
          reapTime seed now = Some b'
    ∧ (c ∉ curWork (queue_of b' qr))
    ∧ entries (items (reaper b')) c = [(c, reapTime)]
    ∧ loadFailuresOf b' c
      = wrap64 (wrap64 (loadFailuresOf b c * 2) + seed mod (5 * Second))
    ∧ entries (items (loadRetries b')) c = [(c, Add now (loadFailuresOf b' c))]
    ∧ (Add now (loadFailuresOf b' c) = now ↔ loadFailuresOf b' c = 0%Z)
    ∧ ((now < Add now (loadFailuresOf b' c))%Z ↔ (0 < loadFailuresOf b' c)%Z)
    ∧ ((0 ≤ loadFailuresOf b c)%Z →
       (2 * loadFailuresOf b c + seed mod (5 * Second) ≤ int64_max)%Z →
       loadFailuresOf b' c = (2 * loadFailuresOf b c + seed mod (5 * Second))%Z
       ∧ (loadFailuresOf b' c = 0%Z
          ↔ loadFailuresOf b c = 0%Z ∧ (seed mod (5 * Second) = 0)%Z)).
Proof.
  intros Hr Hl Hflag. unfold reapWorker_iteration, reapWorker_work. simpl.
  assert (match err with Some _ => true | None => sqb end = true) as ->
    by (destruct err; [done|by destruct Hflag]).
  set (q1 := with_curWork (queue_of b qr) (curWork (queue_of b qr) ∖ {[c]})).
  set (b1 := with_queue b qr q1).
  assert (queue_ok (reaper b1) ∧ queue_ok (loadRetries b1)
          ∧ (c ∉ curWork (queue_of b1 qr))
          ∧ loadFailuresOf b1 c = loadFailuresOf b c) as (Hr1 & Hl1 & Hc1 & Hf1).
  { unfold b1, q1. destruct qr; simpl; split_and!; try done;
      apply not_elem_of_difference; right; by apply elem_of_singleton. }
  destruct (QueueReap_ok b1 c reapTime Hr1)
    as (b2 & -> & Hl2 & Hf2 & Hr2 & Hcur2 & Hent2).
  simpl. rewrite <- Hl2 in Hl1.
  destruct (QueueLoadBacklog_fail_ok b2 c seed now Hl1)
    as (b3 & -> & Hr3 & Hcur3 & Hnew & Hent3).
  assert (loadFailuresOf b3 c
          = wrap64 (wrap64 (loadFailuresOf b c * 2) + seed mod (5 * Second)))
    as Hdelay.
  { rewrite Hnew, <- Hf1. unfold loadFailuresOf. by rewrite Hf2. }
  exists b3. split_and!; try done.
  - revert Hc1. unfold b1. destruct qr; simpl in *.
    + by rewrite Hr3, Hcur2.
    + by rewrite Hcur3, Hl2.
  - by rewrite Hr3.
  - unfold Add. lia.
  - unfold Add. lia.
  - intros Hpos Hfits. rewrite Hdelay.
    assert (0 ≤ seed mod (5 * Second) < 5 * Second)%Z as Hjit
      by (apply Z.mod_pos_bound; unfold Second; lia).
    rewrite (wrap64_id (loadFailuresOf b c * 2)), wrap64_id;
      unfold int64_min, int64_max, Second in *; lia.
Qed.

Lemma reapWorker_refresh_backs_off_witness :
  ∃ b', reapWorker_iteration sample_bot Reaper 1 (3, true, false) (3%Z, None) false
          500 7000000123 100 = Some b'
    ∧ (1 ∉ curWork (queue_of b' Reaper))
    ∧ entries (items (reaper b')) 1 = [(1, 500%Z)]
    ∧ loadFailuresOf b' 1 = 8000000123%Z
    ∧ entries (items (loadRetries b')) 1 = [(1, Add 100 (loadFailuresOf b' 1))]
    ∧ (100 < Add 100 (loadFailuresOf b' 1))%Z.
Proof.
  destruct (reapWorker_refresh_backs_off sample_bot Reaper 1 3 true 3 None 500
              7000000123 100)
    as (b' & Hit & Hcur & Hreap & Hdelay & Hdue & _ & Hlater & Hfits).
  - split; [apply heapOrdered_nil|]. intros c. simpl. lia.
  - apply sample_queue_ok.
  - by left.
  - exists b'. destruct Hfits as [Hval _]; [vm_compute; discriminate..|].
    split_and!; try done. apply Hlater. rewrite Hval. vm_compute. reflexivity.
Defined.

(** C7 as stated fails: the channel, whose accumulated delay was three
    seconds, is due in the retry queue six seconds after the clock reading,
    not at it, and its accumulated delay has doubled. *)
Lemma refresh_not_immediate_counterexample :
  ∃ b', reapWorker_iteration sample_bot Reaper 1 (3, true, false) (3%Z, None) false
          500 0 100 = Some b'
    ∧ entries (items (loadRetries b')) 1 = [(1, 6000000100%Z)]
    ∧ entries (items (loadRetries b')) 1 ≠ [(1, 100%Z)]
    ∧ loadFailuresOf sample_bot 1 = 3000000000%Z
    ∧ loadFailuresOf b' 1 = 6000000000%Z.
Proof.
  eexists. split; [vm_compute; reflexivity|].
  split_and!; try (vm_compute; reflexivity). vm_compute. discriminate.
Qed.

Section exit_facts.
Implicit Types (s : system) (b : Bot) (q : reapQueue) (i : instance) (qr : qref).

Lemma all_in_loop_with_worker i w p :
  all_in_loop i → p ≠ Returned → p ≠ Exited → all_in_loop (with_worker i w p).
Proof.
  unfold all_in_loop, with_worker. simpl. intros Hall Hr He.
  apply Forall_alter; [done|]. by intros x _ _.
Qed.

Lemma all_in_loop_spawn i m : all_in_loop i → all_in_loop (spawn i m).
Proof.
  unfold all_in_loop, spawn. simpl. intros Hall.
  apply Forall_app. split; [done|]. by repeat constructor.
Qed.

Lemma all_in_loop_pc i w p :
  all_in_loop i → worker_pc i w = Some p → p ≠ Returned ∧ p ≠ Exited.
Proof.
  intros Hall (wk & Hwk & <-)%worker_pc_Some.
  by apply (Forall_lookup_1 _ _ _ _ Hall Hwk).
Qed.

(** [reapWorker] has no way out of its loop: whatever happens, its workers
    stay in the loop, no token leaves [controlCh], and no [Exit] is seen. *)
Lemma gstep_reapWorker_stays b qr i e b' i' tr :
  wfunc i = reapWorker → all_in_loop i →
  gstep b qr i e = Some (b', i', tr) →
  wfunc i' = reapWorker ∧ all_in_loop i'
  ∧ controlCh (queue_of b qr) ≤ controlCh (queue_of b' qr)
  ∧ ∀ w, (Exit qr w) ∉ tr.
Proof.
  intros Hf Hall H.
  assert (∀ w p, worker_pc i w = Some p → p ≠ Returned ∧ p ≠ Exited) as Hpc
    by (intros w p; by apply all_in_loop_pc).
  destruct e; gstep_inv H; try congruence.
  all: repeat match goal with
       | H : worker_pc _ _ = Some _ |- _ => destruct (Hpc _ _ H); clear H
       end; try congruence.
  all: rewrite ?queue_of_with_queue_eq, ?queue_of_with_loadFailures.
  all: split_and!; try done.
  all: try (intros w' Hw'; rewrite ?list_elem_of_singleton, ?elem_of_nil in Hw';
            by repeat case_match).
  all: try (apply all_in_loop_with_worker; try done).
  all: try (by apply all_in_loop_spawn).
  all: try (unfold reapWorker_work; by repeat case_match).
  all: try (by case_match).
  all: use_facts qr; simpl in *; try lia.
  all: exfalso; repeat (case_match; simplify_eq/=).
Qed.

Lemma step_reapWorker_stays s e s' tr qr :
  wfunc (inst_of s qr) = reapWorker → all_in_loop (inst_of s qr) →
  step s e = Some (s', tr) →
  wfunc (inst_of s' qr) = reapWorker ∧ all_in_loop (inst_of s' qr)
  ∧ controlCh (queue_of (bot s) qr) ≤ controlCh (queue_of (bot s') qr)
  ∧ ∀ w, (Exit qr w) ∉ tr.
Proof.
  intros Hf Hall H.
  assert (∀ w, (Exit qr w) ∉ []) as Hnil by (intros w; apply not_elem_of_nil).
  destruct e as [qr0 e|c0 t|c0|c0 d seed|c0 d now]; simpl in H.
  - destruct (gstep (bot s) qr0 (inst_of s qr0) e) as [[[b' i'] tr']|] eqn:Hg;
      simpl in H; [|done]. simplify_eq.
    rewrite bot_with_inst, inst_of_with_inst. simpl.
    case_decide as Hq.
    + subst qr0. by eapply gstep_reapWorker_stays.
    + destruct (gstep_pool _ _ _ _ _ _ _ Hg) as [_ Hother].
      destruct (counters_eq _ _ (Hother qr ltac:(done))) as (-> & _ & _).
      split_and!; try done. intros w Hw.
      clear Hother. unfold gstep in Hg.
      repeat (case_match; simplify_eq/=; try done); simplify_option_eq;
        rewrite ?list_elem_of_singleton, ?elem_of_nil in Hw;
        repeat case_match; by simplify_eq.
  - destruct (QueueReap (bot s) c0 t) as [b'|] eqn:Hb; simpl in H; [|done].
    simplify_eq. simpl.
    destruct (counters_eq _ _ (QueueReap_counters _ _ _ _ qr Hb)) as (-> & _ & _).
    by destruct qr.
  - destruct (CancelReap (bot s) c0) as [b'|] eqn:Hb; simpl in H; [|done].
    simplify_eq. simpl.
    destruct (counters_eq _ _ (CancelReap_counters _ _ _ qr Hb)) as (-> & _ & _).
    by destruct qr.
  - destruct (QueueLoadBacklog_delay (bot s) c0 d seed) as [[b' d']|] eqn:Hb;
      simpl in H; [|done].
    simplify_eq. simpl.
    rewrite (QueueLoadBacklog_delay_queues _ _ _ _ _ _ qr Hb).
    by destruct qr.
  - destruct (QueueLoadBacklog_update (bot s) c0 d now) as [b'|] eqn:Hb;
      simpl in H; [|done].
    simplify_eq. simpl.
    destruct (counters_eq _ _ (QueueLoadBacklog_update_counters _ _ _ _ _ qr Hb))
      as (-> & _ & _).
    by destruct qr.
Qed.

(** In a run of the service no [reapWorker] ever leaves its loop, and the
    tokens of its queue never come back. *)
Lemma run_reapWorker_stays es : ∀ s s' tr qr,
  wfunc (inst_of s qr) = reapWorker → all_in_loop (inst_of s qr) →
  run s es = Some (s', tr) →
  all_in_loop (inst_of s' qr)
  ∧ controlCh (queue_of (bot s) qr) ≤ controlCh (queue_of (bot s') qr)
  ∧ ∀ w, (Exit qr w) ∉ tr.
Proof.
  induction es as [|e es IH]; intros s s' tr qr Hf Hall Hrun.
  { simpl in Hrun. simplify_eq. split_and!; [done|done|].
    intros w. apply not_elem_of_nil. }
  rewrite run_cons in Hrun.
  destruct (step s e) as [[s1 a]|] eqn:Hstep; simpl in Hrun; [|done].
  destruct (run s1 es) as [[s2 tr']|] eqn:Hrest; simpl in Hrun; [|done].
  simplify_eq.
  destruct (step_reapWorker_stays _ _ _ _ qr Hf Hall Hstep)
    as (Hf1 & Hall1 & Hch1 & Hex1).
  destruct (IH _ _ _ qr Hf1 Hall1 Hrest) as (Hall2 & Hch2 & Hex2).
  split_and!; [done|lia|].
  intros w [Hw|Hw]%elem_of_app; [by apply (Hex1 w)|by apply (Hex2 w)].
Qed.

(** A [loadWorker] started with [mayTimeout] that is idle when its timer
    fires leaves the loop and takes one token out of [controlCh]. *)
Lemma loadWorker_idle_exit s qr w :
  wfunc (inst_of s qr) = loadWorker →
  workers (inst_of s qr) !! w = Some (mkWorker true AtReceive) →
  0 < controlCh (queue_of (bot s) qr) →
  ∃ s', run s [OfQueue qr (TimerFires w); OfQueue qr (Deferred w)]
        = Some (s', [Exit qr w])
    ∧ worker_pc (inst_of s' qr) w = Some Exited
    ∧ S (controlCh (queue_of (bot s') qr)) = controlCh (queue_of (bot s) qr).
Proof.
  intros Hf Hw Hch.
  assert (w < length (workers (inst_of s qr))) as Hlen by by eapply lookup_lt_Some.
  simpl. rewrite Hf, Hw. simpl.
  rewrite inst_of_with_inst, bot_with_inst. case_decide; [|done]. simpl.
  unfold worker_pc at 1. simpl. rewrite list_lookup_alter_eq, Hw. simpl.
  unfold loadWorker_deferred.
  destruct (controlCh (queue_of (bot s) qr)) as [|n] eqn:Hn; [lia|]. simpl.
  eexists. split; [done|].
  rewrite inst_of_with_inst, bot_with_inst. case_decide; [|done]. simpl.
  rewrite queue_of_with_queue. case_decide; [|done].
  split; [|done].
  unfold worker_pc. simpl. by rewrite !list_lookup_alter_eq, Hw.
Qed.
End exit_facts.

Section stuck_facts.
Implicit Types (s : system) (b : Bot) (q : reapQueue) (i : instance) (qr : qref).

(** A channel that is in [curWork] while no goroutine holds its work item
    stays there: nothing removes it, and nothing dispatches it. *)
Lemma gstep_stuck b qr i e b' i' tr c0 :
  c0 ∈ curWork (queue_of b qr) → holders i c0 = 0 →
  gstep b qr i e = Some (b', i', tr) →
  c0 ∈ curWork (queue_of b' qr) ∧ holders i' c0 = 0
  ∧ ((Dispatch qr c0) ∉ tr) ∧ ((Remove qr c0) ∉ tr).
Proof.
  intros Hin Hz H. unfold holders in *.
  destruct e; gstep_inv H; rewrite ?queue_of_with_queue_eq.
  all: repeat match goal with
       | p : _ * _ |- _ => destruct p
       | H : send_token _ = Some _ |- _ => apply send_token_Some in H as [? ->]
       | H : loadWorker_deferred _ = Some _ |- _ =>
           apply loadWorker_deferred_Some in H as (? & ? & ?)
       | H : worker_pc _ _ = Some _ |- _ => apply worker_pc_Some in H as (? & ? & ?)
       | H : WaitForNext_pass _ _ = Some _ |- _ =>
           apply WaitForNext_pass_counters, counters_eq in H as (? & ? & ?)
       | H : QueueReap _ _ _ = Some _ |- _ =>
           apply (QueueReap_counters _ _ _ _ qr), counters_eq in H as (? & ? & ?)
       | H : QueueLoadBacklog_update _ _ _ _ = Some _ |- _ =>
           apply (QueueLoadBacklog_update_counters _ _ _ _ _ qr), counters_eq
             in H as (? & ? & ?)
       | |- context [loadWorker_timer ?w] =>
           unfold loadWorker_timer in *; destruct (mayTimeout w)
       | w : waitResult |- _ => destruct w
       end.
  all: unfold reapScheduler_check, loadWorker_work, reapWorker_work in *.
  all: repeat (case_match; simplify_eq/=).
  all: rewrite ?holding_snoc, ?queue_of_with_loadFailures in *.
  all: repeat match goal with
       | H : workers ?i !! ?w = Some ?wk
         |- context [alter (λ x, mkWorker (mayTimeout x) ?p) ?w (workers ?i)] =>
           pose proof (holding_alter (workers i) w wk p c0 H); clear H
       | H : pc _ = _ |- _ => rewrite H in *; clear H
       | H : sched _ = _ |- _ => rewrite H in *; clear H
       | H : bool_decide _ = false |- _ => apply bool_decide_eq_false in H
       | H : bool_decide _ = true |- _ => apply bool_decide_eq_true in H
       | H : curWork _ = curWork _ |- _ => rewrite H in *; clear H
       end.
  all: simpl in *.
  all: rewrite ?list_elem_of_singleton, ?elem_of_nil.
  all: repeat case_decide; subst; try lia; try done.
  all: split_and!; try lia; try done; try congruence.
  all: try match goal with
       | H : loadWorker_timer _ = _ |- _ =>
           unfold loadWorker_timer in H; by case_match
       end.
  all: first [ apply elem_of_union; by right
             | apply elem_of_difference; split;
               [done|rewrite elem_of_singleton; congruence] ].
Qed.

Lemma step_stuck s e s' tr qr c :
  c ∈ in_flight s qr → holders (inst_of s qr) c = 0 →
  step s e = Some (s', tr) →
  c ∈ in_flight s' qr ∧ holders (inst_of s' qr) c = 0
  ∧ ((Dispatch qr c) ∉ tr) ∧ ((Remove qr c) ∉ tr).
Proof.
  unfold in_flight. intros Hin Hz H.
  destruct (step_curWork _ _ _ _ qr H) as (Hone & Hdisp & Hkeep).
  destruct e as [qr0 e|c0 t|c0|c0 d seed|c0 d now]; simpl in H.
  - destruct (gstep (bot s) qr0 (inst_of s qr0) e) as [[[b' i'] tr']|] eqn:Hg;
      simpl in H; [|done]. simplify_eq.
    rewrite bot_with_inst, inst_of_with_inst. simpl.
    case_decide as Hq.
    + subst qr0. by eapply gstep_stuck.
    + destruct (gstep_pool _ _ _ _ _ _ _ Hg) as [_ Hother].
      destruct (counters_eq _ _ (Hother qr ltac:(done))) as (_ & _ & Hcur).
      rewrite Hcur. split_and!; try done.
      * intros Hd. by destruct (Hdisp c Hd).
      * intros Hr. destruct (gstep_curWork _ _ _ _ _ _ _ Hg) as (_ & Hd0 & _).
        clear Hdisp Hkeep Hone Hother Hcur. unfold gstep in Hg.
        repeat (case_match; simplify_eq/=; try done); simplify_option_eq;
          rewrite ?list_elem_of_singleton, ?elem_of_nil in Hr;
          repeat case_match; by simplify_eq.
  - destruct (QueueReap (bot s) c0 t) as [b'|] eqn:Hb; simpl in H; [|done].
    simplify_eq. simpl.
    destruct (counters_eq _ _ (QueueReap_counters _ _ _ _ qr Hb)) as (_ & _ & ->).
    split_and!; [done|by destruct qr|apply not_elem_of_nil..].
  - destruct (CancelReap (bot s) c0) as [b'|] eqn:Hb; simpl in H; [|done].
    simplify_eq. simpl.
    destruct (counters_eq _ _ (CancelReap_counters _ _ _ qr Hb)) as (_ & _ & ->).
    split_and!; [done|by destruct qr|apply not_elem_of_nil..].
  - destruct (QueueLoadBacklog_delay (bot s) c0 d seed) as [[b' d']|] eqn:Hb;
      simpl in H; [|done].
    simplify_eq. simpl.
    rewrite (QueueLoadBacklog_delay_queues _ _ _ _ _ _ qr Hb).
    split_and!; [done|by destruct qr|apply not_elem_of_nil..].
  - destruct (QueueLoadBacklog_update (bot s) c0 d now) as [b'|] eqn:Hb;
      simpl in H; [|done].
    simplify_eq. simpl.
    destruct (counters_eq _ _ (QueueLoadBacklog_update_counters _ _ _ _ _ qr Hb))
      as (_ & _ & ->).
    split_and!; [done|by destruct qr|apply not_elem_of_nil..].
Qed.

(** Once a channel is in [curWork] with no goroutine holding its work item
    (which is where the three [continue] paths of the workers leave it), it
    stays in [curWork] for the rest of the run and is never dispatched
    again. *)
Lemma run_stuck es : ∀ s s' tr qr c,
  c ∈ in_flight s qr → holders (inst_of s qr) c = 0 →
  run s es = Some (s', tr) →
  c ∈ in_flight s' qr ∧ ((Dispatch qr c) ∉ tr) ∧ ((Remove qr c) ∉ tr).
Proof.
  induction es as [|e es IH]; intros s s' tr qr c Hin Hz Hrun.
  { simpl in Hrun. simplify_eq. split_and!; [done|apply not_elem_of_nil..]. }
  rewrite run_cons in Hrun.
  destruct (step s e) as [[s1 a]|] eqn:Hstep; simpl in Hrun; [|done].
  destruct (run s1 es) as [[s2 tr']|] eqn:Hrest; simpl in Hrun; [|done].
  simplify_eq.
  destruct (step_stuck _ _ _ _ qr c Hin Hz Hstep) as (Hin1 & Hz1 & Hd1 & Hr1).
  destruct (IH _ _ _ qr c Hin1 Hz1 Hrest) as (Hin2 & Hd2 & Hr2).
  split_and!; [done|..]; rewrite elem_of_app; tauto.
Qed.
End stuck_facts.

(** C6 fails on the three paths that end in [continue]: the worker is back
    at its receive and the queue, [curWork] included, is what it was.  In
    the run [load_disabled] channel 7 is still in [curWork] after the worker
    dropped it, and its next pop is discarded. *)
Theorem discard_leaves_in_flight :
  (∀ q c err, loadWorker_work q c true err = (q, AtReceive))
  ∧ (∀ q c msgs sqb reaped critical,
       reapWorker_work q c (msgs, sqb, true) reaped critical = (q, AtReceive))
  ∧ (∀ q c msgs sqb count err,
       reapWorker_work q c (msgs, sqb, false) (count, err) true = (q, AtReceive))
  ∧ ∃ s,
      run sample_system load_disabled
      = Some (s, [Start LoadRetries false; Dispatch LoadRetries 7;
                  Deliver LoadRetries 7 0; Skip LoadRetries 7;
                  Discard LoadRetries 7])
      ∧ in_flight s LoadRetries = {[7]}
      ∧ worker_pc (inst_of s LoadRetries) 0 = Some AtReceive
      ∧ sched (inst_of s LoadRetries) = SchedWait.
Proof.
  split; [done|]. split; [by intros q c msgs sqb [count err] critical|].
  split; [done|].
  eexists. split; [vm_compute; reflexivity|]. split_and!; vm_compute; reflexivity.
Qed.

(** C9 fails for [reapWorker]: after the run [grow_pool] worker 1 is a
    [reapWorker] started with [mayTimeout], idle at its receive; no timer
    event and no deferred call is among its transitions, and its token stays
    in [controlCh], which is full. *)
Theorem reapWorker_has_no_idle_exit :
  ∃ s tr,
    run sample_system grow_pool = Some (s, tr)
    ∧ wfunc (inst_of s Reaper) = reapWorker
    ∧ workers (inst_of s Reaper) !! 1 = Some (mkWorker true AtReceive)
    ∧ step s (OfQueue Reaper (TimerFires 1)) = None
    ∧ step s (OfQueue Reaper (Deferred 1)) = None
    ∧ controlCh (queue_of (bot s) Reaper) = 2
    ∧ controlCap (queue_of (bot s) Reaper) = 2.
Proof.
  eexists _, _. split; [vm_compute; reflexivity|]. split_and!; reflexivity.
Qed.

(** * Further properties: the index field *)

Section index_facts.
Implicit Types (pq : priorityQueue) (it : pqItem) (q : reapQueue).

Lemma Swap_indexed pq i j pq' :
  indexed pq → Swap pq i j = Some pq' → indexed pq'.
Proof.
  intros Hix H. unfold Swap in H.
  destruct (pq !! i) as [a|] eqn:Ha; simpl in H; [|done].
  destruct (pq !! j) as [b|] eqn:Hb; simpl in H; [|done].
  simplify_eq. intros k it Hk.
  assert (i < length pq) as Hi by by eapply lookup_lt_Some.
  assert (j < length pq) as Hj by by eapply lookup_lt_Some.
  destruct (decide (k = j)) as [->|Hkj].
  { rewrite list_lookup_insert_eq in Hk by (by rewrite length_insert).
    by simplify_eq. }
  rewrite list_lookup_insert_ne in Hk by done.
  destruct (decide (k = i)) as [->|Hki].
  { rewrite list_lookup_insert_eq in Hk by done. by simplify_eq. }
  rewrite list_lookup_insert_ne in Hk by done. by apply Hix.
Qed.

Lemma up_loop_indexed fuel : ∀ pq j pq',
  indexed pq → up_loop fuel pq j = Some pq' → indexed pq'.
Proof.
  induction fuel as [|fuel IH]; intros pq j pq' Hix H; [done|].
  rewrite up_loop_S in H. case_decide; [by simplify_eq|].
  apply bind_Some in H as (less & _ & H).
  destruct less; cbn [negb] in H; [|by simplify_eq].
  apply bind_Some in H as (pq1 & Hs & H).
  eapply IH; [|done]. by eapply Swap_indexed.
Qed.

Lemma down_loop_indexed fuel : ∀ pq i n pq' i',
  indexed pq → down_loop fuel pq i n = Some (pq', i') → indexed pq'.
Proof.
  induction fuel as [|fuel IH]; intros pq i n pq' i' Hix H; [done|].
  rewrite down_loop_S in H. case_decide; [by simplify_eq|].
  apply bind_Some in H as (r & _ & H).
  apply bind_Some in H as (less & _ & H).
  destruct less; cbn [negb] in H; [|by simplify_eq].
  apply bind_Some in H as (pq1 & Hs & H).
  eapply IH; [|done]. by eapply Swap_indexed.
Qed.

Lemma down_indexed pq i n pq' moved :
  indexed pq → down pq i n = Some (pq', moved) → indexed pq'.
Proof.
  intros Hix H. unfold down in H.
  destruct (down_loop (S n) pq i n) as [[pq1 i1]|] eqn:Hd; simpl in H; [|done].
  simplify_eq. by eapply down_loop_indexed.
Qed.

Lemma heap_Push_indexed pq x pq' :
  indexed pq → heap_Push pq x = Some pq' → indexed pq'.
Proof.
  intros Hix H. unfold heap_Push, up in H.
  eapply up_loop_indexed; [|done].
  intros k it Hk. unfold Push in Hk.
  apply lookup_app_Some in Hk as [Hk|[Hlen Hk]]; [by apply Hix|].
  apply list_lookup_singleton_Some in Hk as [Hk <-]. simpl. lia.
Qed.

Lemma heap_Pop_indexed pq x pq' :
  indexed pq → heap_Pop pq = Some (x, pq') → indexed pq' ∧ index x = (-1)%Z.
Proof.
  intros Hix H. unfold heap_Pop in H.
  destruct (Len pq) as [|n]; [done|].
  destruct (Swap pq 0 n) as [pq1|] eqn:Hs; simpl in H; [|done].
  destruct (down pq1 0 n) as [[pq2 moved]|] eqn:Hd; simpl in H; [|done].
  pose proof (down_indexed _ _ _ _ _ (Swap_indexed _ _ _ _ Hix Hs) Hd) as Hix2.
  unfold Pop in H. destruct (length pq2) as [|m]; [done|].
  destruct (pq2 !! m) as [it|]; simpl in H; [|done]. simplify_eq.
  split; [|done]. intros k it' Hk.
  apply lookup_take_Some in Hk as [Hk _]. by apply Hix2.
Qed.

Lemma heap_Fix_indexed pq i pq' :
  indexed pq → heap_Fix pq i = Some pq' → indexed pq'.
Proof.
  intros Hix H. unfold heap_Fix in H.
  destruct (down pq i (Len pq)) as [[pq1 moved]|] eqn:Hd; simpl in H; [|done].
  pose proof (down_indexed _ _ _ _ _ Hix Hd) as Hix1.
  destruct moved; simpl in H; [by simplify_eq|].
  by eapply up_loop_indexed.
Qed.

Lemma Update_items_indexed pq c t pq' :
  indexed pq → Update_items pq c t = Some pq' → indexed pq'.
Proof.
  intros Hix H. unfold Update_items in H.
  destruct (find_ch pq c) as [idx|]; [|by eapply heap_Push_indexed].
  destruct (pq !! idx) as [it|] eqn:Hit; simpl in H; [|done].
  eapply heap_Fix_indexed; [|done].
  intros k it' Hk.
  destruct (decide (k = idx)) as [->|Hne].
  - rewrite list_lookup_insert_eq in Hk by by eapply lookup_lt_Some.
    simplify_eq. simpl. by apply Hix.
  - rewrite list_lookup_insert_ne in Hk by done. by apply Hix.
Qed.

Lemma WaitForNext_pass_indexed q now r q' :
  indexed (items q) → WaitForNext_pass q now = Some (r, q') →
  indexed (items q') ∧ match r with Return x => index x = (-1)%Z | _ => True end.
Proof.
  intros Hix H. unfold WaitForNext_pass in H.
  destruct (Peek (items q)) as [it|]; [|by simplify_eq].
  destruct (After (nextReap it) now); [by simplify_eq|].
  destruct (heap_Pop (items q)) as [[x pq']|] eqn:Hp; simpl in H; [|done].
  simplify_eq. simpl. by eapply heap_Pop_indexed.
Qed.

Lemma qrun_indexed os : ∀ q q',
  indexed (items q) → qrun q os = Some q' → indexed (items q').
Proof.
  induction os as [|o os IH]; intros q q' Hix H; simpl in H; [by simplify_eq|].
  destruct (qstep q o) as [q1|] eqn:Hq; simpl in H; [|done].
  eapply IH; [|done]. destruct o as [c t|now]; simpl in Hq.
  - unfold Update in Hq.
    destruct (Update_items (items q) c t) as [pq|] eqn:Hu; simpl in Hq; [|done].
    simplify_eq. simpl. by eapply Update_items_indexed.
  - destruct (WaitForNext_pass q now) as [[r q2]|] eqn:Hw; simpl in Hq; [|done].
    simplify_eq. by eapply WaitForNext_pass_indexed.
Qed.
End index_facts.

(** X1.  In every state a queue reaches, the [index] field of each item is
    its position in the slice, as [Swap] and [Push] keep it; so the position
    at which the scan of [Update] finds a channel is the [index] of the item
    it finds.  The item that a pass of [WaitForNext] pops carries the index
    -1 that [Pop] gives it, and the items left behind are still in place. *)
Theorem index_maintained n q0 os q :
  newReapQueue n = Some q0 → qrun q0 os = Some q →
  (∀ k it, items q !! k = Some it → index it = Z.of_nat k)
  ∧ (∀ c, ∀ idx, find_ch (items q) c = Some idx →
       ∃ it, items q !! idx = Some it ∧ ch it = c ∧ index it = Z.of_nat idx)
  ∧ (∀ now x q', WaitForNext_pass q now = Some (Return x, q') →
       index x = (-1)%Z ∧ ∀ k it, items q' !! k = Some it → index it = Z.of_nat k).
Proof.
  intros Hnew Hrun.
  assert (indexed (items q)) as Hix.
  { eapply qrun_indexed; [|done].
    apply newReapQueue_spec in Hnew as [_ ->]. intros k it Hk. done. }
  split_and!; [done| |].
  - intros c idx Hf. destruct (find_ch_Some _ _ _ Hf) as (it & Hit & Hc).
    exists it. split_and!; [done|done|by apply Hix].
  - intros now x q' Hw.
    destruct (WaitForNext_pass_indexed _ _ _ _ Hix Hw) as [Hix' Hx]. by split.
Qed.

Lemma index_maintained_witness :
  (∀ k it, items sample_queue !! k = Some it → index it = Z.of_nat k)
  ∧ index (mkItem 2 30 (-1)) = (-1)%Z.
Proof.
  destruct sample_queue_reached as [Hnew Hrun].
  destruct (index_maintained 2 _ sample_ops sample_queue Hnew Hrun) as (Hix & _ & Hpop).
  split; [exact Hix|].
  by destruct (Hpop 45%Z (mkItem 2 30 (-1)) (mkQueue [mkItem 1 35 0; mkItem 3 40 1] 0 2 ∅)
                 eq_refl).
Defined.

(** * More on [Update] and [WaitForNext] *)

Section more_queue_facts.
Implicit Types (pq : priorityQueue) (it : pqItem) (q : reapQueue) (c : chanRef).

Lemma Update_length q c t :
  queue_ok q →
  ∃ q', Update q c t = Some q'
    ∧ length (items q')
      = if decide (entries (items q) c = []) then S (length (items q))
        else length (items q).
Proof.
  intros [Hord Huniq]. unfold Update.
  destruct (Update_items_spec (items q) c t Hord)
    as (pq' & rest & -> & _ & Hperm & Hold).
  simpl. eexists. split; [done|].
  apply Permutation_length in Hperm. unfold keys in Hperm.
  rewrite length_fmap in Hperm. simpl in Hperm.
  destruct Hold as [[Hp Hnot]|[t0 Hp]].
  - pose proof (entries_Permutation _ _ c Hp) as He.
    rewrite (filter_fst_absent _ _ Hnot) in He. apply Permutation_nil_r in He.
    rewrite decide_True by done.
    apply Permutation_length in Hp. unfold keys in Hp.
    rewrite length_fmap in Hp. simpl. lia.
  - pose proof (entries_Permutation _ _ c Hp) as He.
    rewrite filter_cons_True in He by done.
    rewrite decide_False by (intros Hnil; rewrite Hnil in He;
                             by apply Permutation_nil_cons in He).
    apply Permutation_length in Hp. unfold keys in Hp.
    rewrite length_fmap in Hp. simpl in *. lia.
Qed.

Lemma entries_elem_of pq c e : e ∈ entries pq c ↔ e ∈ keys pq ∧ e.1 = c.
Proof. unfold entries. rewrite list_elem_of_filter. tauto. Qed.

Lemma uniq_Permutation_eq pq pq' c :
  uniq pq → entries pq' c ≡ₚ entries pq c → entries pq' c = entries pq c.
Proof.
  intros Huniq Hp. pose proof (Huniq c) as Hlen.
  destruct (entries pq c) as [|e [|e' l]]; simpl in Hlen; [| |lia].
  - by apply Permutation_nil_r.
  - by apply Permutation_singleton_r.
Qed.

(** A pass that finds the root due pops it: the entry of the root is gone
    and the entries of the other channels are what they were. *)
Lemma WaitForNext_pass_due q now root :
  queue_ok q → Peek (items q) = Some root → (nextReap root ≤ now)%Z →
  ∃ q', WaitForNext_pass q now = Some (Return (set_index root (-1)), q')
    ∧ queue_ok q'
    ∧ keys (items q) ≡ₚ key root :: keys (items q')
    ∧ entries (items q') (ch root) = []
    ∧ ∀ c, c ≠ ch root → entries (items q') c = entries (items q) c.
Proof.
  intros Hok Hpeek Hdue.
  destruct (WaitForNext_pass_ok q now Hok) as (r & q' & Hpass & Hok' & _ & _ & _ & Hr).
  assert (After (nextReap root) now = false) as Hafter
    by (unfold After; by apply Z.ltb_ge).
  unfold WaitForNext_pass in Hpass. rewrite Hpeek, Hafter in Hpass.
  apply bind_Some in Hpass as ([x pq'] & Hpop & Hpass). simpl in Hpass.
  simplify_eq. simpl in *.
  destruct Hr as (root' & Hpeek' & _ & Hx & Hperm).
  rewrite Hpeek in Hpeek'. injection Hpeek' as <-. subst x.
  rewrite key_set_index in Hperm.
  unfold WaitForNext_pass. rewrite Hpeek, Hafter, Hpop. simpl.
  eexists. split_and!; try done.
  - destruct Hok as [_ Huniq]. pose proof (Huniq (ch root)) as Hlen.
    rewrite (entries_Permutation _ _ _ Hperm), filter_cons_True in Hlen by done.
    by apply length_le_1_cons in Hlen.
  - intros c Hne. destruct Hok as [_ Huniq]. apply uniq_Permutation_eq; [done|].
    rewrite (entries_Permutation _ _ c Hperm), filter_cons_False; [done|].
    simpl. congruence.
Qed.

Lemma WaitForNext_pass_early q now root :
  Peek (items q) = Some root → (now < nextReap root)%Z →
  ∃ d, WaitForNext_pass q now = Some (Sleep d, q).
Proof.
  intros Hpeek Hearly. unfold WaitForNext_pass. rewrite Hpeek.
  assert (After (nextReap root) now = true) as ->
    by (unfold After; by apply Z.ltb_lt).
  by eexists.
Qed.

(** A pass before the root is due sleeps until it is, and two milliseconds
    more. *)
Lemma WaitForNext_pass_sleeps q now root :
  Peek (items q) = Some root → (now < nextReap root)%Z →
  WaitForNext_pass q now
  = Some (Sleep (wrap64 (Sub (nextReap root) now + 2 * Millisecond)), q).
Proof.
  intros Hpeek Hearly. unfold WaitForNext_pass. rewrite Hpeek.
  by assert (After (nextReap root) now = true) as ->
    by (unfold After; by apply Z.ltb_lt).
Qed.

(** Woken only before the root is due, [WaitForNext] stays suspended. *)
Lemma WaitForNext_early q root nows : ∀ now,
  Peek (items q) = Some root →
  Forall (λ u, (u < nextReap root)%Z) (now :: nows) →
  WaitForNext q now ((λ u, ([], u)) <$> nows) = Some (None, q).
Proof.
  induction nows as [|now' nows IH]; intros now Hpeek Hearly;
    apply Forall_cons in Hearly as [Hnow Hearly];
    rewrite WaitForNext_unfold, (WaitForNext_pass_sleeps _ _ _ Hpeek Hnow);
    simpl; [done|by apply IH].
Qed.
Lemma WaitForNext_pass_empty q now :
  items q = [] → WaitForNext_pass q now = Some (WaitInsertion, q).
Proof. intros H. unfold WaitForNext_pass. by rewrite H. Qed.
End more_queue_facts.

(** X2.  [Update] on the channel [c] leaves the entry of every other
    channel as it was; the queue grows by exactly one entry when [c] had
    none and keeps its length otherwise; [controlCh], its capacity and
    [curWork] are not touched. *)
Theorem Update_touches_one_entry n q0 os q c t :
  newReapQueue n = Some q0 → qrun q0 os = Some q →
  ∃ q', Update q c t = Some q'
    ∧ (∀ c', c' ≠ c → entries (items q') c' = entries (items q) c')
    ∧ length (items q')
      = (if decide (entries (items q) c = []) then S (length (items q))
         else length (items q))
    ∧ controlCh q' = controlCh q ∧ controlCap q' = controlCap q
    ∧ curWork q' = curWork q.
Proof.
  intros Hnew Hrun. pose proof (reachable_ok _ _ _ _ Hnew Hrun) as Hok.
  destruct (Update_ok q c t Hok) as (q' & Hupd & _ & Hch & Hcap & Hcur & _ & Hother).
  destruct (Update_length q c t Hok) as (q1 & Hupd1 & Hlen).
  rewrite Hupd in Hupd1. simplify_eq. by exists q1.
Qed.

Lemma Update_touches_one_entry_witness :
  ∃ q', Update sample_queue 4 33%Z = Some q'
    ∧ (∀ c', c' ≠ 4 → entries (items q') c' = entries (items sample_queue) c')
    ∧ length (items q') = 4.
Proof.
  destruct sample_queue_reached as [Hnew Hrun].
  destruct (Update_touches_one_entry 2 _ sample_ops sample_queue 4 33%Z Hnew Hrun)
    as (q' & Hupd & Hother & Hlen & _).
  exists q'. split_and!; [exact Hupd|exact Hother|exact Hlen].
Defined.

(** X3.  [CancelReap] makes the channel due at the zero time.  When every
    other entry is due after the zero time, the next [WaitForNext], at a
    clock reading not before the zero time, returns that channel at its
    first pass and takes its entry out of the queue; the entries of the
    other channels, the retry queue and the accumulated delays are as they
    were. *)
Theorem CancelReap_pops_next b c now wakes :
  queue_ok (reaper b) →
  (∀ c' t', (c', t') ∈ keys (items (reaper b)) → c' ≠ c → (zeroTime < t')%Z) →
  (zeroTime ≤ now)%Z →
  ∃ b' q', CancelReap b c = Some b'
    ∧ loadRetries b' = loadRetries b ∧ loadFailures b' = loadFailures b
    ∧ entries (items (reaper b')) c = [(c, zeroTime)]
    ∧ WaitForNext (reaper b') now wakes = Some (Some c, q')
    ∧ entries (items q') c = []
    ∧ ∀ c', c' ≠ c → entries (items q') c' = entries (items (reaper b)) c'.
Proof.
  intros Hok Hlate Hnow. unfold CancelReap.
  destruct (Update_ok _ c zeroTime Hok)
    as (q1 & -> & Hok1 & _ & _ & _ & Hent & Hother).
  simpl.
  assert ((c, zeroTime) ∈ keys (items q1)) as Hin.
  { apply (proj1 (entries_elem_of (items q1) c (c, zeroTime))).
    rewrite Hent. apply list_elem_of_here. }
  apply list_elem_of_fmap in Hin as (itc & Hkey & Hitc).
  destruct (Peek (items q1)) as [root|] eqn:Hpeek.
  2:{ unfold Peek in Hpeek. destruct (items q1); [|done].
      by apply elem_of_nil in Hitc. }
  pose proof (queue_ok_root_min q1 root itc Hok1 Hpeek Hitc) as Hmin.
  assert (nextReap itc = zeroTime) as Ht by (by injection Hkey).
  rewrite Ht in Hmin.
  assert (ch root = c) as Hroot.
  { destruct (decide (ch root = c)) as [|Hne]; [done|]. exfalso.
    assert (key root ∈ entries (items q1) (ch root)) as Hr.
    { apply entries_elem_of. split; [|done].
      apply list_elem_of_fmap. exists root. split; [done|].
      by apply list_elem_of_lookup_2 with 0. }
    rewrite (Hother _ Hne) in Hr. apply entries_elem_of in Hr as [Hr _].
    specialize (Hlate _ _ Hr Hne). lia. }
  destruct (WaitForNext_pass_due q1 now root Hok1 Hpeek ltac:(lia))
    as (q2 & Hpass & _ & _ & Hgone & Hkeep).
  exists (with_reaper b q1), q2. simpl. split_and!; try done.
  - rewrite WaitForNext_unfold, Hpass. simpl. by rewrite Hroot.
  - by rewrite <- Hroot.
  - intros c' Hne. rewrite Hkeep by congruence. by apply Hother.
Qed.

Lemma CancelReap_pops_next_witness :
  ∃ b' q', CancelReap (mkBot sample_queue (mkQueue [] 0 2 ∅) ∅) 3 = Some b'
    ∧ WaitForNext (reaper b') 20 [] = Some (Some 3, q')
    ∧ entries (items q') 3 = []
    ∧ entries (items q') 1 = [(1, 35%Z)].
Proof.
  destruct (CancelReap_pops_next (mkBot sample_queue (mkQueue [] 0 2 ∅) ∅) 3 20 [])
    as (b' & q' & Hc & _ & _ & _ & Hw & Hgone & Hkeep).
  - apply sample_queue_ok.
  - intros c' t' Hin _. simpl in Hin. unfold zeroTime.
    repeat (apply elem_of_cons in Hin as [Hin|Hin]; [injection Hin as -> ->; lia|]).
    by apply elem_of_nil in Hin.
  - unfold zeroTime. lia.
  - exists b', q'. split_and!; [exact Hc|exact Hw|exact Hgone|].
    by rewrite Hkeep.
Defined.

(** X4.  While the queue is empty, or its root is due after every reading
    of the clock, [WaitForNext] does not return however often it is woken,
    and it leaves the queue as it was. *)
Theorem WaitForNext_waits q now nows :
  (∀ root t, Peek (items q) = Some root → t ∈ now :: nows → (t < nextReap root)%Z) →
  WaitForNext q now ((λ t, ([], t)) <$> nows) = Some (None, q).
Proof.
  revert now. induction nows as [|now' nows IH]; intros now Hearly;
    rewrite WaitForNext_unfold.
  - destruct (Peek (items q)) as [root|] eqn:Hpeek.
    + destruct (WaitForNext_pass_early q now root Hpeek) as [d ->]; [|done].
      apply Hearly; [done|apply list_elem_of_here].
    + rewrite WaitForNext_pass_empty; [done|].
      unfold Peek in Hpeek. by destruct (items q).
  - assert (WaitForNext q now' ((λ t, ([], t)) <$> nows) = Some (None, q)) as Hrest.
    { apply IH. intros root t Hp Ht. apply Hearly; [done|].
      by apply list_elem_of_further. }
    destruct (Peek (items q)) as [root|] eqn:Hpeek.
    + destruct (WaitForNext_pass_early q now root Hpeek) as [d ->]; [|done].
      apply Hearly; [done|apply list_elem_of_here].
    + rewrite WaitForNext_pass_empty; [done|].
      unfold Peek in Hpeek. by destruct (items q).
Qed.

Lemma WaitForNext_waits_witness :
  WaitForNext sample_queue 20 [([], 25%Z); ([], 29%Z)] = Some (None, sample_queue)
  ∧ WaitForNext (mkQueue [] 0 2 ∅) 20 [([], 25%Z)] = Some (None, mkQueue [] 0 2 ∅).
Proof.
  split.
  - apply (WaitForNext_waits sample_queue 20 [25%Z; 29%Z]).
    intros root t [= <-] Hin. simpl.
    repeat (apply elem_of_cons in Hin as [->|Hin]; [lia|]).
    by apply elem_of_nil in Hin.
  - apply (WaitForNext_waits (mkQueue [] 0 2 ∅) 20 [25%Z]). intros root t Hp. done.
Defined.

(** X5.  When nothing is updated meanwhile, [WaitForNext] returns at the
    first wake-up whose clock reading is not before the due time of the
    root.  Every pass before it found the root not due and went to sleep
    until it is, leaving the queue as it was, and the call was still
    suspended after them; the pass at that wake-up pops the root, whose
    channel is returned and whose entry leaves the queue. *)
Theorem WaitForNext_first_due q root now nows early t later :
  queue_ok q → Peek (items q) = Some root →
  now :: nows = early ++ t :: later →
  Forall (λ u, (u < nextReap root)%Z) early → (nextReap root ≤ t)%Z →
  ∃ q', WaitForNext q now ((λ u, ([], u)) <$> nows) = Some (Some (ch root), q')
    ∧ Forall (λ u, WaitForNext_pass q u
                   = Some (Sleep (wrap64 (Sub (nextReap root) u + 2 * Millisecond)), q))
        early
    ∧ (∀ u us, early = u :: us →
         WaitForNext q u ((λ v, ([], v)) <$> us) = Some (None, q))
    ∧ WaitForNext_pass q t = Some (Return (set_index root (-1)), q')
    ∧ keys (items q) ≡ₚ key root :: keys (items q')
    ∧ entries (items q') (ch root) = [].
Proof.
  intros Hok Hpeek Heq Hearly Hdue.
  assert (∃ q', WaitForNext q now ((λ u, ([], u)) <$> nows) = Some (Some (ch root), q')
    ∧ WaitForNext_pass q t = Some (Return (set_index root (-1)), q')
    ∧ keys (items q) ≡ₚ key root :: keys (items q')
    ∧ entries (items q') (ch root) = []) as (q' & Hw & Hpass & Hperm & Hgone).
  { revert now nows Heq.
    induction Hearly as [|u early Hu Hearly IH]; intros now nows Heq; simpl in Heq.
    - injection Heq as -> ->.
      destruct (WaitForNext_pass_due q t root Hok Hpeek Hdue)
        as (q' & Hpass & _ & Hperm & Hgone & _).
      exists q'. rewrite WaitForNext_unfold, Hpass. by split_and!.
    - injection Heq as -> ->.
      assert (∃ now' nows', early ++ t :: later = now' :: nows') as (now' & nows' & Heq)
        by (destruct early; simpl; by eexists _, _).
      destruct (IH now' nows' (eq_sym Heq)) as (q' & Hw & Hrest).
      exists q'. split; [|done]. rewrite Heq, fmap_cons, WaitForNext_unfold.
      rewrite (WaitForNext_pass_sleeps q u root Hpeek Hu). simpl. done. }
  exists q'. split_and!; try done.
  - eapply Forall_impl; [exact Hearly|]. intros u Hu. simpl.
    by apply WaitForNext_pass_sleeps.
  - intros u us ->. by apply (WaitForNext_early q root).
Qed.

Lemma WaitForNext_first_due_witness :
  ∃ q', WaitForNext sample_queue 20 [([], 25%Z); ([], 31%Z); ([], 50%Z)]
        = Some (Some 2, q')
    ∧ Forall (λ u, WaitForNext_pass sample_queue u
                   = Some (Sleep (wrap64 (Sub 30 u + 2 * Millisecond)), sample_queue))
        [20%Z; 25%Z]
    ∧ (∀ u us, [20%Z; 25%Z] = u :: us →
         WaitForNext sample_queue u ((λ v, ([], v)) <$> us) = Some (None, sample_queue))
    ∧ WaitForNext_pass sample_queue 31 = Some (Return (mkItem 2 30 (-1)), q')
    ∧ keys (items sample_queue) ≡ₚ (2, 30%Z) :: keys (items q')
    ∧ entries (items q') 2 = [].
Proof.
  apply (WaitForNext_first_due sample_queue (mkItem 2 30 0) 20 [25%Z; 31%Z; 50%Z]
           [20%Z; 25%Z] 31%Z [50%Z]).
  - apply sample_queue_ok.
  - reflexivity.
  - reflexivity.
  - repeat constructor.
  - simpl. lia.
Defined.

(** X6.  After [Update] moved the due time of [c] past the clock reading
    [now], a pass of [WaitForNext] at [now] does not pop [c]: what it pops
    is another channel, due by [now], and the entry of [c] stays in the
    queue with its new due time. *)
Theorem Update_postpones n q0 os q c t now :
  newReapQueue n = Some q0 → qrun q0 os = Some q → (now < t)%Z →
  ∃ q', Update q c t = Some q'
    ∧ ∀ x q'', WaitForNext_pass q' now = Some (Return x, q'') →
        ch x ≠ c ∧ (nextReap x ≤ now)%Z ∧ entries (items q'') c = [(c, t)].
Proof.
  intros Hnew Hrun Hlate. pose proof (reachable_ok _ _ _ _ Hnew Hrun) as Hok.
  destruct (Update_ok q c t Hok) as (q' & Hupd & Hok' & _ & _ & _ & Hent & _).
  exists q'. split; [done|]. intros x q'' Hpass.
  destruct (WaitForNext_pass_ok q' now Hok') as (r & q1 & Hpass1 & _ & _ & _ & _ & Hr).
  rewrite Hpass in Hpass1. injection Hpass1 as <- <-.
  destruct Hr as (root & Hpeek & Hafter & -> & _).
  unfold After in Hafter. apply Z.ltb_ge in Hafter.
  destruct (WaitForNext_pass_due q' now root Hok' Hpeek Hafter)
    as (q2 & Hpass2 & _ & _ & _ & Hkeep).
  rewrite Hpass in Hpass2. injection Hpass2 as <-.
  assert (ch root ≠ c) as Hne.
  { intros Hc.
    assert (key root ∈ entries (items q') c) as Hin.
    { apply entries_elem_of. split; [|done].
      apply list_elem_of_fmap. exists root. split; [done|].
      by apply list_elem_of_lookup_2 with 0. }
    rewrite Hent in Hin. apply list_elem_of_singleton in Hin.
    injection Hin as _ Ht. lia. }
  simpl. split_and!; [done|done|]. rewrite Hkeep by done. done.
Qed.

Lemma Update_postpones_witness :
  ∃ q', Update sample_queue 2 60%Z = Some q'
    ∧ WaitForNext_pass q' 36
      = Some (Return (mkItem 1 35 (-1)), mkQueue [mkItem 3 40 0; mkItem 2 60 1] 0 2 ∅)
    ∧ entries [mkItem 3 40 0; mkItem 2 60 1] 2 = [(2, 60%Z)].
Proof.
  destruct sample_queue_reached as [Hnew Hrun].
  destruct (Update_postpones 2 _ sample_ops sample_queue 2 60%Z 36%Z Hnew Hrun)
    as (q' & Hupd & Hpop); [lia|].
  exists q'. split; [exact Hupd|].
  assert (q' = mkQueue [mkItem 1 35 0; mkItem 2 60 1; mkItem 3 40 2] 0 2 ∅) as ->
    by (vm_compute in Hupd; by injection Hupd).
  split; [reflexivity|].
  by destruct (Hpop (mkItem 1 35 (-1)) (mkQueue [mkItem 3 40 0; mkItem 2 60 1] 0 2 ∅)
                 eq_refl) as (_ & _ & ?).
Defined.

(** * Errors, the sleep of [WaitForNext], and repeated failures *)

Section error_facts.

Lemma String_prefix_spec (a s : string) :
  String.prefix a s = true ↔ ∃ r, s = a +:+ r.
Proof.
  revert s. induction a as [|x a IH]; intros [|y s]; simpl.
  - split; [by exists EmptyString|done].
  - split; [by exists (String y s)|done].
  - split; [done|by intros [r Hr]].
  - destruct (Ascii.ascii_dec x y) as [->|Hne].
    + rewrite IH. split; intros [r Hr]; exists r; [by rewrite Hr|by injection Hr].
    + split; [done|]. intros [r Hr]. injection Hr as Hy _. congruence.
Qed.

Lemma Contains_unfold (s sub : string) :
  Contains s sub =
    if String.prefix sub s then true
    else match s with
         | EmptyString => false
         | String _ s' => Contains s' sub
         end.
Proof. by destruct s. Qed.

Lemma Contains_spec (s sub : string) :
  Contains s sub = true ↔ ∃ p r, s = p +:+ sub +:+ r.
Proof.
  split.
  - induction s as [|x s IH]; rewrite Contains_unfold;
      destruct (String.prefix sub _) eqn:Hp; try done.
    + intros _. apply String_prefix_spec in Hp as [r Hr]. by exists EmptyString, r.
    + intros _. apply String_prefix_spec in Hp as [r Hr]. by exists EmptyString, r.
    + intros (p & r & ->)%IH. by exists (String x p), r.
  - intros (p & r & ->). induction p as [|x p IH]; rewrite Contains_unfold.
    + assert (String.prefix sub (EmptyString +:+ sub +:+ r) = true) as ->; [|done].
      apply String_prefix_spec. by exists r.
    + destruct (String.prefix sub _); [done|]. exact IH.
Qed.
End error_facts.

(** X7.  [isRetryableLoadError] answers true exactly for an error that is
    not [nil] and whose text has [rate limit unmarshal error] somewhere
    in it. *)
Theorem isRetryableLoadError_iff (err : error) :
  isRetryableLoadError err = true
  ↔ ∃ p r, err = Some (p +:+ "rate limit unmarshal error" +:+ r).
Proof.
  unfold isRetryableLoadError. destruct err as [msg|].
  - destruct (Contains msg "rate limit unmarshal error") eqn:Hc.
    + split; [|done]. intros _. apply Contains_spec in Hc as (p & r & ->).
      by exists p, r.
    + split; [done|]. intros (p & r & [= ->]).
      assert (Contains (p +:+ "rate limit unmarshal error" +:+ r)
                "rate limit unmarshal error" = true) as Ht
        by (apply Contains_spec; by exists p, r).
      congruence.
  - split; [done|]. by intros (p & r & ?).
Qed.

(** X8.  A pass that finds the root due after [now] resets the timer and
    leaves the queue alone.  The timer is set to the time left plus two
    milliseconds, which is more than two milliseconds, as long as that sum
    fits [int64]; where the time left exceeds [int64_max - 2ms] the sum
    wraps around and the duration given to the timer is negative. *)
Theorem WaitForNext_sleep_duration q now root :
  Peek (items q) = Some root → (now < nextReap root)%Z →
  ∃ d, WaitForNext_pass q now = Some (Sleep d, q)
    ∧ ((nextReap root - now ≤ int64_max - 2 * Millisecond)%Z →
       d = (nextReap root - now + 2 * Millisecond)%Z ∧ (2 * Millisecond < d)%Z)
    ∧ ((int64_max - 2 * Millisecond < nextReap root - now)%Z → (d < 0)%Z).
Proof.
  intros Hpeek Hearly. unfold WaitForNext_pass. rewrite Hpeek.
  assert (After (nextReap root) now = true) as ->
    by (unfold After; by apply Z.ltb_lt).
  eexists. split; [done|].
  unfold Sub, wrap64, int64_min, int64_max, Millisecond. split; intros Hgap; lia.
Qed.

Lemma WaitForNext_sleep_duration_witness :
  ∃ d, WaitForNext_pass sample_queue 20 = Some (Sleep d, sample_queue)
    ∧ d = 2000010%Z.
Proof.
  destruct (WaitForNext_sleep_duration sample_queue 20 (mkItem 2 30 0) eq_refl)
    as (d & Hpass & Hfit & _).
  - simpl. lia.
  - exists d. split; [exact Hpass|].
    destruct Hfit as [-> _]; [vm_compute; discriminate|reflexivity].
Defined.

Section more_backoff_facts.
Implicit Types (b : Bot) (c : chanRef).

Lemma fail_with_spec seeds : ∀ b c,
  (0 ≤ loadFailuresOf b c)%Z →
  (2 ^ Z.of_nat (length seeds) * (loadFailuresOf b c + 5 * Second) ≤ 2 ^ 63)%Z →
  ∃ b', fail_with seeds b c = Some b'
    ∧ loadFailuresOf b' c = backoff_after (loadFailuresOf b c) seeds
    ∧ (2 ^ Z.of_nat (length seeds) * loadFailuresOf b c ≤ loadFailuresOf b' c)%Z
    ∧ (loadFailuresOf b' c + 5 * Second
       ≤ 2 ^ Z.of_nat (length seeds) * (loadFailuresOf b c + 5 * Second))%Z
    ∧ reaper b' = reaper b ∧ loadRetries b' = loadRetries b
    ∧ ∀ c', c' ≠ c → loadFailuresOf b' c' = loadFailuresOf b c'.
Proof.
  induction seeds as [|seed seeds IH]; intros b c Hpos Hfit.
  { exists b. simpl. split_and!; try done; lia. }
  change (fail_with (seed :: seeds) b c)
    with (r ← QueueLoadBacklog_delay b c true seed; fail_with seeds r.1 c).
  rewrite QueueLoadBacklog_delay_fail. cbn [mbind option_bind fst].
  set (d0 := loadFailuresOf b c) in *.
  set (r := (seed mod (5 * Second))%Z).
  assert (0 ≤ r < 5 * Second)%Z as Hr by (unfold r, Second; lia).
  assert (0 < 2 ^ Z.of_nat (length seeds))%Z as Hpow by (apply Z.pow_pos_nonneg; lia).
  assert (2 ^ Z.of_nat (length (seed :: seeds)) = 2 * 2 ^ Z.of_nat (length seeds))%Z
    as Hsucc by (simpl length; rewrite Nat2Z.inj_succ, Z.pow_succ_r; lia).
  rewrite Hsucc in *.
  assert (2 * (d0 + 5 * Second) ≤ 2 ^ 63)%Z as Hone by nia.
  assert (wrap64 (wrap64 (d0 * 2) + r) = 2 * d0 + r)%Z as Hd.
  { rewrite (wrap64_id (d0 * 2)) by (unfold int64_min, int64_max, Second in *; lia).
    rewrite wrap64_id by (unfold int64_min, int64_max, Second in *; lia). lia. }
  rewrite Hd.
  set (b1 := with_loadFailures b c (2 * d0 + r)).
  assert (loadFailuresOf b1 c = 2 * d0 + r)%Z as Hb1
    by (unfold b1; rewrite loadFailuresOf_insert; by case_decide).
  destruct (IH b1 c) as (b' & Hrun & Hval & Hlo & Hhi & Hrp & Hlr & Hother).
  { rewrite Hb1. lia. }
  { rewrite Hb1. nia. }
  exists b'. rewrite Hb1 in *. split_and!; try done.
  - nia.
  - nia.
  - intros c' Hne. rewrite (Hother c' Hne). unfold b1.
    rewrite loadFailuresOf_insert. by case_decide.
Qed.
End more_backoff_facts.

(** X9.  Failures in a row of one channel, starting from the delay [d >= 0].
    As long as [2^n * (d + 5s) <= 2^63] for the number [n] of failures, no
    step of the doubling leaves [int64]: the delay after them is what
    doubling and adding the jitters gives, it is at least [2^n * d] and at
    most [2^n * (d + 5s) - 5s], and the delay of no other channel changes.
    For a channel without delay this covers 30 failures in a row. *)
Theorem backoff_growth_bounded b c seeds :
  (0 ≤ loadFailuresOf b c)%Z →
  (2 ^ Z.of_nat (length seeds) * (loadFailuresOf b c + 5 * Second) ≤ 2 ^ 63)%Z →
  ∃ b', fail_with seeds b c = Some b'
    ∧ loadFailuresOf b' c = backoff_after (loadFailuresOf b c) seeds
    ∧ (2 ^ Z.of_nat (length seeds) * loadFailuresOf b c ≤ loadFailuresOf b' c)%Z
    ∧ (loadFailuresOf b' c + 5 * Second
       ≤ 2 ^ Z.of_nat (length seeds) * (loadFailuresOf b c + 5 * Second))%Z
    ∧ (0 ≤ loadFailuresOf b' c ≤ int64_max)%Z
    ∧ ∀ c', c' ≠ c → loadFailuresOf b' c' = loadFailuresOf b c'.
Proof.
  intros Hpos Hfit.
  destruct (fail_with_spec seeds b c Hpos Hfit)
    as (b' & Hrun & Hval & Hlo & Hhi & _ & _ & Hother).
  exists b'. split_and!; try done.
  - assert (0 < 2 ^ Z.of_nat (length seeds))%Z by (apply Z.pow_pos_nonneg; lia). nia.
  - unfold int64_max, Second in *. lia.
Qed.

Lemma backoff_growth_bounded_witness :
  ∃ b', fail_with (replicate 30 4999999999%Z)
          (mkBot (mkQueue [] 0 2 ∅) (mkQueue [] 0 2 ∅) ∅) 1 = Some b'
    ∧ (0 ≤ loadFailuresOf b' 1 ≤ int64_max)%Z.
Proof.
  destruct (backoff_growth_bounded (mkBot (mkQueue [] 0 2 ∅) (mkQueue [] 0 2 ∅) ∅) 1
              (replicate 30 4999999999%Z))
    as (b' & Hrun & _ & _ & _ & Hrange & _).
  - vm_compute. discriminate.
  - vm_compute. discriminate.
  - exists b'. split; [exact Hrun|exact Hrange].
Defined.

(** * One turn of a worker *)

Section more_worker_facts.
Implicit Types (b : Bot) (q : reapQueue) (qr : qref) (c : chanRef).

Lemma QueueLoadBacklog_update_frame b c d now :
  queue_ok (loadRetries b) →
  ∃ b', QueueLoadBacklog_update b c d now = Some b'
    ∧ loadFailures b' = loadFailures b
    ∧ reaper b' = reaper b
    ∧ counters (loadRetries b') = counters (loadRetries b)
    ∧ entries (items (loadRetries b')) c = [(c, Add now d)]
    ∧ ∀ c', c' ≠ c →
        entries (items (loadRetries b')) c' = entries (items (loadRetries b)) c'.
Proof.
  intros Hok. unfold QueueLoadBacklog_update.
  destruct (Update_ok _ c (Add now d) Hok)
    as (q' & -> & _ & Hch & Hcap & Hcur & Hent & Hother).
  simpl. eexists. split_and!; try done. unfold counters. simpl.
  by rewrite Hch, Hcap, Hcur.
Qed.

Lemma QueueReap_frame b c t :
  queue_ok (reaper b) →
  ∃ b', QueueReap b c t = Some b'
    ∧ loadRetries b' = loadRetries b
    ∧ loadFailures b' = loadFailures b
    ∧ curWork (reaper b') = curWork (reaper b)
    ∧ entries (items (reaper b')) c = [(c, t)]
    ∧ ∀ c', c' ≠ c → entries (items (reaper b')) c' = entries (items (reaper b)) c'.
Proof.
  intros Hok. unfold QueueReap.
  destruct (Update_ok _ c t Hok) as (q' & -> & _ & _ & _ & Hcur & Hent & Hother).
  simpl. eexists. by split_and!.
Qed.
(** A failed [QueueLoadBacklog] touches the channel it is called for, in
    the retry queue and in [loadFailures], and nothing else. *)
Lemma QueueLoadBacklog_fail_frame b c seed now :
  queue_ok (loadRetries b) →
  ∃ b', QueueLoadBacklog b c true seed now = Some b'
    ∧ reaper b' = reaper b
    ∧ controlCh (loadRetries b') = controlCh (loadRetries b)
    ∧ curWork (loadRetries b') = curWork (loadRetries b)
    ∧ entries (items (loadRetries b')) c = [(c, Add now (loadFailuresOf b' c))]
    ∧ ∀ c', c' ≠ c →
        loadFailuresOf b' c' = loadFailuresOf b c'
        ∧ entries (items (loadRetries b')) c' = entries (items (loadRetries b)) c'.
Proof.
  intros Hok. unfold QueueLoadBacklog.
  rewrite QueueLoadBacklog_delay_fail. simpl. set (d := wrap64 _).
  destruct (QueueLoadBacklog_update_frame (with_loadFailures b c d) c d now Hok)
    as (b' & -> & Hlf & Hr & Hcnt & Hent & Hother).
  apply counters_eq in Hcnt as (Hch & _ & Hcur).
  assert (∀ c', loadFailuresOf b' c' = loadFailuresOf (with_loadFailures b c d) c')
    as Hlf' by (intros c'; unfold loadFailuresOf; by rewrite Hlf).
  exists b'. split_and!; try done.
  - rewrite Hlf', loadFailuresOf_insert. by case_decide.
  - intros c' Hne. split; [|by apply Hother].
    rewrite Hlf', loadFailuresOf_insert. by case_decide.
Qed.
End more_worker_facts.

(** X10.  [QueueLoadBacklog] on the channel [c], failed or not, schedules
    [c] in the retry queue at the clock reading plus the accumulated delay
    it leaves for [c], and touches nothing else: the reap queue, the tokens
    and [curWork] of the retry queue, the entries and the accumulated
    delays of the other channels are as they were. *)
Theorem QueueLoadBacklog_touches_one_channel b c didFail seed now :
  queue_ok (loadRetries b) →
  ∃ b', QueueLoadBacklog b c didFail seed now = Some b'
    ∧ reaper b' = reaper b
    ∧ controlCh (loadRetries b') = controlCh (loadRetries b)
    ∧ curWork (loadRetries b') = curWork (loadRetries b)
    ∧ entries (items (loadRetries b')) c = [(c, Add now (loadFailuresOf b' c))]
    ∧ ∀ c', c' ≠ c →
        loadFailuresOf b' c' = loadFailuresOf b c'
        ∧ entries (items (loadRetries b')) c' = entries (items (loadRetries b)) c'.
Proof.
  intros Hok. destruct didFail; [by apply QueueLoadBacklog_fail_frame|].
  unfold QueueLoadBacklog. simpl.
  destruct (QueueLoadBacklog_update_frame b c (loadFailuresOf b c) now Hok)
    as (b' & -> & Hlf & Hr & Hcnt & Hent & Hother).
  apply counters_eq in Hcnt as (Hch & _ & Hcur).
  exists b'. split_and!; try done.
  - unfold loadFailuresOf at 1. by rewrite Hlf.
  - intros c' Hne. split; [|by apply Hother].
    unfold loadFailuresOf. by rewrite Hlf.
Qed.

Lemma QueueLoadBacklog_touches_one_channel_witness :
  ∃ b', QueueLoadBacklog sample_bot 1 true 7 100 = Some b'
    ∧ reaper b' = reaper sample_bot
    ∧ loadFailuresOf b' 2 = loadFailuresOf sample_bot 2
    ∧ entries (items (loadRetries b')) 2 = [(2, 30%Z)].
Proof.
  destruct (QueueLoadBacklog_touches_one_channel sample_bot 1 true 7 100
              sample_queue_ok) as (b' & Hrun & Hr & _ & _ & _ & Hother).
  exists b'. destruct (Hother 2 ltac:(done)) as [Hlf Hent].
  split_and!; [exact Hrun|exact Hr|exact Hlf|]. by rewrite Hent.
Defined.

(** X11.  One turn of [loadWorker] for a channel that is not disabled takes
    the channel out of [curWork] and leaves the reap queue and the other
    channels alone.  Only on a retryable error is the channel scheduled
    again, with its accumulated delay doubled plus the jitter; after a
    successful load, and after any other error, the retry queue holds what
    it held and the accumulated delay is not reset. *)
Theorem loadWorker_retries_only_rate_limit b qr c err seed now :
  queue_ok (loadRetries b) →
  ∃ b', loadWorker_iteration b qr c false err seed now = Some b'
    ∧ (c ∉ curWork (queue_of b' qr))
    ∧ items (reaper b') = items (reaper b)
    ∧ (∀ c', c' ≠ c →
         loadFailuresOf b' c' = loadFailuresOf b c'
         ∧ entries (items (loadRetries b')) c' = entries (items (loadRetries b)) c')
    ∧ if isRetryableLoadError err
      then loadFailuresOf b' c
           = wrap64 (wrap64 (loadFailuresOf b c * 2) + seed mod (5 * Second))
           ∧ entries (items (loadRetries b')) c = [(c, Add now (loadFailuresOf b' c))]
      else loadFailures b' = loadFailures b
           ∧ items (loadRetries b') = items (loadRetries b).
Proof.
  intros Hok. unfold loadWorker_iteration, loadWorker_work.
  set (q1 := with_curWork (queue_of b qr) (curWork (queue_of b qr) ∖ {[c]})).
  set (b1 := with_queue b qr q1).
  assert (queue_ok (loadRetries b1)
          ∧ (c ∉ curWork (queue_of b1 qr))
          ∧ items (reaper b1) = items (reaper b)
          ∧ items (loadRetries b1) = items (loadRetries b)
          ∧ loadFailures b1 = loadFailures b) as (Hl1 & Hc1 & Hr1 & Hi1 & Hf1).
  { unfold b1, q1. destruct qr; simpl; split_and!; try done;
      apply not_elem_of_difference; right; by apply elem_of_singleton. }
  destruct (isRetryableLoadError err); simpl; fold q1; fold b1.
  - destruct (QueueLoadBacklog_fail_frame b1 c seed now Hl1)
      as (b' & Hrun & Hr & _ & Hcur & Hent & Hother).
    pose proof (QueueLoadBacklog_fail_ok b1 c seed now Hl1)
      as (b2 & Hrun2 & _ & _ & Hnew & _).
    rewrite Hrun in Hrun2. injection Hrun2 as <-.
    exists b'. split_and!; try done.
    + revert Hc1. destruct qr; simpl; [by rewrite Hr|by rewrite Hcur].
    + by rewrite Hr.
    + intros c' Hne. destruct (Hother c' Hne) as [-> ->].
      unfold loadFailuresOf, entries. by rewrite Hf1, Hi1.
    + rewrite Hnew. unfold loadFailuresOf. by rewrite Hf1.
  - exists b1. split_and!; try done.
    intros c' _. unfold loadFailuresOf, entries. by rewrite Hf1, Hi1.
Qed.

Lemma loadWorker_retries_only_rate_limit_witness :
  (∃ b', loadWorker_iteration sample_bot LoadRetries 1 false
           (Some "429: rate limit unmarshal error (cloudflare)") 7 100 = Some b'
     ∧ loadFailuresOf b' 1 = 6000000007%Z
     ∧ entries (items (loadRetries b')) 1 = [(1, 6000000107%Z)])
  ∧ (∃ b', loadWorker_iteration sample_bot LoadRetries 1 false
             (Some "403 Forbidden") 7 100 = Some b'
       ∧ loadFailures b' = loadFailures sample_bot
       ∧ items (loadRetries b') = items (loadRetries sample_bot)).
Proof.
  split.
  - destruct (loadWorker_retries_only_rate_limit sample_bot LoadRetries 1
                (Some "429: rate limit unmarshal error (cloudflare)") 7 100
                sample_queue_ok) as (b' & Hrun & _ & _ & _ & Hretry).
    change (isRetryableLoadError _) with true in Hretry.
    destruct Hretry as [Hlf Hent]. exists b'. split; [exact Hrun|].
    rewrite Hent, Hlf. split; reflexivity.
  - destruct (loadWorker_retries_only_rate_limit sample_bot LoadRetries 1
                (Some "403 Forbidden") 7 100 sample_queue_ok)
      as (b' & Hrun & _ & _ & _ & Hplain).
    change (isRetryableLoadError _) with false in Hplain.
    destruct Hplain as [Hlf Hit]. exists b'. split_and!; [exact Hrun|exact Hlf|exact Hit].
Defined.

(** X12.  One turn of [reapWorker] that ends without an error and without
    the refresh flag takes the channel out of [curWork] and schedules it in
    the reap queue at its next deletion time; the entries of the other
    channels, the retry queue and the accumulated delays are as they
    were. *)
Theorem reapWorker_plain_reap b qr c msgs count reapTime seed now :
  queue_ok (reaper b) →
  ∃ b', reapWorker_iteration b qr c (msgs, false, false) (count, None) false
          reapTime seed now = Some b'
    ∧ (c ∉ curWork (queue_of b' qr))
    ∧ entries (items (reaper b')) c = [(c, reapTime)]
    ∧ (∀ c', c' ≠ c → entries (items (reaper b')) c' = entries (items (reaper b)) c')
    ∧ items (loadRetries b') = items (loadRetries b)
    ∧ loadFailures b' = loadFailures b.
Proof.
  intros Hok. unfold reapWorker_iteration, reapWorker_work. simpl.
  set (q1 := with_curWork (queue_of b qr) (curWork (queue_of b qr) ∖ {[c]})).
  set (b1 := with_queue b qr q1).
  assert (queue_ok (reaper b1)
          ∧ (c ∉ curWork (queue_of b1 qr))
          ∧ items (reaper b1) = items (reaper b)
          ∧ items (loadRetries b1) = items (loadRetries b)
          ∧ loadFailures b1 = loadFailures b) as (Hr1 & Hc1 & Hi1 & Hl1 & Hf1).
  { unfold b1, q1. destruct qr; simpl; split_and!; try done;
      apply not_elem_of_difference; right; by apply elem_of_singleton. }
  destruct (QueueReap_frame b1 c reapTime Hr1)
    as (b2 & -> & Hl2 & Hf2 & Hcur2 & Hent2 & Hother2).
  simpl. exists b2. split_and!; try done.
  - revert Hc1. destruct qr; simpl; [by rewrite Hcur2|by rewrite Hl2].
  - intros c' Hne. rewrite (Hother2 c' Hne). unfold entries. by rewrite Hi1.
  - by rewrite Hl2.
  - by rewrite Hf2.
Qed.

Lemma reapWorker_plain_reap_witness :
  ∃ b', reapWorker_iteration (mkBot sample_queue (mkQueue [] 0 2 ∅) {[1 := (3 * Second)%Z]})
          Reaper 1 (3, false, false) (3%Z, None) false 500 7 100 = Some b'
    ∧ entries (items (reaper b')) 1 = [(1, 500%Z)]
    ∧ items (loadRetries b') = []
    ∧ loadFailures b' = {[1 := (3 * Second)%Z]}.
Proof.
  destruct (reapWorker_plain_reap
              (mkBot sample_queue (mkQueue [] 0 2 ∅) {[1 := (3 * Second)%Z]})
              Reaper 1 3 3 500 7 100 sample_queue_ok)
    as (b' & Hrun & _ & Hent & _ & Hl & Hf).
  exists b'. split_and!; [exact Hrun|exact Hent|exact Hl|exact Hf].
Defined.

(** * Accounting for work items *)

Section accounting_facts.
Implicit Types (s : system) (b : Bot) (q : reapQueue) (i : instance) (qr : qref).

Lemma gstep_accounting b qr i e b' i' tr c0 :
  gstep b qr i e = Some (b', i', tr) →
  offering c0 (sched i) + sum_list_with (dispatched qr c0) tr
    = offering c0 (sched i') + sum_list_with (delivered qr c0) tr
  ∧ sum_list_with (λ w, holding c0 (pc w)) (workers i)
      + sum_list_with (delivered qr c0) tr
    = sum_list_with (λ w, holding c0 (pc w)) (workers i')
      + sum_list_with (finished qr c0) tr.
Proof.
  intros H.
  destruct e; gstep_inv H.
  all: repeat match goal with
       | p : _ * _ |- _ => destruct p
       | H : worker_pc _ _ = Some _ |- _ => apply worker_pc_Some in H as (? & ? & ?)
       | |- context [loadWorker_timer ?w] =>
           unfold loadWorker_timer in *; destruct (mayTimeout w)
       | w : waitResult |- _ => destruct w
       end.
  all: unfold reapScheduler_check, loadWorker_work, reapWorker_work in *.
  all: repeat (case_match; simplify_eq/=).
  all: rewrite ?holding_snoc in *.
  all: repeat match goal with
       | H : workers ?i !! ?w = Some ?wk
         |- context [alter (λ x, mkWorker (mayTimeout x) ?p) ?w (workers ?i)] =>
           pose proof (holding_alter (workers i) w wk p c0 H); clear H
       | H : pc _ = _ |- _ => rewrite H in *; clear H
       | H : sched _ = _ |- _ => rewrite H in *; clear H
       end.
  all: simpl in *.
  all: repeat case_decide; subst; try lia.
  all: try match goal with
       | H : loadWorker_timer _ = _ |- _ =>
           unfold loadWorker_timer in H; by case_match
       end.
  all: exfalso; match goal with H : ¬ (_ ∧ _) |- _ => by apply H end.
Qed.

Lemma gstep_actions_own b qr i e b' i' tr qr0 c0 :
  gstep b qr i e = Some (b', i', tr) → qr0 ≠ qr →
  sum_list_with (dispatched qr0 c0) tr = 0
  ∧ sum_list_with (delivered qr0 c0) tr = 0
  ∧ sum_list_with (finished qr0 c0) tr = 0.
Proof.
  intros H Hne.
  destruct e; gstep_inv H; simpl.
  all: repeat case_match; simpl; repeat case_decide; try done.
  all: exfalso; match goal with H : _ ∧ _ |- _ => destruct H; congruence end.
Qed.

Lemma step_accounting s e s' tr qr c :
  step s e = Some (s', tr) →
  offering c (sched (inst_of s qr)) + sum_list_with (dispatched qr c) tr
    = offering c (sched (inst_of s' qr)) + sum_list_with (delivered qr c) tr
  ∧ sum_list_with (λ w, holding c (pc w)) (workers (inst_of s qr))
      + sum_list_with (delivered qr c) tr
    = sum_list_with (λ w, holding c (pc w)) (workers (inst_of s' qr))
      + sum_list_with (finished qr c) tr.
Proof.
  intros H. destruct e as [qr0 e|c0 t|c0|c0 d seed|c0 d now]; simpl in H.
  - destruct (gstep (bot s) qr0 (inst_of s qr0) e) as [[[b' i'] tr']|] eqn:Hg;
      simpl in H; [|done]. simplify_eq.
    rewrite inst_of_with_inst. simpl. case_decide as Hq.
    + subst qr0. by eapply gstep_accounting.
    + destruct (gstep_actions_own _ _ _ _ _ _ _ qr c Hg ltac:(done)) as (-> & -> & ->).
      by destruct qr.
  - destruct (QueueReap (bot s) c0 t) as [b'|]; simpl in H; [|done].
    simplify_eq. by destruct qr.
  - destruct (CancelReap (bot s) c0) as [b'|]; simpl in H; [|done].
    simplify_eq. by destruct qr.
  - destruct (QueueLoadBacklog_delay (bot s) c0 d seed) as [[b' d']|];
      simpl in H; [|done].
    simplify_eq. by destruct qr.
  - destruct (QueueLoadBacklog_update (bot s) c0 d now) as [b'|];
      simpl in H; [|done].
    simplify_eq. by destruct qr.
Qed.

Lemma run_accounting es : ∀ s s' tr qr c,
  run s es = Some (s', tr) →
  offering c (sched (inst_of s qr)) + sum_list_with (dispatched qr c) tr
    = offering c (sched (inst_of s' qr)) + sum_list_with (delivered qr c) tr
  ∧ sum_list_with (λ w, holding c (pc w)) (workers (inst_of s qr))
      + sum_list_with (delivered qr c) tr
    = sum_list_with (λ w, holding c (pc w)) (workers (inst_of s' qr))
      + sum_list_with (finished qr c) tr.
Proof.
  induction es as [|e es IH]; intros s s' tr qr c Hrun.
  { simpl in Hrun. simplify_eq. simpl. lia. }
  rewrite run_cons in Hrun.
  destruct (step s e) as [[s1 a]|] eqn:Hstep; simpl in Hrun; [|done].
  destruct (run s1 es) as [[s2 tr']|] eqn:Hrest; simpl in Hrun; [|done].
  simplify_eq.
  destruct (step_accounting _ _ _ _ qr c Hstep) as [H1 H2].
  destruct (IH _ _ _ qr c Hrest) as [H3 H4].
  rewrite !sum_list_with_app. lia.
Qed.

End accounting_facts.

(** X13.  In every run of the service and for every channel, the work
    items the scheduler of a queue dispatched are those its workers
    received plus the one the scheduler still offers, and the work items
    the workers received are those they are done with plus those they hold:
    no work item is received twice or without a dispatch, and none is
    finished twice. *)
Theorem work_items_accounted mr ml fr fl s0 es s tr qr c :
  initial mr ml fr fl = Some s0 → run s0 es = Some (s, tr) →
  sum_list_with (dispatched qr c) tr
    = sum_list_with (delivered qr c) tr + offering c (sched (inst_of s qr))
  ∧ sum_list_with (delivered qr c) tr
    = sum_list_with (finished qr c) tr
      + sum_list_with (λ w, holding c (pc w)) (workers (inst_of s qr))
  ∧ sum_list_with (finished qr c) tr ≤ sum_list_with (delivered qr c) tr
  ∧ sum_list_with (delivered qr c) tr ≤ sum_list_with (dispatched qr c) tr.
Proof.
  intros Hinit Hrun.
  destruct (run_accounting es _ _ _ qr c Hrun) as [H1 H2].
  destruct (initial_spec _ _ _ _ _ Hinit) as (_ & _ & ->).
  destruct qr; simpl in *; lia.
Qed.

Lemma work_items_accounted_witness :
  ∃ s tr, run sample_system reap_twice = Some (s, tr)
    ∧ sum_list_with (dispatched Reaper 7) tr = 2
    ∧ sum_list_with (delivered Reaper 7) tr = 1
    ∧ sum_list_with (finished Reaper 7) tr = 1
    ∧ offering 7 (sched (inst_of s Reaper)) = 1.
Proof.
  eexists _, _. split; [vm_compute; reflexivity|].
  destruct (work_items_accounted 2 2 reapWorker loadWorker sample_system reap_twice
              _ _ Reaper 7 eq_refl ltac:(vm_compute; reflexivity)) as (H1 & H2 & _ & _).
  split_and!; reflexivity.
Defined.

Section marking_facts.
Implicit Types (s : system) (b : Bot) (q : reapQueue) (i : instance) (qr : qref).

Lemma marked_counters q q' c : counters q' = counters q → marked q' c = marked q c.
Proof. intros (_ & _ & Hc)%counters_eq. unfold marked. by rewrite Hc. Qed.

(** What a transition does to [curWork]: nothing, or the scheduler marks
    the channel it dispatches, or a worker unmarks the channel it holds. *)
Lemma gstep_curWork_change b qr i e b' i' tr :
  gstep b qr i e = Some (b', i', tr) →
  (curWork (queue_of b' qr) = curWork (queue_of b qr)
   ∧ ∀ c, sum_list_with (dispatched qr c) tr = 0
          ∧ sum_list_with (removed qr c) tr = 0)
  ∨ (∃ c, (c ∉ curWork (queue_of b qr))
       ∧ curWork (queue_of b' qr) = {[c]} ∪ curWork (queue_of b qr)
       ∧ tr = [Dispatch qr c])
  ∨ (∃ c w, worker_pc i w = Some (Working c)
       ∧ curWork (queue_of b' qr) = curWork (queue_of b qr) ∖ {[c]}
       ∧ tr = [Remove qr c]).
Proof.
  intros H.
  destruct e; gstep_inv H;
    rewrite ?queue_of_with_queue_eq, ?queue_of_with_loadFailures.
  all: use_curWork qr.
  all: unfold reapScheduler_check, loadWorker_work, reapWorker_work in *.
  all: repeat (case_match; simplify_eq/=).
  all: repeat match goal with
       | H : bool_decide _ = false |- _ => apply bool_decide_eq_false in H
       | H : bool_decide _ = true |- _ => apply bool_decide_eq_true in H
       end.
  all: first [ by (left; split; [done|intros c'; simpl; by repeat case_match])
             | by (right; left; eexists; split_and!)
             | by (right; right; eexists _, _; split_and!) ].
Qed.

Lemma gstep_marked b qr i e b' i' tr c0 :
  exclusive b qr i → gstep b qr i e = Some (b', i', tr) →
  marked (queue_of b qr) c0 + sum_list_with (dispatched qr c0) tr
  = marked (queue_of b' qr) c0 + sum_list_with (removed qr c0) tr.
Proof.
  intros Hex H.
  destruct (gstep_curWork_change _ _ _ _ _ _ _ H)
    as [[Hcur Hnone]|[(c & Hnot & Hcur & ->)|(c & w & Hw & Hcur & ->)]];
    unfold marked; rewrite Hcur.
  - destruct (Hnone c0) as [-> ->]. done.
  - simpl. destruct (decide (c = c0)) as [->|Hne].
    + rewrite decide_False by done.
      rewrite (decide_True (P := c0 ∈ {[c0]} ∪ _))
        by (apply elem_of_union; left; by apply elem_of_singleton).
      rewrite decide_True by done. lia.
    + rewrite (decide_False (P := _ ∧ _)) by (intros [_ ?]; done).
      destruct (decide (c0 ∈ curWork (queue_of b qr))) as [Hin|Hout].
      * rewrite decide_True by (apply elem_of_union; by right). lia.
      * rewrite decide_False; [lia|].
        intros [Hc%elem_of_singleton|?]%elem_of_union; congruence.
  - simpl. apply worker_pc_Some in Hw as (wk & Hwk & Hpc).
    destruct (decide (c = c0)) as [->|Hne].
    + destruct (Hex c0) as [_ Himp].
      assert (c0 ∈ curWork (queue_of b qr)) as Hin.
      { apply Himp. unfold holders.
        assert (holding c0 (pc wk)
                ≤ sum_list_with (λ w, holding c0 (pc w)) (workers i)) as Hle
          by (apply (sum_list_with_in _ (λ w, holding c0 (pc w)));
              by eapply list_elem_of_lookup_2).
        rewrite Hpc in Hle. simpl in Hle. rewrite decide_True in Hle by done. lia. }
      rewrite decide_True by done.
      rewrite decide_False
        by (intros [_ Hn]%elem_of_difference; apply Hn; by apply elem_of_singleton).
      rewrite decide_True by done. lia.
    + rewrite (decide_False (P := _ ∧ _)) by (intros [_ ?]; done).
      destruct (decide (c0 ∈ curWork (queue_of b qr))) as [Hin|Hout].
      * rewrite decide_True; [lia|]. apply elem_of_difference. split; [done|].
        rewrite elem_of_singleton. congruence.
      * rewrite decide_False; [lia|]. by intros [? _]%elem_of_difference.
Qed.

Lemma step_marked s e s' tr qr c :
  exclusive (bot s) qr (inst_of s qr) → step s e = Some (s', tr) →
  marked (queue_of (bot s) qr) c + sum_list_with (dispatched qr c) tr
  = marked (queue_of (bot s') qr) c + sum_list_with (removed qr c) tr.
Proof.
  intros Hex H.
  destruct e as [qr0 e|c0 t|c0|c0 d seed|c0 d now]; simpl in H.
  - destruct (gstep (bot s) qr0 (inst_of s qr0) e) as [[[b' i'] tr']|] eqn:Hg;
      simpl in H; [|done]. simplify_eq.
    rewrite bot_with_inst. simpl.
    destruct (decide (qr0 = qr)) as [->|Hne].
    + by eapply gstep_marked.
    + destruct (gstep_pool _ _ _ _ _ _ _ Hg) as [_ Hother].
      rewrite (marked_counters _ _ c (Hother qr ltac:(done))).
      destruct (gstep_actions_own _ _ _ _ _ _ _ qr c Hg ltac:(done)) as (-> & _ & _).
      assert (sum_list_with (removed qr c) tr = 0) as ->; [|done].
      clear Hex Hother. destruct e; gstep_inv Hg; simpl.
      all: repeat case_match; simpl; repeat case_decide; try done.
      all: exfalso; match goal with H : _ ∧ _ |- _ => destruct H; congruence end.
  - destruct (QueueReap (bot s) c0 t) as [b'|] eqn:Hb; simpl in H; [|done].
    simplify_eq. simpl.
    by rewrite (marked_counters _ _ c (QueueReap_counters _ _ _ _ qr Hb)).
  - destruct (CancelReap (bot s) c0) as [b'|] eqn:Hb; simpl in H; [|done].
    simplify_eq. simpl.
    by rewrite (marked_counters _ _ c (CancelReap_counters _ _ _ qr Hb)).
  - destruct (QueueLoadBacklog_delay (bot s) c0 d seed) as [[b' d']|] eqn:Hb;
      simpl in H; [|done].
    simplify_eq. simpl.
    by rewrite (QueueLoadBacklog_delay_queues _ _ _ _ _ _ qr Hb).
  - destruct (QueueLoadBacklog_update (bot s) c0 d now) as [b'|] eqn:Hb;
      simpl in H; [|done].
    simplify_eq. simpl.
    by rewrite (marked_counters _ _ c (QueueLoadBacklog_update_counters _ _ _ _ _ qr Hb)).
Qed.

Lemma run_marked es : ∀ s s' tr qr c,
  exclusive (bot s) qr (inst_of s qr) → run s es = Some (s', tr) →
  marked (queue_of (bot s) qr) c + sum_list_with (dispatched qr c) tr
  = marked (queue_of (bot s') qr) c + sum_list_with (removed qr c) tr.
Proof.
  induction es as [|e es IH]; intros s s' tr qr c Hex Hrun.
  { simpl in Hrun. simplify_eq. simpl. lia. }
  rewrite run_cons in Hrun.
  destruct (step s e) as [[s1 a]|] eqn:Hstep; simpl in Hrun; [|done].
  destruct (run s1 es) as [[s2 tr']|] eqn:Hrest; simpl in Hrun; [|done].
  simplify_eq.
  pose proof (step_marked _ _ _ _ qr c Hex Hstep) as H1.
  pose proof (IH _ _ _ qr c (step_exclusive _ _ _ _ _ Hex Hstep) Hrest) as H2.
  rewrite !sum_list_with_app. lia.
Qed.
End marking_facts.

(** X14.  In every run of the service [curWork] holds exactly the channels
    that were dispatched and not removed since: for each channel the
    dispatches are the removals, plus one when the channel is in [curWork]. *)
Theorem in_flight_is_dispatched_not_removed mr ml fr fl s0 es s tr qr c :
  initial mr ml fr fl = Some s0 → run s0 es = Some (s, tr) →
  sum_list_with (dispatched qr c) tr
  = sum_list_with (removed qr c) tr + marked (queue_of (bot s) qr) c
  ∧ (c ∈ in_flight s qr
     ↔ sum_list_with (removed qr c) tr < sum_list_with (dispatched qr c) tr).
Proof.
  intros Hinit Hrun.
  assert (exclusive (bot s0) qr (inst_of s0 qr)) as Hex0.
  { destruct (initial_spec _ _ _ _ _ Hinit) as (_ & _ & ->).
    intros c'. unfold holders. destruct qr; simpl; split; lia. }
  pose proof (run_marked es _ _ _ qr c Hex0 Hrun) as Hm.
  assert (marked (queue_of (bot s0) qr) c = 0) as Hz.
  { destruct (initial_spec _ _ _ _ _ Hinit) as (_ & _ & ->).
    unfold marked. destruct qr; simpl; by rewrite decide_False by apply not_elem_of_empty. }
  rewrite Hz in Hm. split; [lia|].
  unfold in_flight. unfold marked in Hm.
  destruct (decide (c ∈ curWork (queue_of (bot s) qr))); split; try done; lia.
Qed.

Lemma in_flight_is_dispatched_not_removed_witness :
  ∃ s tr, run sample_system reap_twice = Some (s, tr)
    ∧ sum_list_with (dispatched Reaper 7) tr = 2
    ∧ sum_list_with (removed Reaper 7) tr = 1
    ∧ 7 ∈ in_flight s Reaper.
Proof.
  eexists _, _. split; [vm_compute; reflexivity|].
  destruct (in_flight_is_dispatched_not_removed 2 2 reapWorker loadWorker sample_system
              reap_twice _ _ Reaper 7 eq_refl ltac:(vm_compute; reflexivity))
    as [_ Hiff].
  split_and!; [reflexivity|reflexivity|]. apply Hiff. vm_compute. lia.
Defined.

(** * Accounting for tokens *)

Section token_facts.
Implicit Types (s : system) (b : Bot) (q : reapQueue) (i : instance) (qr : qref).

Lemma sum_with_alter {A} (f : A → nat) (g : A → A) (l : list A) w x :
  l !! w = Some x →
  sum_list_with f (alter g w l) + f x = sum_list_with f l + f (g x).
Proof.
  revert w. induction l as [|y l IH]; intros [|w] Hw; simpl in *;
    simplify_eq; [lia|].
  specialize (IH w Hw). unfold alter in IH. lia.
Qed.

Lemma gstep_tokens b qr i e b' i' tr :
  tokens_inv b qr i → gstep b qr i e = Some (b', i', tr) → tokens_inv b' qr i'.
Proof.
  intros [Htok Hret] H. unfold tokens_inv, live, starting in *.
  destruct e; gstep_inv H; rewrite ?queue_of_with_queue_eq.
  all: repeat match goal with
       | p : _ * _ |- _ => destruct p
       | H : send_token _ = Some _ |- _ => apply send_token_Some in H as [? ->]
       | H : loadWorker_deferred _ = Some _ |- _ =>
           apply loadWorker_deferred_Some in H as (? & ? & ?)
       | H : worker_pc _ _ = Some _ |- _ => apply worker_pc_Some in H as (? & ? & ?)
       | H : WaitForNext_pass _ _ = Some _ |- _ =>
           apply WaitForNext_pass_counters, counters_eq in H as (? & ? & ?)
       | H : QueueReap _ _ _ = Some _ |- _ =>
           apply (QueueReap_counters _ _ _ _ qr), counters_eq in H as (? & ? & ?)
       | H : QueueLoadBacklog_update _ _ _ _ = Some _ |- _ =>
           apply (QueueLoadBacklog_update_counters _ _ _ _ _ qr), counters_eq
             in H as (? & ? & ?)
       | H : QueueLoadBacklog_delay _ _ _ _ = Some _ |- _ =>
           apply (QueueLoadBacklog_delay_queues _ _ _ _ _ _ qr) in H
       | w : waitResult |- _ => destruct w
       end.
  all: unfold reapScheduler_check, loadWorker_work, reapWorker_work,
         loadWorker_timer in *.
  all: repeat (case_match; simplify_eq/=).
  all: rewrite ?queue_of_with_loadFailures in *.
  all: repeat match goal with
       | H : sched _ = _ |- _ => rewrite H in *; clear H
       | H : controlCh _ = _ |- _ => rewrite H in *; clear H
       end.
  all: simpl in *.
  all: rewrite ?sum_list_with_app; simpl.
  all: split;
       [ try lia
       | try done;
         try (apply Forall_app; split; [done|by repeat constructor]);
         try (apply Forall_alter; [done|];
              intros y Hy Hp; simpl; try done; congruence) ].
  all: match goal with
       | Hw : workers ?i !! ?w = Some ?wk
         |- context [alter ?g ?w (workers ?i)] =>
           pose proof (sum_with_alter (λ w, alive (pc w)) g _ _ _ Hw);
           pose proof (sum_with_alter kept g _ _ _ Hw);
           pose proof (Forall_lookup_1 _ _ _ _ Hret Hw)
       end.
  all: unfold kept in *; simpl in *.
  all: repeat match goal with
       | H : pc _ = _ |- _ => rewrite H in *; clear H
       | H : mayTimeout _ = _ |- _ => rewrite H in *; clear H
       end.
  all: simpl in *; try lia.
  all: match goal with
       | H : Returned = Returned → mayTimeout ?x = true |- _ =>
           rewrite (H eq_refl) in *; simpl in *; lia
       end.
Qed.
End token_facts.

Section lifting.
Implicit Types (s : system) (b : Bot) (q : reapQueue) (i : instance) (qr : qref).
Variable P : Bot → qref → instance → Prop.
Hypothesis P_gstep : ∀ b qr i e b' i' tr,
  P b qr i → gstep b qr i e = Some (b', i', tr) → P b' qr i'.
Hypothesis P_counters : ∀ b b' qr i,
  counters (queue_of b' qr) = counters (queue_of b qr) → P b qr i → P b' qr i.

Lemma step_lift s e s' tr qr :
  P (bot s) qr (inst_of s qr) → step s e = Some (s', tr) →
  P (bot s') qr (inst_of s' qr).
Proof using P_gstep P_counters.
  intros HP H.
  destruct e as [qr0 e|c0 t|c0|c0 d seed|c0 d now]; simpl in H.
  - destruct (gstep (bot s) qr0 (inst_of s qr0) e) as [[[b' i'] tr']|] eqn:Hg;
      simpl in H; [|done]. simplify_eq.
    rewrite bot_with_inst, inst_of_with_inst. simpl.
    case_decide as Hq.
    + subst qr0. by eapply P_gstep.
    + destruct (gstep_pool _ _ _ _ _ _ _ Hg) as [_ Hother].
      eapply P_counters; [|done]. by apply Hother.
  - destruct (QueueReap (bot s) c0 t) as [b'|] eqn:Hb; simpl in H; [|done].
    simplify_eq. simpl.
    eapply P_counters; [by eapply QueueReap_counters|by destruct qr].
  - destruct (CancelReap (bot s) c0) as [b'|] eqn:Hb; simpl in H; [|done].
    simplify_eq. simpl.
    eapply P_counters; [by eapply CancelReap_counters|by destruct qr].
  - destruct (QueueLoadBacklog_delay (bot s) c0 d seed) as [[b' d']|] eqn:Hb;
      simpl in H; [|done].
    simplify_eq. simpl.
    eapply P_counters;
      [by rewrite (QueueLoadBacklog_delay_queues _ _ _ _ _ _ qr Hb)|by destruct qr].
  - destruct (QueueLoadBacklog_update (bot s) c0 d now) as [b'|] eqn:Hb;
      simpl in H; [|done].
    simplify_eq. simpl.
    eapply P_counters; [by eapply QueueLoadBacklog_update_counters|by destruct qr].
Qed.

Lemma run_lift es : ∀ s s' tr qr,
  P (bot s) qr (inst_of s qr) → run s es = Some (s', tr) →
  P (bot s') qr (inst_of s' qr).
Proof using P_gstep P_counters.
  induction es as [|e es IH]; intros s s' tr qr HP Hrun.
  { simpl in Hrun. by simplify_eq. }
  rewrite run_cons in Hrun.
  destruct (step s e) as [[s1 a]|] eqn:Hstep; simpl in Hrun; [|done].
  destruct (run s1 es) as [[s2 tr']|] eqn:Hrest; simpl in Hrun; [|done].
  simplify_eq. eapply IH; [|done]. by eapply step_lift.
Qed.
End lifting.

Section pool_more_facts.
Implicit Types (s : system) (b : Bot) (q : reapQueue) (i : instance) (qr : qref).

Lemma run_app s es1 es2 s1 tr1 s2 tr2 :
  run s es1 = Some (s1, tr1) → run s1 es2 = Some (s2, tr2) →
  run s (es1 ++ es2) = Some (s2, tr1 ++ tr2).
Proof.
  revert s s1 tr1. induction es1 as [|e es1 IH]; intros s s1 tr1 H1 H2.
  { simpl in H1. by simplify_eq. }
  rewrite run_cons in H1.
  destruct (step s e) as [[s' a]|] eqn:Hstep; simpl in H1; [|done].
  destruct (run s' es1) as [[s'' tr']|] eqn:Hrest; simpl in H1; [|done].
  simplify_eq. simpl app. rewrite run_cons, Hstep. simpl.
  rewrite (IH _ _ _ Hrest H2). simpl. by rewrite app_assoc.
Qed.

Lemma run_tokens es s s' tr qr :
  tokens_inv (bot s) qr (inst_of s qr) → run s es = Some (s', tr) →
  tokens_inv (bot s') qr (inst_of s' qr).
Proof.
  apply (run_lift tokens_inv); [apply gstep_tokens|].
  intros b b' qr0 i Hc [Htok Hret].
  apply counters_eq in Hc as (Hch & _ & _).
  split; [by rewrite Hch|done].
Qed.

Lemma gstep_floor_first b qr i e b' i' tr :
  floor_first i → gstep b qr i e = Some (b', i', tr) → floor_first i'.
Proof.
  intros Hff H.
  destruct e; gstep_inv H.
  all: unfold reapScheduler_check in *.
  all: repeat match goal with
       | |- context [bool_decide ?P] => destruct (bool_decide P)
       | |- floor_first (match ?x with _ => _ end) => destruct x
       end.
  all: unfold floor_first in *; simpl in *.
  all: repeat match goal with
       | H : sched _ = _ |- _ => rewrite H in *; clear H
       end.
  all: try done.
  all: try (rewrite Hff; simpl; eexists _, []; by split_and!).
  all: try (destruct Hff as (wf & rest & Hw & Hm & Hall); rewrite Hw;
            simpl; eexists wf, (rest ++ [_]); split_and!; [done|done|];
            apply Forall_app; split; [done|by repeat constructor]).
  all: destruct (sched i); try (by rewrite Hff).
  all: destruct Hff as (wf & rest & Hw & Hm & Hall); rewrite Hw.
  all: match goal with
       | |- context [alter ?g ?w (?a :: ?r)] =>
           destruct w as [|w]; simpl;
           [ eexists _, r; by split_and!
           | eexists a, _; split_and!; [done|done|];
             apply Forall_alter; [done|]; by intros ]
       end.
Qed.

Lemma run_floor_first es s s' tr qr :
  floor_first (inst_of s qr) → run s es = Some (s', tr) →
  floor_first (inst_of s' qr).
Proof.
  apply (run_lift (λ _ _ i, floor_first i)); [|done].
  intros b qr0 i e b' i' tr0. apply gstep_floor_first.
Qed.

Lemma floor_first_lookup i w wk :
  floor_first i → workers i !! w = Some wk → (mayTimeout wk = false ↔ w = 0).
Proof.
  unfold floor_first. intros Hff Hw.
  assert (∃ w0 rest, workers i = w0 :: rest ∧ mayTimeout w0 = false
            ∧ Forall (λ w, mayTimeout w = true) rest) as (w0 & rest & Hl & Hm & Hall).
  { destruct (sched i); try done; rewrite Hff in Hw; done. }
  rewrite Hl in Hw. destruct w as [|w]; simpl in Hw.
  - by simplify_eq.
  - pose proof (Forall_lookup_1 _ _ _ _ Hall Hw) as Ht. simpl in Ht.
    rewrite Ht. split; [done|lia].
Qed.

Lemma floor_first_kept i : floor_first i → sum_list_with kept (workers i) ≤ 1.
Proof.
  unfold floor_first. intros Hff.
  assert (workers i = [] ∨ ∃ w0 rest, workers i = w0 :: rest
            ∧ Forall (λ w, mayTimeout w = true) rest) as [->|(w0 & rest & -> & Hall)].
  { destruct (sched i); try (by left); right;
      destruct Hff as (w0 & rest & ? & _ & ?); by exists w0, rest. }
  { simpl. lia. }
  simpl. assert (sum_list_with kept rest = 0) as ->.
  { induction Hall as [|x l Hx Hl IH]; [done|]. simpl. rewrite IH.
    unfold kept. rewrite Hx. by destruct (pc x). }
  unfold kept. repeat case_match; lia.
Qed.

Lemma initial_invs mr ml fr fl s0 qr :
  initial mr ml fr fl = Some s0 →
  tokens_inv (bot s0) qr (inst_of s0 qr) ∧ floor_first (inst_of s0 qr)
  ∧ pool_inv s0 qr
  ∧ Z.of_nat (controlCap (queue_of (bot s0) qr)) = maxWorkerCount_of mr ml qr
  ∧ wfunc (inst_of s0 qr) = (match qr with Reaper => fr | LoadRetries => fl end)
  ∧ all_in_loop (inst_of s0 qr).
Proof.
  intros (Hmr & Hml & ->)%initial_spec.
  unfold tokens_inv, floor_first, pool_inv, all_in_loop, live, starting.
  destruct qr; simpl; split_and!; try done; lia.
Qed.
End pool_more_facts.

(** X15.  In every run of the service the tokens in [controlCh] are those
    of the live workers, of the worker about to be started, and of the
    workers that ended without the deferred receive; of the latter there is
    at most one.  A worker waiting to run its deferred receive was started
    with [mayTimeout]; and once a worker started without [mayTimeout] has
    ended, the tokens outnumber the workers they stand for. *)
Theorem tokens_accounted mr ml fr fl s0 es s tr qr :
  initial mr ml fr fl = Some s0 → run s0 es = Some (s, tr) →
  controlCh (queue_of (bot s) qr)
    = live (inst_of s qr) + starting (inst_of s qr)
      + sum_list_with kept (workers (inst_of s qr))
  ∧ sum_list_with kept (workers (inst_of s qr)) ≤ 1
  ∧ (∀ w wk, workers (inst_of s qr) !! w = Some wk →
       pc wk = Returned → mayTimeout wk = true)
  ∧ (∀ w wk, workers (inst_of s qr) !! w = Some wk →
       mayTimeout wk = false → pc wk = Exited →
       live (inst_of s qr) + starting (inst_of s qr)
         < controlCh (queue_of (bot s) qr)).
Proof.
  intros Hinit Hrun.
  destruct (initial_invs _ _ _ _ _ qr Hinit) as (Htok0 & Hff0 & _).
  destruct (run_tokens _ _ _ _ qr Htok0 Hrun) as [Htok Hret].
  pose proof (run_floor_first _ _ _ _ qr Hff0 Hrun) as Hff.
  split_and!; [done|by apply floor_first_kept| |].
  - intros w wk Hw. by apply (Forall_lookup_1 _ _ _ _ Hret Hw).
  - intros w wk Hw Hm Hpc.
    assert (kept wk ≤ sum_list_with kept (workers (inst_of s qr))) as Hle
      by (apply sum_list_with_in; by eapply list_elem_of_lookup_2).
    unfold kept in Hle at 1. rewrite Hpc, Hm in Hle. lia.
Qed.

Lemma tokens_accounted_witness :
  ∃ s tr, run sample_system floor_exit = Some (s, tr)
    ∧ controlCh (queue_of (bot s) LoadRetries) = 1
    ∧ live (inst_of s LoadRetries) = 0
    ∧ sum_list_with kept (workers (inst_of s LoadRetries)) = 1
    ∧ live (inst_of s LoadRetries) + starting (inst_of s LoadRetries)
      < controlCh (queue_of (bot s) LoadRetries).
Proof.
  eexists _, _. split; [vm_compute; reflexivity|].
  destruct (tokens_accounted 2 2 reapWorker loadWorker sample_system floor_exit
              _ _ LoadRetries eq_refl ltac:(vm_compute; reflexivity))
    as (_ & _ & _ & Hleak).
  split_and!; [reflexivity|reflexivity|reflexivity|].
  by apply (Hleak 0 (mkWorker false Exited)).
Defined.

(** X16.  In every run of the service the worker started without
    [mayTimeout] is the first worker of its scheduler and the only such
    one; and the scheduler has no worker exactly while it has not got past
    its first [go]. *)
Theorem floor_worker_is_first mr ml fr fl s0 es s tr qr :
  initial mr ml fr fl = Some s0 → run s0 es = Some (s, tr) →
  (∀ w wk, workers (inst_of s qr) !! w = Some wk → (mayTimeout wk = false ↔ w = 0))
  ∧ (workers (inst_of s qr) = []
     ↔ sched (inst_of s qr) = SchedStart ∨ sched (inst_of s qr) = SchedGoFloor).
Proof.
  intros Hinit Hrun.
  destruct (initial_invs _ _ _ _ _ qr Hinit) as (_ & Hff0 & _).
  pose proof (run_floor_first _ _ _ _ qr Hff0 Hrun) as Hff.
  split; [intros w wk; by apply floor_first_lookup|].
  unfold floor_first in Hff.
  destruct (sched (inst_of s qr)) eqn:Hs;
    try (split; [intros _; by (left + right)|by intros _]).
  all: destruct Hff as (w0 & rest & -> & _); split; [done|by intros [|]].
Qed.

Lemma floor_worker_is_first_witness :
  ∃ s tr, run sample_system grow_pool = Some (s, tr)
    ∧ workers (inst_of s Reaper) = [mkWorker false AtReceive; mkWorker true AtReceive]
    ∧ (mayTimeout (mkWorker false AtReceive) = false ↔ 0 = 0)
    ∧ (mayTimeout (mkWorker true AtReceive) = false ↔ 1 = 0).
Proof.
  eexists _, _. split; [vm_compute; reflexivity|].
  destruct (floor_worker_is_first 2 2 reapWorker loadWorker sample_system grow_pool
              _ _ Reaper eq_refl ltac:(vm_compute; reflexivity)) as [Hflag _].
  split_and!; [reflexivity|by apply Hflag|by apply Hflag].
Defined.

Section blocked_facts.
Implicit Types (s : system) (b : Bot) (q : reapQueue) (i : instance) (qr : qref).

(** The state of a queue whose scheduler cannot send its first token. *)
Lemma gstep_no_capacity b qr i e :
  controlCap (queue_of b qr) = 0 → sched i = SchedStart → workers i = [] →
  gstep b qr i e = None.
Proof.
  intros Hcap Hs Hw.
  destruct e; simpl; unfold worker_pc; rewrite ?Hs, ?Hw; simpl; try done.
  - unfold send_token. case_decide; [lia|done].
  - by destruct (wfunc i).
  - by destruct (wfunc i).
  - by destruct (wfunc i).
Qed.

Lemma run_no_capacity es : ∀ s s' tr qr,
  controlCap (queue_of (bot s) qr) = 0 → curWork (queue_of (bot s) qr) = ∅ →
  sched (inst_of s qr) = SchedStart → workers (inst_of s qr) = [] →
  run s es = Some (s', tr) →
  controlCap (queue_of (bot s') qr) = 0 ∧ curWork (queue_of (bot s') qr) = ∅
  ∧ sched (inst_of s' qr) = SchedStart ∧ workers (inst_of s' qr) = [].
Proof.
  intros s s' tr qr Hcap Hcur Hs Hw Hrun.
  apply (run_lift (λ b qr i, controlCap (queue_of b qr) = 0
                     ∧ curWork (queue_of b qr) = ∅
                     ∧ sched i = SchedStart ∧ workers i = []) ) with (qr := qr) in Hrun;
    [done| | |done].
  - intros b qr0 i e b' i' tr0 (Hc & _ & Hs0 & Hw0) Hg.
    by rewrite gstep_no_capacity in Hg.
  - intros b b' qr0 i Hc (Hc0 & Hcur0 & Hs0 & Hw0).
    apply counters_eq in Hc as (_ & Hc & Hcw). split_and!; [congruence|congruence|done|done].
Qed.
End blocked_facts.

(** X17.  A queue made with [maxWorkerCount] 0 never starts: its scheduler
    stays before its first send on [controlCh], it has no worker, nothing
    is in [curWork], and none of its goroutines can take a step, whatever
    the rest of the service does. *)
Theorem no_capacity_no_worker mr ml fr fl s0 es s tr qr :
  initial mr ml fr fl = Some s0 → maxWorkerCount_of mr ml qr = 0%Z →
  run s0 es = Some (s, tr) →
  sched (inst_of s qr) = SchedStart
  ∧ workers (inst_of s qr) = []
  ∧ in_flight s qr = ∅
  ∧ ∀ e, step s (OfQueue qr e) = None.
Proof.
  intros Hinit Hzero Hrun.
  destruct (initial_invs _ _ _ _ _ qr Hinit) as (_ & _ & _ & Hcap0 & _).
  destruct (initial_spec _ _ _ _ _ Hinit) as (_ & _ & Hs0).
  destruct (run_no_capacity es s0 s tr qr) as (Hcap & Hcur & Hs & Hw); try done.
  { lia. }
  { subst s0. by destruct qr. }
  { subst s0. by destruct qr. }
  { subst s0. by destruct qr. }
  split_and!; [done|done|done|].
  intros e. simpl. by rewrite gstep_no_capacity.
Qed.

Lemma no_capacity_no_worker_witness :
  ∃ s0 s, initial 0 2 reapWorker loadWorker = Some s0
    ∧ run s0 [ExtQueueReap 7 10; ExtQueueReap 8 5] = Some (s, [])
    ∧ sched (inst_of s Reaper) = SchedStart
    ∧ workers (inst_of s Reaper) = []
    ∧ step s (OfQueue Reaper SendFloorToken) = None
    ∧ step s (OfQueue Reaper (Pass 20)) = None.
Proof.
  eexists _, _. split; [reflexivity|]. split; [vm_compute; reflexivity|].
  destruct (no_capacity_no_worker 0 2 reapWorker loadWorker _
              [ExtQueueReap 7 10; ExtQueueReap 8 5] _ _ Reaper eq_refl eq_refl
              ltac:(vm_compute; reflexivity)) as (Hs & Hw & _ & Hnone).
  split_and!; [exact Hs|exact Hw|apply Hnone|apply Hnone].
Defined.

Section exit_more_facts.
Implicit Types (s : system) (b : Bot) (q : reapQueue) (i : instance) (qr : qref).

Lemma live_pos i w wk : workers i !! w = Some wk → alive (pc wk) ≤ live i.
Proof.
  intros Hw. unfold live.
  apply (sum_list_with_in _ (λ w, alive (pc w))). by eapply list_elem_of_lookup_2.
Qed.

(** A worker that has ended stays so. *)
Lemma gstep_exited b qr i e b' i' tr w m :
  workers i !! w = Some (mkWorker m Exited) →
  gstep b qr i e = Some (b', i', tr) →
  workers i' !! w = Some (mkWorker m Exited).
Proof.
  intros Hw H.
  assert (∀ w' p, worker_pc i w' = Some p → p ≠ Exited → w' ≠ w) as Hne.
  { intros w' p Hp Hx ->. unfold worker_pc in Hp. rewrite Hw in Hp.
    simpl in Hp. congruence. }
  assert (∀ l : list worker, l !! w = Some (mkWorker m Exited) →
          ∀ x, (l ++ [x]) !! w = Some (mkWorker m Exited)) as Happ
    by (intros l Hl x; by apply lookup_app_l_Some).
  destruct e; gstep_inv H.
  all: repeat match goal with
       | |- context [match ?x with _ => _ end] => destruct x
       end; simpl; try done; try (by apply Happ).
  all: try match goal with
       | H : worker_pc _ ?w' = Some _ |- _ =>
           rewrite list_lookup_alter_ne; [done|]; by eapply Hne
       end.
  all: match goal with
       | H : workers _ !! ?w' = Some ?wk, Hp : pc ?wk = _ |- _ =>
           rewrite list_lookup_alter_ne; [done|];
           intros ->; rewrite Hw in H; injection H as <-; simpl in Hp; congruence
       end.
Qed.

Lemma run_exited es s s' tr qr w m :
  workers (inst_of s qr) !! w = Some (mkWorker m Exited) →
  run s es = Some (s', tr) →
  workers (inst_of s' qr) !! w = Some (mkWorker m Exited).
Proof.
  apply (run_lift (λ _ _ i, workers i !! w = Some (mkWorker m Exited))); [|done].
  intros b qr0 i e b' i' tr0. apply gstep_exited.
Qed.

Lemma all_in_loop_live i : all_in_loop i → live i = length (workers i).
Proof.
  unfold all_in_loop, live. induction 1 as [|x l [Hr He] Hl IH]; [done|].
  simpl. rewrite IH. by destruct (pc x).
Qed.

Lemma all_in_loop_kept i : all_in_loop i → sum_list_with kept (workers i) = 0.
Proof.
  unfold all_in_loop. induction 1 as [|x l [Hr He] Hl IH]; [done|].
  simpl. rewrite IH. unfold kept. by destruct (pc x).
Qed.
End exit_more_facts.

(** X18.  In every state the service reaches, a [loadWorker] started with
    [mayTimeout] that is idle when its timer fires ends, and its deferred
    receive goes through: one token leaves [controlCh], there is one live
    worker fewer, and the channel has room for a new token. *)
Theorem transient_loadWorker_exit_releases mr ml fr fl s0 es s tr qr w :
  initial mr ml fr fl = Some s0 → run s0 es = Some (s, tr) →
  wfunc (inst_of s qr) = loadWorker →
  workers (inst_of s qr) !! w = Some (mkWorker true AtReceive) →
  ∃ s', run s [OfQueue qr (TimerFires w); OfQueue qr (Deferred w)]
        = Some (s', [Exit qr w])
    ∧ worker_pc (inst_of s' qr) w = Some Exited
    ∧ S (controlCh (queue_of (bot s') qr)) = controlCh (queue_of (bot s) qr)
    ∧ S (live (inst_of s' qr)) = live (inst_of s qr)
    ∧ controlCh (queue_of (bot s') qr) < controlCap (queue_of (bot s') qr).
Proof.
  intros Hinit Hrun Hf Hw.
  destruct (initial_invs _ _ _ _ _ qr Hinit) as (_ & _ & Hpool0 & _).
  destruct (run_pool_inv es _ _ _ qr Hrun Hpool0) as [[Hlive Hcap] _].
  pose proof (live_pos _ _ _ Hw) as Hpos. simpl in Hpos.
  set (i := inst_of s qr) in *. set (q := queue_of (bot s) qr) in *.
  destruct (controlCh q) as [|n] eqn:Hn; [lia|].
  destruct (step_OfQueue s qr (TimerFires w) (bot s) (with_worker i w Returned) [])
    as (Hs1 & Hbot1 & Hinst1).
  { simpl. fold i. by rewrite Hf, Hw. }
  set (s1 := with_inst _ _ _) in *.
  assert (worker_pc i w = Some AtReceive) as Hpc by (unfold worker_pc; by rewrite Hw).
  destruct (step_OfQueue s1 qr (Deferred w)
              (with_queue (bot s) qr (with_controlCh q n))
              (with_worker (inst_of s1 qr) w Exited) [Exit qr w])
    as (Hs2 & Hbot2 & Hinst2).
  { simpl. rewrite Hinst1, (worker_pc_with_worker _ _ _ _ Hpc), Hbot1.
    fold q. unfold loadWorker_deferred. by rewrite Hn. }
  eexists. split_and!.
  - eapply (run_step _ _ _ _ _ _ _ Hs1), (run_step _ _ _ _ _ _ _ Hs2). done.
  - rewrite Hinst2, Hinst1. eapply worker_pc_with_worker, worker_pc_with_worker, Hpc.
  - rewrite Hbot2, queue_of_with_queue_eq. done.
  - rewrite Hinst2, Hinst1.
    pose proof (live_with_worker i w _ Returned Hw) as H1.
    assert (workers (with_worker i w Returned) !! w = Some (mkWorker true Returned))
      as Hw1 by (unfold with_worker; simpl; by rewrite list_lookup_alter_eq, Hw).
    pose proof (live_with_worker _ w _ Exited Hw1) as H2.
    simpl in *. lia.
  - rewrite Hbot2, queue_of_with_queue_eq. simpl. fold q in Hcap. lia.
Qed.

Lemma transient_loadWorker_exit_releases_witness :
  ∃ s tr s',
    run sample_system grow_load_pool = Some (s, tr)
    ∧ run s [OfQueue LoadRetries (TimerFires 1); OfQueue LoadRetries (Deferred 1)]
      = Some (s', [Exit LoadRetries 1])
    ∧ controlCh (queue_of (bot s) LoadRetries) = 2
    ∧ controlCh (queue_of (bot s') LoadRetries) = 1.
Proof.
  eexists _, _.
  destruct (transient_loadWorker_exit_releases 2 2 reapWorker loadWorker sample_system
              grow_load_pool _ _ LoadRetries 1 eq_refl
              ltac:(vm_compute; reflexivity) eq_refl eq_refl)
    as (s' & Hrun & _ & Hch & _).
  exists s'. split; [vm_compute; reflexivity|]. split; [exact Hrun|].
  split; [reflexivity|].
  change (controlCh (queue_of (bot _) LoadRetries)) with 2 in Hch at 2. lia.
Defined.

(** X19.  The [loadWorker] started without [mayTimeout] can end too: its
    timer, made by [time.NewTimer(0)] and never reset, is a ready case of
    its [select] whenever it waits for work.  It has no deferred receive,
    so it ends with its token still in [controlCh]; from then on, whatever
    happens, the deferred call of that worker is not among the transitions
    and the tokens outnumber the live workers and the one being started. *)
Theorem floor_loadWorker_exit_keeps_token mr ml fr fl s0 es s tr qr w :
  initial mr ml fr fl = Some s0 → run s0 es = Some (s, tr) →
  wfunc (inst_of s qr) = loadWorker →
  workers (inst_of s qr) !! w = Some (mkWorker false AtReceive) →
  ∃ s1, step s (OfQueue qr (TimerFires w)) = Some (s1, [Exit qr w])
    ∧ controlCh (queue_of (bot s1) qr) = controlCh (queue_of (bot s) qr)
    ∧ S (live (inst_of s1 qr)) = live (inst_of s qr)
    ∧ ∀ es' s2 tr2, run s1 es' = Some (s2, tr2) →
        step s2 (OfQueue qr (Deferred w)) = None
        ∧ live (inst_of s2 qr) + starting (inst_of s2 qr)
          < controlCh (queue_of (bot s2) qr).
Proof.
  intros Hinit Hrun Hf Hw.
  destruct (initial_invs _ _ _ _ _ qr Hinit) as (Htok0 & _).
  set (i := inst_of s qr) in *.
  destruct (step_OfQueue s qr (TimerFires w) (bot s) (with_worker i w Exited)
              [Exit qr w]) as (Hs1 & Hbot1 & Hinst1).
  { simpl. fold i. by rewrite Hf, Hw. }
  set (s1 := with_inst _ _ _) in *.
  assert (workers (inst_of s1 qr) !! w = Some (mkWorker false Exited)) as Hw1.
  { rewrite Hinst1. unfold with_worker. simpl. by rewrite list_lookup_alter_eq, Hw. }
  exists s1. split_and!; [done|by rewrite Hbot1| |].
  - rewrite Hinst1. pose proof (live_with_worker i w _ Exited Hw) as H1.
    simpl in H1. lia.
  - intros es' s2 tr2 Hrun2.
    pose proof (run_exited _ _ _ _ _ _ _ Hw1 Hrun2) as Hw2.
    assert (run s0 (es ++ OfQueue qr (TimerFires w) :: es')
            = Some (s2, tr ++ [Exit qr w] ++ tr2)) as Hall.
    { eapply run_app; [done|]. by eapply run_step. }
    destruct (run_tokens _ _ _ _ qr Htok0 Hall) as [Htok _].
    split.
    + simpl. unfold worker_pc. by rewrite Hw2.
    + assert (kept (mkWorker false Exited)
              ≤ sum_list_with kept (workers (inst_of s2 qr))) as Hle
        by (apply sum_list_with_in; by eapply list_elem_of_lookup_2).
      unfold kept at 1 in Hle. simpl in Hle. lia.
Qed.

Lemma floor_loadWorker_exit_keeps_token_witness :
  ∃ s tr s1,
    run sample_system [OfQueue LoadRetries SendFloorToken; OfQueue LoadRetries Go]
      = Some (s, tr)
    ∧ step s (OfQueue LoadRetries (TimerFires 0)) = Some (s1, [Exit LoadRetries 0])
    ∧ live (inst_of s1 LoadRetries) = 0
    ∧ controlCh (queue_of (bot s1) LoadRetries) = 1.
Proof.
  eexists _, _.
  destruct (floor_loadWorker_exit_keeps_token 2 2 reapWorker loadWorker sample_system
              [OfQueue LoadRetries SendFloorToken; OfQueue LoadRetries Go]
              _ _ LoadRetries 0 eq_refl
              ltac:(vm_compute; reflexivity) eq_refl eq_refl)
    as (s1 & Hstep & Hch & Hlive & _).
  exists s1. split; [vm_compute; reflexivity|]. split; [exact Hstep|].
  change (live (inst_of _ LoadRetries)) with 1 in Hlive at 2.
  split; [lia|exact Hch].
Defined.

(** X20.  In every run of a queue served by [reapWorker], no worker ever
    ends: no [Exit] is seen, every worker started is live and inside its
    loop, the tokens in [controlCh] are as many as the workers started plus
    the one being started, and neither a timer nor a deferred call is among
    the transitions. *)
Theorem reapWorker_never_exits mr ml fr fl s0 es s tr qr :
  initial mr ml fr fl = Some s0 → wfunc (inst_of s0 qr) = reapWorker →
  run s0 es = Some (s, tr) →
  (∀ w, (Exit qr w) ∉ tr)
  ∧ (∀ w wk, workers (inst_of s qr) !! w = Some wk →
       pc wk ≠ Returned ∧ pc wk ≠ Exited)
  ∧ live (inst_of s qr) = length (workers (inst_of s qr))
  ∧ controlCh (queue_of (bot s) qr)
    = length (workers (inst_of s qr)) + starting (inst_of s qr)
  ∧ ∀ w, step s (OfQueue qr (TimerFires w)) = None
       ∧ step s (OfQueue qr (Deferred w)) = None.
Proof.
  intros Hinit Hf Hrun.
  destruct (initial_invs _ _ _ _ _ qr Hinit) as (Htok0 & _ & _ & _ & _ & Hloop0).
  destruct (run_reapWorker_stays es _ _ _ qr Hf Hloop0 Hrun) as (Hloop & _ & Hex).
  destruct (run_tokens _ _ _ _ qr Htok0 Hrun) as [Htok _].
  assert (wfunc (inst_of s qr) = reapWorker) as Hf'.
  { refine (run_lift (λ _ _ i, wfunc i = reapWorker) _ _ es s0 s tr qr Hf Hrun);
      [|done].
    intros b qr0 i e b' i' tr0 Hi Hg. destruct e; gstep_inv Hg; by repeat case_match. }
  split_and!; [done| | | |].
  - intros w wk Hw. by apply (Forall_lookup_1 _ _ _ _ Hloop Hw).
  - by apply all_in_loop_live.
  - rewrite Htok, all_in_loop_kept, all_in_loop_live by done. lia.
  - intros w. simpl. rewrite Hf'. split; [done|].
    destruct (worker_pc (inst_of s qr) w) as [p|] eqn:Hp; [|done].
    destruct (all_in_loop_pc _ _ _ Hloop Hp). by destruct p.
Qed.

Lemma reapWorker_never_exits_witness :
  ∃ s tr, run sample_system grow_pool = Some (s, tr)
    ∧ live (inst_of s Reaper) = 2
    ∧ controlCh (queue_of (bot s) Reaper) = 2
    ∧ step s (OfQueue Reaper (TimerFires 1)) = None.
Proof.
  eexists _, _. split; [vm_compute; reflexivity|].
  destruct (reapWorker_never_exits 2 2 reapWorker loadWorker sample_system grow_pool
              _ _ Reaper eq_refl eq_refl ltac:(vm_compute; reflexivity))
    as (_ & _ & Hlive & Hch & Hnone).
  split_and!; [exact Hlive|exact Hch|apply Hnone].
Defined.

Section skip_facts.
Implicit Types (s : system) (b : Bot) (q : reapQueue) (i : instance) (qr : qref).

(** A worker that hits [continue] leaves the channel in [curWork] with no
    goroutine holding its work item. *)
Lemma gstep_skip b qr i e b' i' qr0 c :
  exclusive b qr i → gstep b qr i e = Some (b', i', [Skip qr0 c]) →
  qr0 = qr ∧ c ∈ curWork (queue_of b' qr) ∧ holders i' c = 0.
Proof.
  intros Hex H. specialize (Hex c). unfold holders in *.
  destruct e; gstep_inv H; rewrite ?queue_of_with_queue_eq.
  all: repeat match goal with
       | H : worker_pc _ _ = Some _ |- _ => apply worker_pc_Some in H as (? & ? & ?)
       end.
  all: unfold loadWorker_work, reapWorker_work, loadWorker_timer in *.
  all: repeat (case_match; simplify_eq/=).
  all: repeat match goal with
       | H : workers ?i !! ?w = Some ?wk
         |- context [alter (λ x, mkWorker (mayTimeout x) ?p) ?w (workers ?i)] =>
           pose proof (holding_alter (workers i) w wk p c H); clear H
       | H : pc _ = _ |- _ => rewrite H in *; clear H
       end.
  all: simpl in *.
  all: repeat case_decide; try done.
  all: destruct Hex as [Hle Himp].
  all: split_and!; [done|apply Himp; lia|lia].
Qed.

Lemma step_skip s e s1 qr c :
  exclusive (bot s) qr (inst_of s qr) → step s e = Some (s1, [Skip qr c]) →
  c ∈ in_flight s1 qr ∧ holders (inst_of s1 qr) c = 0.
Proof.
  intros Hex H. unfold in_flight.
  destruct e as [qr0 e|c0 t|c0|c0 d seed|c0 d now]; simpl in H.
  - destruct (gstep (bot s) qr0 (inst_of s qr0) e) as [[[b' i'] tr']|] eqn:Hg;
      simpl in H; [|done]. simplify_eq.
    rewrite bot_with_inst, inst_of_with_inst. simpl.
    destruct (decide (qr0 = qr)) as [->|Hne].
    + by destruct (gstep_skip _ _ _ _ _ _ _ _ Hex Hg) as (_ & ? & ?).
    + exfalso. clear Hex. destruct e; gstep_inv Hg; by repeat case_match.
  - destruct (QueueReap (bot s) c0 t); simpl in H; by simplify_eq.
  - destruct (CancelReap (bot s) c0); simpl in H; by simplify_eq.
  - destruct (QueueLoadBacklog_delay (bot s) c0 d seed); simpl in H; by simplify_eq.
  - destruct (QueueLoadBacklog_update (bot s) c0 d now); simpl in H; by simplify_eq.
Qed.
End skip_facts.

(** X21.  Once a worker has hit [continue] for a channel (it was disabled,
    or a critical error was handled), that channel stays in [curWork] for
    the rest of the run, whatever happens: it is never dispatched again and
    never removed. *)
Theorem skipped_channel_never_redispatched mr ml fr fl s0 es s tr qr c e s1 es' s2 tr' :
  initial mr ml fr fl = Some s0 → run s0 es = Some (s, tr) →
  step s e = Some (s1, [Skip qr c]) →
  run s1 es' = Some (s2, tr') →
  c ∈ in_flight s2 qr ∧ ((Dispatch qr c) ∉ tr') ∧ ((Remove qr c) ∉ tr').
Proof.
  intros Hinit Hrun Hstep Hrun'.
  pose proof (reachable_exclusive _ _ _ _ _ _ _ _ qr Hinit Hrun) as Hex.
  destruct (step_skip _ _ _ _ _ Hex Hstep) as [Hin Hz].
  by eapply run_stuck.
Qed.

Lemma skipped_channel_never_redispatched_witness :
  ∃ s tr s1 s2,
    run sample_system load_skip = Some (s, tr)
    ∧ step s (OfQueue LoadRetries (LoadDone 0 true None))
      = Some (s1, [Skip LoadRetries 7])
    ∧ run s1 load_again = Some (s2, [Discard LoadRetries 7])
    ∧ 7 ∈ in_flight s2 LoadRetries.
Proof.
  eexists _, _, _, _.
  split; [vm_compute; reflexivity|].
  split; [vm_compute; reflexivity|].
  split; [vm_compute; reflexivity|].
  refine (proj1 (skipped_channel_never_redispatched 2 2 reapWorker loadWorker
                   sample_system load_skip _ _ LoadRetries 7
                   (OfQueue LoadRetries (LoadDone 0 true None)) _
                   load_again _ _ eq_refl _ _ _)).
  - vm_compute. reflexivity.
  - vm_compute. reflexivity.
  - vm_compute. reflexivity.
Defined.

(** X22.  In every state the service reaches, the calls into the queues go
    through: [QueueReap], [CancelReap] and both parts of [QueueLoadBacklog]
    return, a pass of [WaitForNext] returns, a worker about to call
    [QueueReap] or [QueueLoadBacklog] can do so, and the deferred receive of
    a worker that left its loop finds a token in [controlCh]. *)
Theorem goroutines_never_panic mr ml fr fl s0 es s tr qr :
  initial mr ml fr fl = Some s0 → run s0 es = Some (s, tr) →
  (∀ c t, is_Some (step s (ExtQueueReap c t)))
  ∧ (∀ c, is_Some (step s (ExtCancelReap c)))
  ∧ (∀ c didFail seed, is_Some (step s (ExtLoadDelay c didFail seed)))
  ∧ (∀ c d now, is_Some (step s (ExtLoadRetriesUpdate c d now)))
  ∧ (∀ now, sched (inst_of s qr) = SchedWait →
       is_Some (step s (OfQueue qr (Pass now))))
  ∧ (∀ w c sqb t, worker_pc (inst_of s qr) w = Some (AtQueueReap c sqb) →
       is_Some (step s (OfQueue qr (DoQueueReap w t))))
  ∧ (∀ w c seed, worker_pc (inst_of s qr) w = Some (AtQueueLoadBacklog c) →
       is_Some (step s (OfQueue qr (DoBackoff w seed))))
  ∧ (∀ w c d now, worker_pc (inst_of s qr) w = Some (AtLoadRetriesUpdate c d) →
       is_Some (step s (OfQueue qr (DoLoadRetriesUpdate w now))))
  ∧ (∀ w, worker_pc (inst_of s qr) w = Some Returned →
       is_Some (step s (OfQueue qr (Deferred w)))).
Proof.
  intros Hinit Hrun.
  pose proof (reachable_bot_ok _ _ _ _ _ _ _ _ Hinit Hrun) as [Hr Hl].
  destruct (initial_invs _ _ _ _ _ qr Hinit) as (_ & _ & Hpool0 & _).
  destruct (run_pool_inv es _ _ _ qr Hrun Hpool0) as [[Hlive Hcap] _].
  assert (∀ c t, is_Some (QueueReap (bot s) c t)) as HQR.
  { intros c t. unfold QueueReap.
    destruct (Update_ok _ c t Hr) as (q' & -> & _). by eexists. }
  assert (∀ c d now, is_Some (QueueLoadBacklog_update (bot s) c d now)) as HQU.
  { intros c d now. unfold QueueLoadBacklog_update.
    destruct (Update_ok _ c (Add now d) Hl) as (q' & -> & _). by eexists. }
  assert (∀ c didFail seed, is_Some (QueueLoadBacklog_delay (bot s) c didFail seed))
    as HQD by (intros c [] seed; by eexists).
  split_and!.
  - intros c t. simpl. destruct (HQR c t) as [b' ->]. by eexists.
  - intros c. simpl. destruct (HQR c zeroTime) as [b' Hb].
    unfold CancelReap. unfold QueueReap in Hb. rewrite Hb. by eexists.
  - intros c didFail seed. simpl. destruct (HQD c didFail seed) as [r ->]. by eexists.
  - intros c d now. simpl. destruct (HQU c d now) as [b' ->]. by eexists.
  - intros now Hs. simpl. rewrite Hs.
    destruct (WaitForNext_pass_ok (queue_of (bot s) qr) now) as (r & q' & -> & _).
    { by destruct qr. }
    by eexists.
  - intros w c sqb t Hw. simpl. rewrite Hw.
    destruct (HQR c t) as [b' ->]. by eexists.
  - intros w c seed Hw. destruct (HQD c true seed) as [r Hd].
    destruct (step_OfQueue s qr (DoBackoff w seed) r.1
                (with_worker (inst_of s qr) w (AtLoadRetriesUpdate c r.2)) [])
      as (-> & _); [|by eexists].
    unfold gstep. cbv beta iota. by rewrite Hw, Hd.
  - intros w c d now Hw. simpl. rewrite Hw.
    destruct (HQU c d now) as [b' ->]. by eexists.
  - intros w Hw. simpl. rewrite Hw.
    apply worker_pc_Some in Hw as (wk & Hwk & Hpc).
    pose proof (live_pos _ _ _ Hwk) as Hpos. rewrite Hpc in Hpos. simpl in Hpos.
    unfold loadWorker_deferred.
    destruct (controlCh (queue_of (bot s) qr)); [lia|]. by eexists.
Qed.

Lemma goroutines_never_panic_witness :
  ∃ s tr, run sample_system reap_twice = Some (s, tr)
    ∧ is_Some (step s (ExtQueueReap 7 5))
    ∧ is_Some (step s (ExtCancelReap 9))
    ∧ is_Some (step s (ExtLoadDelay 7 true 11)).
Proof.
  eexists _, _. split; [vm_compute; reflexivity|].
  destruct (goroutines_never_panic 2 2 reapWorker loadWorker sample_system reap_twice
              _ _ Reaper eq_refl ltac:(vm_compute; reflexivity))
    as (H1 & H2 & H3 & _).
  split_and!; [apply H1|apply H2|apply H3].
Defined.

(** * Draining the queue *)

Section drain_facts.
Implicit Types (q : reapQueue) (it : pqItem).

Lemma keys_due pq pq' (now : Time) (l : list (chanRef * Time)) :
  keys pq ≡ₚ l ++ keys pq' →
  (∀ it, it ∈ pq → (nextReap it ≤ now)%Z) →
  ∀ it, it ∈ pq' → (nextReap it ≤ now)%Z.
Proof.
  intros Hperm Hdue it Hit.
  assert (key it ∈ keys pq) as Hin.
  { rewrite Hperm. apply elem_of_app. right.
    apply list_elem_of_fmap. by exists it. }
  apply list_elem_of_fmap in Hin as (it' & Hkey & Hit').
  specialize (Hdue it' Hit'). injection Hkey as _ Ht. lia.
Qed.

Lemma drain_spec m : ∀ q now,
  queue_ok q → length (items q) = m →
  (∀ it, it ∈ items q → (nextReap it ≤ now)%Z) →
  ∃ xs q', drain m q now = Some (xs, q')
    ∧ items q' = []
    ∧ queue_ok q'
    ∧ key <$> xs ≡ₚ keys (items q)
    ∧ StronglySorted (λ x y, (nextReap x ≤ nextReap y)%Z) xs.
Proof.
  induction m as [|m IH]; intros q now Hok Hlen Hdue.
  { exists [], q. simpl. split_and!; try done.
    - by apply nil_length_inv.
    - apply nil_length_inv in Hlen. by rewrite Hlen.
    - constructor. }
  destruct (items q) as [|root rest] eqn:Hitems; [done|].
  assert (Peek (items q) = Some root) as Hpeek by by rewrite Hitems.
  assert (root ∈ items q) as Hroot by (rewrite Hitems; apply list_elem_of_here).
  rewrite <- Hitems in *.
  destruct (WaitForNext_pass_due q now root Hok Hpeek (Hdue root Hroot))
    as (q1 & Hpass & Hok1 & Hperm & _).
  assert (length (items q1) = m) as Hlen1.
  { apply Permutation_length in Hperm. unfold keys in Hperm.
    simpl in Hperm. rewrite !length_fmap in Hperm. lia. }
  destruct (IH q1 now Hok1 Hlen1) as (xs & q' & Hdrain & Hempty & Hok' & Hxs & Hsorted).
  { apply (keys_due (items q) (items q1) now [key root]); [done|done]. }
  exists (set_index root (-1) :: xs), q'.
  change (drain (S m) q now)
    with (r ← WaitForNext_pass q now;
          match r.1 with
          | Return x => r' ← drain m r.2 now; Some (x :: r'.1, r'.2)
          | _ => Some ([], r.2)
          end).
  rewrite Hpass. simpl. rewrite Hdrain. simpl.
  split_and!; try done.
  - rewrite Hperm, <- Hxs. done.
  - constructor; [done|]. apply Forall_forall. intros x Hx. simpl.
    assert (key x ∈ keys (items q)) as Hin.
    { rewrite Hperm. apply list_elem_of_further. rewrite <- Hxs.
      apply list_elem_of_fmap. by exists x. }
    apply list_elem_of_fmap in Hin as (it & Hkey & Hit).
    pose proof (queue_ok_root_min q root it Hok Hpeek Hit) as Hmin.
    injection Hkey as _ Ht. lia.
Qed.
End drain_facts.

(** X23.  When every entry of a reachable queue is due, as many passes of
    [WaitForNext] in a row as the queue has entries pop them all: each
    entry comes out exactly once, in non-decreasing order of due time, the
    queue is empty afterwards, and one more pass pops nothing. *)
Theorem WaitForNext_drains_in_order n q0 os q now :
  newReapQueue n = Some q0 → qrun q0 os = Some q →
  (∀ it, it ∈ items q → (nextReap it ≤ now)%Z) →
  ∃ xs q', drain (length (items q)) q now = Some (xs, q')
    ∧ items q' = []
    ∧ key <$> xs ≡ₚ keys (items q)
    ∧ StronglySorted (λ x y, (nextReap x ≤ nextReap y)%Z) xs
    ∧ drain 1 q' now = Some ([], q').
Proof.
  intros Hnew Hrun Hdue. pose proof (reachable_ok _ _ _ _ Hnew Hrun) as Hok.
  destruct (drain_spec _ q now Hok eq_refl Hdue)
    as (xs & q' & Hdrain & Hempty & _ & Hperm & Hsorted).
  exists xs, q'. split_and!; try done.
  simpl. by rewrite WaitForNext_pass_empty.
Qed.

Lemma WaitForNext_drains_in_order_witness :
  ∃ xs q', drain 3 sample_queue 45 = Some (xs, q')
    ∧ items q' = []
    ∧ ch <$> xs = [2; 1; 3]
    ∧ StronglySorted (λ x y, (nextReap x ≤ nextReap y)%Z) xs.
Proof.
  destruct sample_queue_reached as [Hnew Hrun].
  destruct (WaitForNext_drains_in_order 2 _ sample_ops sample_queue 45 Hnew Hrun)
    as (xs & q' & Hdrain & Hempty & _ & Hsorted & _).
  { intros it Hin. simpl in Hin.
    repeat (apply elem_of_cons in Hin as [->|Hin]; [simpl; lia|]).
    by apply elem_of_nil in Hin. }
  exists xs, q'. split_and!; [exact Hdrain|exact Hempty| |exact Hsorted].
  change (length (items sample_queue)) with 3 in Hdrain.
  vm_compute in Hdrain. by injection Hdrain as <- _.
Defined.

(** * [sendWorkItem] with its timer *)

Section timer_facts.
Implicit Types (s : system) (ts : timed) (b : Bot) (i : instance) (qr : qref).

Lemma send_of_with_send ts qr st qr' :
  send_of (with_send ts qr st) qr' = if decide (qr = qr') then st else send_of ts qr'.
Proof. by destruct qr, qr'. Qed.

Lemma sys_with_send ts qr st : sys (with_send ts qr st) = sys ts.
Proof. by destruct qr. Qed.

Lemma trun_cons ts e es :
  trun ts (e :: es) =
    r ← tstep ts e; r' ← trun r.1 es; Some (r'.1, r.2 ++ r'.2).
Proof. done. Qed.

(** What an event of a queue does to its scheduler, and what it shows. *)
Lemma gstep_sched b qr i e b' i' tr :
  gstep b qr i e = Some (b', i', tr) →
  match e with
  | SendFloorToken => sched i = SchedStart ∧ sched i' = SchedGoFloor ∧ tr = []
  | Go =>
      (sched i = SchedGoFloor ∧ sched i' = SchedWait ∧ tr = [Start qr false])
      ∨ ∃ c, sched i = SchedGoTransient c ∧ sched i' = SchedSend c
             ∧ tr = [Start qr true]
  | Pass _ =>
      sched i = SchedWait ∧ tr = []
      ∧ (sched i' = SchedWait ∨ ∃ c, sched i' = SchedPopped c)
  | CheckCurWork =>
      ∃ c, sched i = SchedPopped c
        ∧ ((sched i' = SchedWait ∧ tr = [Discard qr c])
           ∨ (sched i' = SchedSend c ∧ tr = [Dispatch qr c]))
  | SendTransientToken =>
      ∃ c, sched i = SchedSend c ∧ sched i' = SchedGoTransient c ∧ tr = []
  | Handoff w =>
      ∃ c, sched i = SchedSend c ∧ sched i' = SchedWait ∧ tr = [Deliver qr c w]
  | _ => sched i' = sched i ∧ sum_list_with (handed qr) tr = 0
  end.
Proof.
  intros H. destruct e as [| |now| | | | | | | | | |].
  3:{ unfold gstep in H. destruct (sched i) eqn:Hs; try done.
      apply bind_Some in H as ([r q'] & _ & H). simplify_eq. simpl.
      split_and!; try done. destruct r; simpl; eauto. }
  3:{ unfold gstep in H. destruct (sched i) as [| | |c| |] eqn:Hs; try done.
      simplify_eq. exists c. split; [done|]. unfold reapScheduler_check.
      case_bool_decide; simpl; eauto. }
  all: gstep_inv H; eauto 8.
Qed.

(** The actions of a queue carry its name. *)
Lemma gstep_handed_other b qr' i e b' i' tr qr :
  gstep b qr' i e = Some (b', i', tr) → qr' ≠ qr →
  sum_list_with (handed qr) tr = 0.
Proof.
  intros H Hne. destruct e; gstep_inv H; simpl; repeat case_decide; done.
Qed.

(** What a transition is to the scheduler of [qr]: nothing, an event of
    [step] that [sendWorkItem] allows where it is, or a move of its timer. *)
Lemma tstep_cases ts e ts' tr qr :
  tstep ts e = Some (ts', tr) →
  (send_of ts' qr = send_of ts qr
   ∧ sched (inst_of (sys ts') qr) = sched (inst_of (sys ts) qr)
   ∧ sum_list_with (handed qr) tr = 0)
  ∨ (∃ e' b', e = Plain (OfQueue qr e')
       ∧ send_after (send_of ts qr) e' = Some (send_of ts' qr)
       ∧ gstep (bot (sys ts)) qr (inst_of (sys ts) qr) e'
         = Some (b', inst_of (sys ts') qr, tr))
  ∨ (tr = [] ∧ sys ts' = sys ts
     ∧ ((e = StopReset qr
         ∧ send_pc (send_of ts qr) = AtStop
         ∧ send_timer (send_of ts qr) ≠ TimerDrained
         ∧ send_of ts' qr = mkSend AtSelect TimerRunning)
        ∨ (e = Expires qr
           ∧ send_timer (send_of ts qr) = TimerRunning
           ∧ send_of ts' qr = mkSend (send_pc (send_of ts qr)) TimerExpired)
        ∨ (e = RecvTimer qr
           ∧ (∃ c, sched (inst_of (sys ts) qr) = SchedSend c)
           ∧ send_of ts qr = mkSend AtSelect TimerExpired
           ∧ send_of ts' qr = mkSend AtInnerSelect TimerDrained))).
Proof.
  intros H. destruct e as [[qr' e'|c t|c|c d seed|c d now]|qr'|qr'|qr'];
    simpl in H.
  - apply bind_Some in H as (st & Hst & H).
    destruct (gstep (bot (sys ts)) qr' (inst_of (sys ts) qr') e')
      as [[[b' i'] tr']|] eqn:Hg; simpl in H; [|done]. simplify_eq.
    rewrite send_of_with_send, sys_with_send. simpl.
    rewrite inst_of_with_inst. destruct (decide (qr' = qr)) as [->|Hq].
    + right. left. by exists e', b'.
    + left. split_and!; try done. by eapply gstep_handed_other.
  - left. destruct (QueueReap (bot (sys ts)) c t); simpl in H; [|done].
    simplify_eq. by destruct qr.
  - left. destruct (CancelReap (bot (sys ts)) c); simpl in H; [|done].
    simplify_eq. by destruct qr.
  - left. destruct (QueueLoadBacklog_delay (bot (sys ts)) c d seed);
      simpl in H; [|done].
    simplify_eq. by destruct qr.
  - left. destruct (QueueLoadBacklog_update (bot (sys ts)) c d now);
      simpl in H; [|done].
    simplify_eq. by destruct qr.
  - destruct (sched (inst_of (sys ts) qr')) eqn:Hs; try done.
    destruct (send_pc (send_of ts qr')) eqn:Hpc; try done.
    destruct (send_timer (send_of ts qr')) eqn:Ht; simpl in H; simplify_eq.
    all: rewrite send_of_with_send, sys_with_send;
      destruct (decide (qr' = qr)) as [->|Hq];
      [ right; right; split_and!; try done; left; rewrite Ht; by split_and!
      | by left ].
  - destruct (send_timer (send_of ts qr')) eqn:Ht; simplify_eq.
    rewrite send_of_with_send, sys_with_send.
    destruct (decide (qr' = qr)) as [->|Hq];
      [ right; right; split_and!; try done; right; left; by split_and!
      | by left ].
  - destruct (sched (inst_of (sys ts) qr')) eqn:Hs; try done.
    destruct (send_of ts qr') as [[] []] eqn:Hst; simplify_eq.
    rewrite send_of_with_send, sys_with_send.
    destruct (decide (qr' = qr)) as [->|Hq];
      [ right; right; split_and!; try done; right; right; rewrite Hs; eauto
      | by left ].
Qed.

(** Once [sendWorkItem] has left its second [select], its scheduler gets
    nowhere: it may pop one more channel, and then it is at the head of the
    loop of [sendWorkItem] for good. *)
Lemma send_blocked_step ts qr e ts' tr :
  send_blocked ts qr → tstep ts e = Some (ts', tr) →
  send_blocked ts' qr
  ∧ sum_list_with (handed qr) tr = 0
  ∧ ∀ c, sched (inst_of (sys ts) qr) = SchedSend c →
         sched (inst_of (sys ts') qr) = SchedSend c.
Proof.
  unfold send_blocked. intros (Ht & Hpc & Hs) H.
  destruct (tstep_cases _ _ _ _ qr H)
    as [(-> & -> & Hz)|[(e' & b' & -> & Hafter & Hg)
       |(-> & Hsys & [(_ & _ & Hne & _)|[(_ & Hrun & _)|(_ & _ & Hst & _)]])]].
  - done.
  - pose proof (gstep_sched _ _ _ _ _ _ _ Hg) as Hsched.
    destruct (send_of ts qr) as [pc0 t0]. simpl in *. subst pc0 t0.
    destruct e'; simpl in Hafter; simplify_eq; rewrite <- Hafter; simpl.
    + destruct Hsched as (Hs1 & _). by rewrite Hs1 in Hs.
    + destruct Hsched as [(Hs1 & _)|(c & Hs1 & _)]; by rewrite Hs1 in Hs.
    + destruct Hsched as (Hs1 & -> & [->|[c ->]]). all: split_and!; try done.
      all: intros c'; by rewrite Hs1.
    + destruct Hsched as (c & Hs1 & [[-> ->]|[-> ->]]).
      all: split_and!; try done; intros c'; by rewrite Hs1.
    + all: destruct Hsched as [-> Hz]; by split_and!.
    + all: destruct Hsched as [-> Hz]; by split_and!.
    + all: destruct Hsched as [-> Hz]; by split_and!.
    + all: destruct Hsched as [-> Hz]; by split_and!.
    + all: destruct Hsched as [-> Hz]; by split_and!.
    + all: destruct Hsched as [-> Hz]; by split_and!.
    + all: destruct Hsched as [-> Hz]; by split_and!.
  - done.
  - congruence.
  - rewrite Hst in Hpc. done.
Qed.

Lemma send_blocked_run tes : ∀ ts qr ts' tr,
  send_blocked ts qr → trun ts tes = Some (ts', tr) →
  send_blocked ts' qr
  ∧ sum_list_with (handed qr) tr = 0
  ∧ ∀ c, sched (inst_of (sys ts) qr) = SchedSend c →
         sched (inst_of (sys ts') qr) = SchedSend c.
Proof.
  induction tes as [|e tes IH]; intros ts qr ts' tr Hb Hrun.
  { simpl in Hrun. by simplify_eq. }
  rewrite trun_cons in Hrun.
  destruct (tstep ts e) as [[ts1 a]|] eqn:Hstep; simpl in Hrun; [|done].
  destruct (trun ts1 tes) as [[ts2 tr']|] eqn:Hrest; simpl in Hrun; [|done].
  simplify_eq.
  destruct (send_blocked_step _ _ _ _ _ Hb Hstep) as (Hb1 & Hz1 & Hs1).
  destruct (IH _ _ _ _ Hb1 Hrest) as (Hb2 & Hz2 & Hs2).
  split_and!; [done| |by auto]. rewrite sum_list_with_app. lia.
Qed.

(** At its second [select], [sendWorkItem] stays there, or sends its token
    and starts a worker, or hands its item to a worker. *)
Lemma send_inner_step ts qr c e ts' tr :
  send_inner ts qr c → tstep ts e = Some (ts', tr) →
  (send_inner ts' qr c ∧ sum_list_with (handed qr) tr = 0)
  ∨ (send_blocked ts' qr
     ∧ ((tr = [Start qr true] ∧ sched (inst_of (sys ts') qr) = SchedSend c)
        ∨ ∃ w, tr = [Deliver qr c w])).
Proof.
  unfold send_inner, send_blocked. intros (Ht & Hpc & Hs) H.
  destruct (tstep_cases _ _ _ _ qr H)
    as [(-> & -> & Hz)|[(e' & b' & -> & Hafter & Hg)
       |(-> & Hsys & [(_ & Hst & _)|[(_ & Hrun & _)|(_ & _ & Hst & _)]])]].
  - by left.
  - pose proof (gstep_sched _ _ _ _ _ _ _ Hg) as Hsched.
    destruct (send_of ts qr) as [pc0 t0]. simpl in *. subst pc0 t0.
    destruct e'; simpl in Hafter; simplify_eq; rewrite <- Hafter; simpl.
    + destruct Hsched as (Hs1 & _). rewrite Hs1 in Hs. by destruct Hs.
    + destruct Hsched as [(Hs1 & _)|(c' & Hs1 & Hs2 & ->)];
        rewrite Hs1 in Hs; destruct Hs as [?|?]; simplify_eq.
      right. rewrite Hs2. split_and!; try done. by left.
    + destruct Hsched as (Hs1 & _). rewrite Hs1 in Hs. by destruct Hs.
    + destruct Hsched as (c' & Hs1 & _). rewrite Hs1 in Hs. by destruct Hs.
    + destruct Hsched as (c' & Hs1 & Hs2 & ->).
      rewrite Hs1 in Hs; destruct Hs as [?|?]; simplify_eq.
      left. rewrite Hs2. split_and!; try done. by right.
    + destruct Hsched as (c' & Hs1 & Hs2 & ->).
      rewrite Hs1 in Hs; destruct Hs as [?|?]; simplify_eq.
      right. rewrite Hs2. split_and!; try done. right. by eexists.
    + all: destruct Hsched as [-> Hz]; left; by split_and!.
    + all: destruct Hsched as [-> Hz]; left; by split_and!.
    + all: destruct Hsched as [-> Hz]; left; by split_and!.
    + all: destruct Hsched as [-> Hz]; left; by split_and!.
    + all: destruct Hsched as [-> Hz]; left; by split_and!.
    + all: destruct Hsched as [-> Hz]; left; by split_and!.
    + all: destruct Hsched as [-> Hz]; left; by split_and!.
  - congruence.
  - congruence.
  - rewrite Hst in Hpc. done.
Qed.

Lemma handed_zero qr tr a :
  sum_list_with (handed qr) tr = 0 → a ∈ tr → handed qr a = 0.
Proof.
  induction tr as [|x tr IH]; simpl; intros Hz Hin.
  - by apply elem_of_nil in Hin.
  - apply elem_of_cons in Hin as [->|Hin]; [lia|]. apply IH; [lia|done].
Qed.

Lemma send_inner_run tes : ∀ ts qr c ts' tr,
  send_inner ts qr c → trun ts tes = Some (ts', tr) →
  send_timer (send_of ts' qr) = TimerDrained
  ∧ sum_list_with (handed qr) tr ≤ 1
  ∧ (∀ c' w, Deliver qr c' w ∈ tr → c' = c)
  ∧ (Start qr true ∈ tr →
       (∀ c' w, Deliver qr c' w ∉ tr)
       ∧ sched (inst_of (sys ts') qr) = SchedSend c
       ∧ send_pc (send_of ts' qr) = AtStop).
Proof.
  induction tes as [|e tes IH]; intros ts qr c ts' tr Hin Hrun.
  { simpl in Hrun. simplify_eq. split_and!; [apply Hin|simpl; lia| |].
    - intros c' w H. by apply elem_of_nil in H.
    - intros H. by apply elem_of_nil in H. }
  rewrite trun_cons in Hrun.
  destruct (tstep ts e) as [[ts1 a]|] eqn:Hstep; simpl in Hrun; [|done].
  destruct (trun ts1 tes) as [[ts2 tr']|] eqn:Hrest; simpl in Hrun; [|done].
  simplify_eq.
  destruct (send_inner_step _ _ _ _ _ _ Hin Hstep)
    as [[Hin1 Hz]|[Hb1 Hdone]].
  - destruct (IH _ _ _ _ _ Hin1 Hrest) as (Ht & Hle & Hdel & Hstart).
    split_and!; [done|rewrite sum_list_with_app; lia| |].
    { intros c' w [Ha|Hd]%elem_of_app; [|by eapply Hdel].
      apply (handed_zero _ _ _ Hz) in Ha. simpl in Ha.
      by rewrite decide_True in Ha. }
    intros [Ha|Hs]%elem_of_app.
    { apply (handed_zero _ _ _ Hz) in Ha. simpl in Ha.
      by rewrite decide_True in Ha. }
    destruct (Hstart Hs) as (Hnone & Hrest2). split; [|done].
    intros c' w [Ha|Hd]%elem_of_app; [|by eapply Hnone].
    apply (handed_zero _ _ _ Hz) in Ha. simpl in Ha.
    by rewrite decide_True in Ha.
  - destruct (send_blocked_run _ _ _ _ _ Hb1 Hrest) as (Hb2 & Hz2 & Hkeep).
    assert (∀ x, x ∈ tr' → handed qr x = 0) as Hquiet
      by (intros x; by apply handed_zero).
    split_and!; [apply Hb2| | |].
    { rewrite sum_list_with_app.
      destruct Hdone as [[-> _]|[w ->]]; simpl; rewrite decide_True by done; lia. }
    { intros c' w [Ha|Hd]%elem_of_app.
      - destruct Hdone as [[-> _]|[w' ->]];
          apply list_elem_of_singleton in Ha; by simplify_eq.
      - apply Hquiet in Hd. simpl in Hd. by rewrite decide_True in Hd. }
    intros [Ha|Hs]%elem_of_app.
    2:{ apply Hquiet in Hs. simpl in Hs. by rewrite decide_True in Hs. }
    destruct Hdone as [[-> Hsend]|[w ->]].
    2:{ apply list_elem_of_singleton in Ha. done. }
    split_and!; [|by apply Hkeep|apply Hb2].
    intros c' w [Hd|Hd]%elem_of_app.
    + apply list_elem_of_singleton in Hd. done.
    + apply Hquiet in Hd. simpl in Hd. by rewrite decide_True in Hd.
Qed.

(** Every transition with the timers is a transition of [step], or leaves
    the service as it is and shows nothing. *)
Lemma tstep_refines ts e ts' tr :
  tstep ts e = Some (ts', tr) →
  (sys ts' = sys ts ∧ tr = []) ∨ ∃ e', step (sys ts) e' = Some (sys ts', tr).
Proof.
  intros H. destruct e as [[qr' e'|c t|c|c d seed|c d now]|qr'|qr'|qr'].
  - right. exists (OfQueue qr' e'). simpl in H.
    apply bind_Some in H as (st & _ & H).
    apply bind_Some in H as ([s1 tr1] & Hstep & H). simplify_eq.
    by rewrite sys_with_send.
  - right. exists (ExtQueueReap c t). simpl in H.
    apply bind_Some in H as ([s1 tr1] & Hstep & H). by simplify_eq.
  - right. exists (ExtCancelReap c). simpl in H.
    apply bind_Some in H as ([s1 tr1] & Hstep & H). by simplify_eq.
  - right. exists (ExtLoadDelay c d seed). simpl in H.
    apply bind_Some in H as ([s1 tr1] & Hstep & H). by simplify_eq.
  - right. exists (ExtLoadRetriesUpdate c d now). simpl in H.
    apply bind_Some in H as ([s1 tr1] & Hstep & H). by simplify_eq.
  - left. simpl in H. repeat case_match; simplify_option_eq;
      by rewrite sys_with_send.
  - left. simpl in H. repeat case_match; simplify_option_eq;
      by rewrite sys_with_send.
  - left. simpl in H. repeat case_match; simplify_option_eq;
      by rewrite sys_with_send.
Qed.

Lemma trun_refines tes : ∀ ts ts' tr,
  trun ts tes = Some (ts', tr) → ∃ es, run (sys ts) es = Some (sys ts', tr).
Proof.
  induction tes as [|e tes IH]; intros ts ts' tr Hrun.
  { simpl in Hrun. simplify_eq. by exists []. }
  rewrite trun_cons in Hrun.
  destruct (tstep ts e) as [[ts1 a]|] eqn:Hstep; simpl in Hrun; [|done].
  destruct (trun ts1 tes) as [[ts2 tr']|] eqn:Hrest; simpl in Hrun; [|done].
  simplify_eq. destruct (IH _ _ _ Hrest) as (es & Hes).
  destruct (tstep_refines _ _ _ _ Hstep) as [[Hsys ->]|(e' & He')].
  - exists es. by rewrite <- Hsys.
  - exists (e' :: es). by eapply run_step.
Qed.
End timer_facts.

(** X24.  Once the first [select] of [sendWorkItem] has taken the case
    [<-timer.C], the timer stays drained, for nothing sets it again, and
    from then on the scheduler delivers an item or starts a worker once at
    most: at the second [select] the item at hand is received by a worker,
    or a token is sent and a worker started.  The next time [sendWorkItem]
    is at the head of its loop it blocks in [<-timer.C].  So no item but
    the one at hand is delivered any more; and when a worker was started,
    the item at hand is never delivered: the scheduler stays in
    [sendWorkItem] at the head of the loop, where neither the timer can be
    set again nor a [select] be reached.  Whatever happens meanwhile is a
    run of [step]. *)
Theorem sendWorkItem_blocks_after_timeout ts1 qr ts2 tr tes ts tr2 :
  tstep ts1 (RecvTimer qr) = Some (ts2, tr) →
  trun ts2 tes = Some (ts, tr2) →
  ∃ c, sched (inst_of (sys ts1) qr) = SchedSend c
    ∧ send_timer (send_of ts qr) = TimerDrained
    ∧ tstep ts (Expires qr) = None
    ∧ sum_list_with (handed qr) tr2 ≤ 1
    ∧ (∀ c' w, Deliver qr c' w ∈ tr2 → c' = c)
    ∧ (Start qr true ∈ tr2 →
         (∀ c' w, Deliver qr c' w ∉ tr2)
         ∧ sched (inst_of (sys ts) qr) = SchedSend c
         ∧ send_pc (send_of ts qr) = AtStop
         ∧ tstep ts (StopReset qr) = None
         ∧ tstep ts (Plain (OfQueue qr SendTransientToken)) = None
         ∧ ∀ w, tstep ts (Plain (OfQueue qr (Handoff w))) = None)
    ∧ ∃ es, run (sys ts1) es = Some (sys ts, tr ++ tr2).
Proof.
  intros Hrecv Hrun.
  destruct (tstep_cases _ _ _ _ qr Hrecv)
    as [(Hsame & _)|[(e' & b' & He & _)
       |(-> & Hsys & [(He & _)|[(He & _)|(_ & [c Hc] & Hst1 & Hst2)]])]];
    try done.
  { simpl in Hrecv. rewrite <- Hsame in Hrecv.
    destruct (sched (inst_of (sys ts1) qr)); try done.
    destruct (send_of ts2 qr) as [[] []] eqn:Hst; try done.
    simplify_eq. rewrite send_of_with_send, decide_True in Hst by done.
    done. }
  assert (send_inner ts2 qr c) as Hin.
  { unfold send_inner. rewrite Hst2, Hsys. split_and!; try done. by left. }
  destruct (send_inner_run _ _ _ _ _ _ Hin Hrun) as (Ht & Hle & Hdel & Hstart).
  exists c. split_and!; try done.
  - simpl. by rewrite Ht.
  - intros Hs. destruct (Hstart Hs) as (Hnone & Hsched & Hpc).
    split_and!; try done.
    + simpl. by rewrite Hsched, Hpc, Ht.
    + simpl. by rewrite Hpc.
    + intros w. simpl. by rewrite Hpc.
  - destruct (trun_refines _ _ _ _ Hrun) as (es & Hes). exists es.
    by rewrite <- Hsys.
Qed.

Lemma sendWorkItem_blocks_after_timeout_witness :
  ∃ ts0 ts1 ts2 ts,
    tinitial 2 2 reapWorker loadWorker = Some ts0
    ∧ trun ts0 timeout_grow
      = Some (ts1, [Start Reaper false; Dispatch Reaper 7; Deliver Reaper 7 0;
                    Dispatch Reaper 8])
    ∧ tstep ts1 (RecvTimer Reaper) = Some (ts2, [])
    ∧ trun ts2 timeout_after = Some (ts, [Start Reaper true; Remove Reaper 7])
    ∧ sched (inst_of (sys ts) Reaper) = SchedSend 8
    ∧ send_of ts Reaper = mkSend AtStop TimerDrained
    ∧ workers (inst_of (sys ts) Reaper)
      = [mkWorker false AtReceive; mkWorker true AtReceive]
    ∧ curWork (reaper (bot (sys ts))) = {[8]}
    ∧ tstep ts (StopReset Reaper) = None
    ∧ (∀ w, tstep ts (Plain (OfQueue Reaper (Handoff w))) = None).
Proof.
  eexists _, _, _, _.
  split; [vm_compute; reflexivity|].
  split; [vm_compute; reflexivity|].
  match goal with
  | |- tstep ?ts1 _ = _ ∧ _ =>
      destruct (sendWorkItem_blocks_after_timeout
                  ts1 Reaper _ [] timeout_after
                  _ [Start Reaper true; Remove Reaper 7]
                  ltac:(vm_compute; reflexivity) ltac:(vm_compute; reflexivity))
        as (c & Hc & _ & _ & _ & _ & Hstart & _)
  end.
  destruct Hstart as (_ & Hsched & _ & Hstop & _ & Hhand);
    [apply list_elem_of_here|].
  injection Hc as <-.
  split; [vm_compute; reflexivity|].
  split; [vm_compute; reflexivity|].
  split_and!; [exact Hsched|reflexivity|reflexivity| |exact Hstop|exact Hhand].
  vm_compute. reflexivity.
Defined.
